(** * Trugenberger associative memory: the circuit builders of
      [TrugenbergerAlgorithm.py] and the state vectors they produce.

    The Python functions append gates to a [QuantumCircuit] that is mutated
    in place and may raise; they are embedded in a state-and-exception monad
    over the circuit's instruction list.  The meaning of a circuit is the
    state vector [Statevector.from_instruction] computes for it: a function
    from basis index to complex amplitude, qubit [q] being bit [q] of the
    index.

    Contents: Python values and the builders; amplitudes, gates and
    probabilities; the gate lists the builders emit; gates as index
    permutations, phases and rotations; one iteration of storage and the
    superposition a list of patterns builds; retrieval; the claims C1-C10;
    further properties X1-X23: the retrieval operator and the recall
    distribution, error paths, the codec, order and duplicates in storage. *)

From Stdlib Require Import Reals Lra Lia ZArith NArith List Bool Ascii.
From Stdlib Require Import FunctionalExtensionality Permutation.
Import ListNotations.

Local Open Scope R_scope.

(** ** Python values *)

(** Exceptions the builders themselves can raise.  What the libraries raise
    on arguments that are no valid registers or floats is outside the model:
    Qiskit's [CircuitError] (one qubit twice in a gate, a multi-controlled
    gate without controls, a qubit foreign to the circuit) and the
    [OverflowError] of an int too large for a float.  The theorems that depend
    on it assume arguments on which the code raises neither. *)
Inductive exn : Type :=
| IndexError
| ZeroDivisionError.

Inductive result (A : Type) : Type :=
| Ok (a : A)
| Raise (e : exn).
Arguments Ok {A} a.
Arguments Raise {A} e.

(** A Python/NumPy float: a real number, or the NaN that [np.sqrt] and
    [np.arccos] return outside their domain.  Rounding is modelled where it
    decides between a number and NaN, in [binary64_round] below; everywhere
    else the arithmetic is exact. *)
Inductive pyfloat : Type :=
| Num (r : R)
| NaN.

(** Rounding to the nearest integer, ties to the even one. *)
Definition round_half_even (y : R) : Z :=
  let f := Int_part y in
  if Rlt_dec (y - IZR f) (/ 2) then f
  else if Rlt_dec (/ 2) (y - IZR f) then (f + 1)%Z
  else if Z.even f then f else (f + 1)%Z.

(** Binary64 rounding in the binade [1, 2): a double has 52 fraction bits
    there, so consecutive doubles are [2^-52] apart, and a real is rounded to
    the nearest of them, ties to the even fraction ([4503599627370496] is
    [2^52]).  This is the binade in which [find_angle] decides between a
    number and NaN; outside it the value is kept as it is. *)
Definition binary64_round (x : R) : R :=
  if Rle_dec 1 x then
    if Rlt_dec x 2
    then 1 + IZR (round_half_even ((x - 1) * 4503599627370496)) / 4503599627370496
    else x
  else x.

(** [a / b] on Python ints: true division, correctly rounded, raising on a
    zero divisor. *)
Definition int_truediv (a b : Z) : result pyfloat :=
  if (b =? 0)%Z then Raise ZeroDivisionError
  else Ok (Num (binary64_round (IZR a / IZR b))).

(** [a / b] on Python floats. *)
Definition float_truediv (a b : pyfloat) : result pyfloat :=
  match a, b with
  | Num x, Num y =>
      if Req_dec_T y 0 then Raise ZeroDivisionError else Ok (Num (x / y))
  | NaN, Num y => if Req_dec_T y 0 then Raise ZeroDivisionError else Ok NaN
  | _, NaN => Ok NaN
  end.

Definition float_mul (a b : pyfloat) : pyfloat :=
  match a, b with
  | Num x, Num y => Num (x * y)
  | _, _ => NaN
  end.

Definition float_neg (a : pyfloat) : pyfloat :=
  match a with
  | Num x => Num (- x)
  | NaN => NaN
  end.

Definition np_sqrt (a : pyfloat) : pyfloat :=
  match a with
  | Num x => if Rlt_dec x 0 then NaN else Num (binary64_round (sqrt x))
  | NaN => NaN
  end.

Definition np_arccos (a : pyfloat) : pyfloat :=
  match a with
  | Num x =>
      if Rlt_dec x (-1) then NaN
      else if Rlt_dec 1 x then NaN
      else Num (acos x)
  | NaN => NaN
  end.

Definition np_pi : pyfloat := Num PI.

(** ** Circuits *)

Definition qubit := N.

(** The instructions the program appends, named after Qiskit's gate classes. *)
Inductive gate : Type :=
| XGate (q : qubit)
| HGate (q : qubit)
| PhaseGate (theta : pyfloat) (q : qubit)
| CXGate (c t : qubit)
| CCXGate (c1 c2 t : qubit)
| MCXGate (cs : list qubit) (t : qubit)
| CRYGate (theta : pyfloat) (c t : qubit)
| CPhaseGate (theta : pyfloat) (c t : qubit).

(** A [QuantumCircuit] is its instruction list, in order of application. *)
Definition QuantumCircuit := list gate.

(** ** The builder monad: the circuit is threaded, exceptions abort. *)

Definition prog (A : Type) : Type := QuantumCircuit -> result A * QuantumCircuit.

Definition ret {A} (a : A) : prog A := fun qc => (Ok a, qc).

Definition bind {A B} (m : prog A) (f : A -> prog B) : prog B :=
  fun qc =>
    match m qc with
    | (Ok a, qc') => f a qc'
    | (Raise e, qc') => (Raise e, qc')
    end.

Definition lift {A} (r : result A) : prog A := fun qc => (r, qc).

(** Appending an instruction.  Qiskit's validation of the qubit arguments
    (qubits of the circuit, no qubit twice in one gate, at least one control
    for [mcx]) is not part of the builders and raises [CircuitError], which
    [exn] does not have: a statement about success or about the exceptions
    of a builder assumes registers that pass it. *)
Definition append (g : gate) : prog unit := fun qc => (Ok tt, qc ++ [g]).

Declare Scope prog_scope.
Delimit Scope prog_scope with prog.
Notation "x <- m ;; k" := (bind m (fun x => k))
  (at level 61, m at next level, right associativity) : prog_scope.
Notation "m ;; k" := (bind m (fun _ => k))
  (at level 61, right associativity) : prog_scope.
Local Open Scope prog_scope.

(** [for x in xs: body(x)] *)
Fixpoint for_each {A} (xs : list A) (body : A -> prog unit) : prog unit :=
  match xs with
  | [] => ret tt
  | x :: xs' => body x ;; for_each xs' body
  end.

(** [xs[idx]] for a non-negative index. *)
Definition getitem {A} (xs : list A) (idx : nat) : prog A :=
  match nth_error xs idx with
  | Some x => ret x
  | None => lift (Raise IndexError)
  end.

(** [enumerate(xs)] and [range(n)]. *)
Definition enumerate {A} (xs : list A) : list (nat * A) :=
  combine (seq 0 (length xs)) xs.

Definition range (n : nat) : list nat := seq 0 n.

(** The circuit methods. *)
Definition qc_x (q : qubit) : prog unit := append (XGate q).
Definition qc_h (q : qubit) : prog unit := append (HGate q).
Definition qc_p (theta : pyfloat) (q : qubit) : prog unit := append (PhaseGate theta q).
Definition qc_cx (c t : qubit) : prog unit := append (CXGate c t).
Definition qc_ccx (c1 c2 t : qubit) : prog unit := append (CCXGate c1 c2 t).
Definition qc_mcx (cs : list qubit) (t : qubit) : prog unit := append (MCXGate cs t).
Definition qc_cry (theta : pyfloat) (c t : qubit) : prog unit := append (CRYGate theta c t).
(** [qc.append(PhaseGate(theta).control(1), [c, t])] *)
Definition qc_append_cphase (theta : pyfloat) (c t : qubit) : prog unit :=
  append (CPhaseGate theta c t).

(** ** The program *)

(** Binary digits of a positive number, least significant first. *)
Fixpoint pos_digits_lsb (p : positive) : list ascii :=
  match p with
  | xH => ["1"%char]
  | xO p' => "0"%char :: pos_digits_lsb p'
  | xI p' => "1"%char :: pos_digits_lsb p'
  end.

(** [f"{value:0{width}b}"]: sign, then zero padding up to [width]
    characters in all, then the binary digits of the magnitude. *)
Definition format_0b (value : Z) (width : nat) : list ascii :=
  let sign := if (value <? 0)%Z then ["-"%char] else [] in
  let digits :=
    match value with
    | Z0 => ["0"%char]
    | Zpos p => rev (pos_digits_lsb p)
    | Zneg p => rev (pos_digits_lsb p)
    end in
  sign ++ repeat "0"%char (width - length sign - length digits) ++ digits.

Definition apply_pauli_from_int (value : Z) (qubits : list qubit) : prog unit :=
  let bin_string := format_0b value (length qubits) in
  for_each (enumerate (rev bin_string)) (fun '(idx, bit) =>
    if Ascii.eqb bit "1"%char
    then (q <- getitem qubits idx ;; qc_x q)
    else ret tt).

Definition find_angle (j : Z) : result pyfloat :=
  match int_truediv (j - 1) j with
  | Raise e => Raise e
  | Ok x => Ok (float_mul (Num (-2)) (np_arccos (np_sqrt x)))
  end.

Definition controlled_si (p u : list qubit) (i len_ps : Z) : prog unit :=
  angle <- lift (find_angle (len_ps + 1 - i)) ;;
  u0 <- getitem u 0 ;;
  u1 <- getitem u 1 ;;
  qc_cry angle u0 u1.

(** The body of the loop of [storage_algorithm], for the pattern [val] at
    position [idx] of [ps]. *)
Definition storage_step (len_ps : nat) (p u m : list qubit)
    (idx : nat) (val : Z) : prog unit :=
  (* Step 0 *)
  apply_pauli_from_int val p ;;
  (* Step 1 *)
  for_each (range (length p)) (fun j =>
    a <- getitem p j ;; b <- getitem u 1 ;; t <- getitem m j ;;
    qc_ccx a b t) ;;
  (* Step 2 *)
  for_each (range (length p)) (fun j =>
    (a <- getitem p j ;; t <- getitem m j ;; qc_cx a t) ;;
    (t <- getitem m j ;; qc_x t)) ;;
  (* Step 3 *)
  (u0 <- getitem u 0 ;; qc_mcx m u0) ;;
  (* Step 4 *)
  controlled_si p u (Z.of_nat idx + 1) (Z.of_nat len_ps) ;;
  (* Step 5 *)
  (u0 <- getitem u 0 ;; qc_mcx m u0) ;;
  (* Step 6 *)
  for_each (rev (range (length p))) (fun j =>
    (t <- getitem m j ;; qc_x t) ;;
    (a <- getitem p j ;; t <- getitem m j ;; qc_cx a t)) ;;
  (* Step 7 *)
  for_each (rev (range (length p))) (fun j =>
    a <- getitem p j ;; b <- getitem u 1 ;; t <- getitem m j ;;
    qc_ccx a b t) ;;
  (* Step 8 *)
  apply_pauli_from_int val p.

Definition storage_algorithm (ps : list Z) (p u m : list qubit) : prog unit :=
  for_each (enumerate ps) (fun '(idx, val) =>
    storage_step (length ps) p u m idx val).

(** In [u_gate] and [cu_squared] the int [n] meets a float and is converted:
    the conversion is taken as exact.  Python raises [OverflowError] for
    [|n| >= 2^1024 - 2^970]; the program passes [n = len(m)], which is far
    below, and the theorems about the two functions alone assume [n] below
    that bound. *)
Definition u_gate (q : qubit) (n : Z) : prog unit :=
  qc_x q ;;
  (theta <- lift (float_truediv np_pi (float_mul (Num 2) (Num (IZR n)))) ;;
   qc_p theta q) ;;
  qc_x q.

Definition cu_squared (control target : qubit) (n : Z) : prog unit :=
  theta <- lift (float_truediv (float_neg np_pi) (Num (IZR n))) ;;
  qc_cx control target ;;
  qc_append_cphase theta control target ;;
  qc_cx control target.

Definition apply_u_and_cu (m : list qubit) (c : qubit) : prog unit :=
  let n := Z.of_nat (length m) in
  for_each m (fun q => u_gate q n) ;;
  for_each m (fun q => cu_squared c q n).

Definition retrieval_algorithm (i m : list qubit) (c : qubit) : prog unit :=
  (* Step 0 *)
  qc_h c ;;
  (* Step 1 *)
  for_each (range (length i)) (fun j =>
    (a <- getitem i j ;; t <- getitem m j ;; qc_cx a t) ;;
    (t <- getitem m j ;; qc_x t)) ;;
  (* Step 2 *)
  apply_u_and_cu m c ;;
  (* Step 3 *)
  for_each (rev (range (length i))) (fun j =>
    (t <- getitem m j ;; qc_x t) ;;
    (a <- getitem i j ;; t <- getitem m j ;; qc_cx a t)) ;;
  qc_h c.

Definition bv_algorithm {T : Type} (i m : list qubit) (c : qubit)
    (degree_threshold : T) : prog unit :=
  for_each i (fun q => qc_h q) ;;
  retrieval_algorithm i m c ;;
  for_each i (fun q => qc_h q).

(** The experiment of [run_quantum_memory], with the pattern list, the
    query and the registers as parameters: flip [u[1]], store [ps], load the
    query into [i] by bit flips, retrieve with control qubit [c]. *)
Definition store_then_retrieve (ps : list Z) (query : Z)
    (i u m : list qubit) (c : qubit) : prog unit :=
  (u1 <- getitem u 1 ;; qc_x u1) ;;
  storage_algorithm ps i u m ;;
  apply_pauli_from_int query i ;;
  retrieval_algorithm i m c.

(** [run_quantum_memory] without its printing: registers [i], [u], [m] of
    3, 2 and 3 qubits, patterns [1, 4], query loaded by [qc.x(i[2])]. *)
Definition run_quantum_memory : prog unit :=
  let i := [0; 1; 2]%N in
  let u := [3; 4]%N in
  let m := [5; 6; 7]%N in
  (u1 <- getitem u 1 ;; qc_x u1) ;;
  storage_algorithm [1; 4]%Z i u m ;;
  (i2 <- getitem i 2 ;; qc_x i2) ;;
  (u0 <- getitem u 0 ;; retrieval_algorithm i m u0).

(** ** Complex amplitudes *)

Definition C : Type := (R * R)%type.

Definition C0 : C := (0, 0).
Definition C1 : C := (1, 0).
Definition RtoC (r : R) : C := (r, 0).
Definition Cplus (a b : C) : C := (fst a + fst b, snd a + snd b).
Definition Cmult (a b : C) : C :=
  (fst a * fst b - snd a * snd b, fst a * snd b + snd a * fst b).
Definition Cexp_i (theta : R) : C := (cos theta, sin theta).
(** Squared magnitude. *)
Definition Cnorm2 (a : C) : R := fst a * fst a + snd a * snd a.

(** Conjugate of a complex number. *)
Definition Cconj (a : C) : C := (fst a, - snd a).

Declare Scope C_scope.
Delimit Scope C_scope with C.
Infix "+" := Cplus : C_scope.
Infix "*" := Cmult : C_scope.

(** ** State vectors *)

(** Amplitude of every basis index; qubit [q] is bit [q] of the index. *)
Definition state : Type := N -> C.

(** The basis state of index [K]. *)
Definition ket (K : N) : state := fun k => if (k =? K)%N then C1 else C0.

Definition sscale (a : C) (psi : state) : state := fun k => (a * psi k)%C.
Definition sadd (psi phi : state) : state := fun k => (psi k + phi k)%C.

(** The superposition with the listed amplitudes on the listed indices. *)
Fixpoint superpos (l : list (C * N)) : state :=
  match l with
  | [] => fun _ => C0
  | aK :: l' => sadd (sscale (fst aK) (ket (snd aK))) (superpos l')
  end.

(** Index [k] with the bit of qubit [t] flipped. *)
Definition flip (t : qubit) (k : N) : N := N.lxor k (2 ^ t).

Record mat2 : Type := Mat2 { m00 : C; m01 : C; m10 : C; m11 : C }.

Definition X_mat : mat2 := Mat2 C0 C1 C1 C0.
Definition H_mat : mat2 :=
  Mat2 (RtoC (/ sqrt 2)) (RtoC (/ sqrt 2)) (RtoC (/ sqrt 2)) (RtoC (- / sqrt 2)).
Definition P_mat (theta : R) : mat2 := Mat2 C1 C0 C0 (Cexp_i theta).
Definition RY_mat (theta : R) : mat2 :=
  Mat2 (RtoC (cos (theta / 2))) (RtoC (- sin (theta / 2)))
       (RtoC (sin (theta / 2))) (RtoC (cos (theta / 2))).

(** The columns of [U] are orthonormal. *)
Definition unitary2 (U : mat2) : Prop :=
  Cnorm2 (m00 U) + Cnorm2 (m10 U) = 1 /\
  Cnorm2 (m01 U) + Cnorm2 (m11 U) = 1 /\
  (Cconj (m00 U) * m01 U + Cconj (m10 U) * m11 U)%C = C0.

(** Modelled from the spec: the state engine (Qiskit's [Statevector]) is not
    part of the source.  One gate acts on the amplitude array by index
    arithmetic: where every control bit of [k] is set, the 2x2 matrix [U] is
    applied to the pair of amplitudes that differ in the target bit [t];
    elsewhere the amplitude is kept. *)
Definition apply_ctrl (cs : list qubit) (t : qubit) (U : mat2) (psi : state) : state :=
  fun k =>
    if forallb (N.testbit k) cs then
      if N.testbit k t
      then (m10 U * psi (flip t k) + m11 U * psi k)%C
      else (m00 U * psi k + m01 U * psi (flip t k))%C
    else psi k.

(** Modelled from the spec: controls, target and matrix of each gate
    variant, with Qiskit's matrices; a gate whose angle is NaN has none. *)
Definition gate_action (g : gate) : option (list qubit * qubit * mat2) :=
  match g with
  | XGate q => Some ([], q, X_mat)
  | HGate q => Some ([], q, H_mat)
  | PhaseGate (Num theta) q => Some ([], q, P_mat theta)
  | CXGate c t => Some ([c], t, X_mat)
  | CCXGate c1 c2 t => Some ([c1; c2], t, X_mat)
  | MCXGate cs t => Some (cs, t, X_mat)
  | CRYGate (Num theta) c t => Some ([c], t, RY_mat theta)
  | CPhaseGate (Num theta) c t => Some ([c], t, P_mat theta)
  | PhaseGate NaN _ | CRYGate NaN _ _ | CPhaseGate NaN _ _ => None
  end.

Definition apply_gate (g : gate) (psi : state) : option state :=
  match gate_action g with
  | Some (cs, t, U) => Some (apply_ctrl cs t U psi)
  | None => None
  end.

(** The state vector after the instructions of [qc], from [psi]. *)
Fixpoint run (qc : QuantumCircuit) (psi : state) : option state :=
  match qc with
  | [] => Some psi
  | g :: qc' =>
      match apply_gate g psi with
      | Some psi' => run qc' psi'
      | None => None
      end
  end.

(** Sum of [f] over the basis indices of [n] qubits, [0 .. 2^n - 1]. *)
Fixpoint sum_basis (n : nat) (f : N -> R) : R :=
  match n with
  | O => f 0%N
  | S n' => sum_basis n' f + sum_basis n' (fun k => f (flip (N.of_nat n') k))
  end.

(** Sum of the squared magnitudes over the full basis. *)
Definition norm2 (n : nat) (psi : state) : R :=
  sum_basis n (fun k => Cnorm2 (psi k)).

(** [Statevector.probabilities]-style marginal: total probability of the
    basis states selected by [sel]. *)
Definition prob (n : nat) (sel : N -> bool) (psi : state) : R :=
  sum_basis n (fun k => if sel k then Cnorm2 (psi k) else 0).

(** Probability of reading bit [b] on qubit [q]. *)
Definition prob_qubit (n : nat) (q : qubit) (b : bool) (psi : state) : R :=
  prob n (fun k => Bool.eqb (N.testbit k q) b) psi.

(** The bits of the qubits of register [r] in index [k], first qubit first. *)
Definition reg_bits (r : list qubit) (k : N) : list bool := map (N.testbit k) r.

(** Probability of reading the bits [bs] on register [r]. *)
Definition prob_reg (n : nat) (r : list qubit) (bs : list bool) (psi : state) : R :=
  prob n (fun k => if list_eq_dec Bool.bool_dec (reg_bits r k) bs then true else false) psi.

(** A gate of a circuit on [n] qubits is well formed when its qubits are
    allocated, its target is not one of its controls and its angle is a
    number. *)
Definition wf_gate (n : nat) (g : gate) : Prop :=
  match gate_action g with
  | Some (cs, t, _) =>
      (t < N.of_nat n)%N /\ ~ In t cs /\ Forall (fun c => (c < N.of_nat n)%N) cs
  | None => False
  end.

(** ** Register bookkeeping *)

(** The index whose set bits are the qubits marked [true]. *)
Fixpoint bit_mask (l : list (qubit * bool)) : N :=
  match l with
  | [] => 0%N
  | (q, b) :: l' => N.lxor (if b then 2 ^ q else 0)%N (bit_mask l')
  end.

(** The [w] low bits of [v], least significant first. *)
Definition lsb_bits (v : N) (w : nat) : list bool :=
  map (fun j => N.testbit v (N.of_nat j)) (seq 0 w).

(** The basis index in which register [r] holds [v], little endian, and
    every other qubit is 0. *)
Definition reg_index (r : list qubit) (v : N) : N :=
  bit_mask (combine r (lsb_bits v (length r))).

(** Bitwise exclusive or of two bit lists. *)
Definition xor_bits (x y : list bool) : list bool :=
  map (fun ab : bool * bool => xorb (fst ab) (snd ab)) (combine x y).

(** The basis index in which the pattern register [p] holds the bits [x],
    [u0] holds [a], [u1] holds [b], the memory register [m] holds [y], and
    every other qubit is 0. *)
Definition basis_index (p : list qubit) (u0 u1 : qubit) (m : list qubit)
    (x : list bool) (a b : bool) (y : list bool) : N :=
  N.lxor (N.lxor (bit_mask (combine p x)) (bit_mask [(u0, a); (u1, b)]))
         (bit_mask (combine m y)).

(** The bit flips [apply_pauli_from_int] emits for the bits [bs]. *)
Definition x_gates (r : list qubit) (bs : list bool) : QuantumCircuit :=
  flat_map (fun qb : qubit * bool => if snd qb then [XGate (fst qb)] else [])
           (combine r bs).

(** Action of a bit-flip-type gate on a basis index. *)
Definition gate_perm (g : gate) (k : N) : N :=
  match g with
  | XGate q => flip q k
  | CXGate c t => if N.testbit k c then flip t k else k
  | CCXGate c1 c2 t => if N.testbit k c1 && N.testbit k c2 then flip t k else k
  | MCXGate cs t => if forallb (N.testbit k) cs then flip t k else k
  | _ => k
  end.

Definition classical (g : gate) : Prop :=
  match g with
  | XGate q => True
  | CXGate c t => c <> t
  | CCXGate c1 c2 t => c1 <> t /\ c2 <> t
  | MCXGate cs t => ~ In t cs
  | _ => False
  end.

Fixpoint circuit_perm (qc : QuantumCircuit) (k : N) : N :=
  match qc with
  | [] => k
  | g :: qc' => circuit_perm qc' (gate_perm g k)
  end.

(** A circuit that multiplies every amplitude by a phase of its index. *)
Definition diagonal_circuit (qc : QuantumCircuit) : Prop :=
  exists d : N -> C,
    (forall k, Cnorm2 (d k) = 1) /\
    forall psi, run qc psi = Some (fun k => (d k * psi k)%C).

(** ** The gate lists the builders emit *)

Definition is_one (c : ascii) : bool := Ascii.eqb c "1"%char.

(** Step 1 and step 7 of storage on the qubit pairs [l]. *)
Definition ccx_gates (u1 : qubit) (l : list (qubit * qubit)) : QuantumCircuit :=
  flat_map (fun at_ : qubit * qubit => [CCXGate (fst at_) u1 (snd at_)]) l.

(** The equality detector: step 2 of storage, step 1 of retrieval. *)
Definition cmp_gates (l : list (qubit * qubit)) : QuantumCircuit :=
  flat_map (fun at_ : qubit * qubit =>
              [CXGate (fst at_) (snd at_); XGate (snd at_)]) l.

(** Its mirror image: step 6 of storage, step 3 of retrieval. *)
Definition uncmp_gates (l : list (qubit * qubit)) : QuantumCircuit :=
  flat_map (fun at_ : qubit * qubit =>
              [XGate (snd at_); CXGate (fst at_) (snd at_)]) l.

(** The angle [find_angle] returns on its domain. *)
Definition theta_j (j : Z) : R := -2 * acos (sqrt (IZR (j - 1) / IZR j)).

(** One iteration of [storage_algorithm] for the pattern [v], with the
    rotation angle [theta]. *)
Definition storage_step_gates (theta : R) (p : list qubit) (u0 u1 : qubit)
    (m : list qubit) (v : N) : QuantumCircuit :=
  x_gates p (lsb_bits v (length p)) ++
  ccx_gates u1 (combine p m) ++
  cmp_gates (combine p m) ++
  [MCXGate m u0; CRYGate (Num theta) u0 u1; MCXGate m u0] ++
  uncmp_gates (rev (combine p m)) ++
  ccx_gates u1 (rev (combine p m)) ++
  x_gates p (lsb_bits v (length p)).

(** The iterations for the patterns [vals], the first of which has
    position [idx] in a list of [len_ps] patterns. *)
Fixpoint storage_gates (len_ps : nat) (p : list qubit) (u0 u1 : qubit)
    (m : list qubit) (idx : nat) (vals : list N) : QuantumCircuit :=
  match vals with
  | [] => []
  | v :: vals' =>
      storage_step_gates (theta_j (Z.of_nat len_ps - Z.of_nat idx)) p u0 u1 m v ++
      storage_gates len_ps p u0 u1 m (S idx) vals'
  end.

Definition u_gates (n : Z) (m : list qubit) : QuantumCircuit :=
  flat_map (fun q => [XGate q; PhaseGate (Num (PI / (2 * IZR n))) q; XGate q]) m.

Definition cu_gates (n : Z) (c : qubit) (m : list qubit) : QuantumCircuit :=
  flat_map (fun q => [CXGate c q; CPhaseGate (Num (- PI / IZR n)) c q; CXGate c q]) m.

Definition retrieval_gates (i m : list qubit) (c : qubit) : QuantumCircuit :=
  [HGate c] ++
  cmp_gates (combine i m) ++
  (u_gates (Z.of_nat (length m)) m ++ cu_gates (Z.of_nat (length m)) c m) ++
  uncmp_gates (rev (combine i m)) ++
  [HGate c].

(** The body of the loop of [apply_pauli_from_int]. *)
Definition pauli_body (qubits : list qubit) (ib : nat * ascii) : prog unit :=
  if Ascii.eqb (snd ib) "1"%char
  then (q <- getitem qubits (fst ib) ;; qc_x q)
  else ret tt.

(** The state of the memory while [len_ps] patterns are being stored, after
    the patterns [done]: every stored pattern sits in the memory register
    with amplitude [1/sqrt(len_ps)] and [u1] cleared; the rest of the
    amplitude is still on the starting state, in which only [u1] is set. *)
Definition memory_state (len_ps : nat) (m : list qubit) (u1 : qubit)
    (done : list N) : state :=
  sadd (sscale (RtoC (sqrt (INR (len_ps - length done) / INR len_ps))) (ket (2 ^ u1)))
       (superpos (map (fun v => (RtoC (/ sqrt (INR len_ps)), reg_index m v)) done)).

(** The gates of [store_then_retrieve]. *)
Definition experiment_gates (ps : list Z) (query : Z) (i : list qubit)
    (u0 u1 : qubit) (m : list qubit) (c : qubit) : QuantumCircuit :=
  [XGate u1] ++
  storage_gates (length ps) i u0 u1 m 0 (map Z.abs_N ps) ++
  x_gates i (lsb_bits (Z.abs_N query) (length i)) ++
  retrieval_gates i m c.

(** Register [r] reads |0...0>: every basis state in which [r] is not
    all-zero has amplitude zero. *)
Definition register_zero (r : list qubit) (psi : state) : Prop :=
  forall k, reg_bits r k <> repeat false (length r) -> psi k = C0.

(** The gate list the specification gives for the controlled
    exponential-phase operator: the phase rotations between bit flips, then
    one controlled phase rotation per memory qubit, and nothing else. *)
Definition spec_u_and_cu (m : list qubit) (c : qubit) : QuantumCircuit :=
  flat_map (fun q => [XGate q;
                      PhaseGate (Num (PI / (2 * IZR (Z.of_nat (length m))))) q;
                      XGate q]) m ++
  map (fun q => CPhaseGate (Num (- PI / IZR (Z.of_nat (length m)))) c q) m.

(** ** Definitions for the further properties *)

(** The imaginary unit. *)
Definition Ci : C := (0, 1).

(** A circuit that multiplies the amplitude of every index [k] by [d k]. *)
Definition phase_circuit (qc : QuantumCircuit) (d : N -> C) : Prop :=
  forall psi, run qc psi = Some (fun k => (d k * psi k)%C).

(** Number of qubits of [r] whose bit in [k] is 0. *)
Definition zero_count (r : list qubit) (k : N) : nat :=
  length (filter (fun q => negb (N.testbit k q)) r).

(** Number of positions in which two bit lists differ. *)
Definition hamming (x y : list bool) : nat :=
  length (filter (fun b : bool => b) (xor_bits x y)).

(** The angle of the recall interference for [d] mismatching bits out of
    [w]. *)
Definition recall_angle (w d : nat) : R := PI * INR d / (2 * INR w).

(** The only exception a builder can raise is [IndexError]. *)
Definition raises_only_index {A} (m : prog A) : Prop :=
  forall qc, match fst (m qc) with
             | Ok _ => True
             | Raise e => e = IndexError
             end.

Definition bit_char (b : bool) : ascii := if b then "1"%char else "0"%char.

(** [print_state_info], the label of the row of basis index [i]:
    [bitstring = f"{i:0{state.num_qubits}b}"] and
    [reversed_bitstring = bitstring[::-1]]. *)
Definition reversed_bitstring (i : N) (num_qubits : nat) : list ascii :=
  rev (format_0b (Z.of_N i) num_qubits).

(** Sum of [f] over a list. *)
Definition sum_list {A} (f : A -> R) (l : list A) : R :=
  fold_right (fun x acc => f x + acc) 0 l.

(** Register [r] holds the bits [bs] in the basis index [k]. *)
Definition reg_reads (r : list qubit) (bs : list bool) (k : N) : bool :=
  if list_eq_dec Bool.bool_dec (reg_bits r k) bs then true else false.

(** The share of one stored pattern in the outcome of a recall: [f] is
    [cos] for the control read as 0 and [sin] for the control read as 1. *)
Definition recall_weight (f : R -> R) (w len_ps : nat) (query val : Z) : R :=
  (f (recall_angle w (hamming (lsb_bits (Z.abs_N query) w)
                              (lsb_bits (Z.abs_N val) w))))² / INR len_ps.

(** The basis indices storage can reach from the starting state: the
    starting state itself and the states that hold one of the patterns
    [done]. *)
Definition stored_indices (m : list qubit) (u1 : qubit) (done : list N) : list N :=
  (2 ^ u1)%N :: map (reg_index m) done.

(** * Properties *)

(** ** Complex arithmetic *)

Lemma C_eq (a b : C) : fst a = fst b -> snd a = snd b -> a = b.
Proof. destruct a, b; simpl; intros; subst; reflexivity. Qed.

Ltac Csolve :=
  intros; apply C_eq; unfold Cplus, Cmult, RtoC, C0, C1, Cexp_i; simpl; try ring.

Lemma Cmult_0_l (a : C) : (C0 * a)%C = C0.
Proof. Csolve. Qed.

Lemma Cmult_1_l (a : C) : (C1 * a)%C = a.
Proof. Csolve. Qed.

Lemma Cmult_0_r (a : C) : (a * C0)%C = C0.
Proof. Csolve. Qed.

Lemma Cmult_1_r (a : C) : (a * C1)%C = a.
Proof. Csolve. Qed.

Lemma Cplus_0_l (a : C) : (C0 + a)%C = a.
Proof. Csolve. Qed.

Lemma Cplus_0_r (a : C) : (a + C0)%C = a.
Proof. Csolve. Qed.

Lemma Cplus_comm (a b : C) : (a + b)%C = (b + a)%C.
Proof. Csolve. Qed.

Lemma Cplus_assoc (a b c : C) : (a + (b + c))%C = (a + b + c)%C.
Proof. Csolve. Qed.

Lemma Cmult_assoc (a b c : C) : (a * (b * c))%C = (a * b * c)%C.
Proof. Csolve. Qed.

Lemma Cmult_comm (a b : C) : (a * b)%C = (b * a)%C.
Proof. Csolve. Qed.

Lemma Cmult_plus_distr_l (a b c : C) : (a * (b + c))%C = (a * b + a * c)%C.
Proof. Csolve. Qed.

Lemma Cnorm2_mult (a b : C) : Cnorm2 (a * b)%C = Cnorm2 a * Cnorm2 b.
Proof. unfold Cnorm2, Cmult; simpl; ring. Qed.

Lemma Cnorm2_C0 : Cnorm2 C0 = 0.
Proof. unfold Cnorm2, C0; simpl; ring. Qed.

Lemma Cnorm2_C1 : Cnorm2 C1 = 1.
Proof. unfold Cnorm2, C1; simpl; ring. Qed.

Lemma Cnorm2_nonneg (a : C) : 0 <= Cnorm2 a.
Proof. unfold Cnorm2. nra. Qed.

Lemma Cnorm2_Cexp_i (theta : R) : Cnorm2 (Cexp_i theta) = 1.
Proof.
  unfold Cnorm2, Cexp_i; simpl.
  pose proof (sin2_cos2 theta) as E. unfold Rsqr in E. lra.
Qed.

(** ** Bits of basis indices *)

Lemma flip_spec (t : qubit) (k : N) (q : N) :
  N.testbit (flip t k) q = xorb (N.testbit k q) (t =? q)%N.
Proof. unfold flip. now rewrite N.lxor_spec, N.pow2_bits_eqb. Qed.

Lemma flip_same (t : qubit) (k : N) : N.testbit (flip t k) t = negb (N.testbit k t).
Proof. rewrite flip_spec, N.eqb_refl. now destruct (N.testbit k t). Qed.

Lemma flip_other (t : qubit) (k : N) (q : N) :
  t <> q -> N.testbit (flip t k) q = N.testbit k q.
Proof.
  intros Hq. rewrite flip_spec. apply N.eqb_neq in Hq. rewrite Hq.
  now destruct (N.testbit k q).
Qed.

Lemma flip_flip (t : qubit) (k : N) : flip t (flip t k) = k.
Proof.
  unfold flip. now rewrite N.lxor_assoc, N.lxor_nilpotent, N.lxor_0_r.
Qed.

Lemma flip_comm (s t : qubit) (k : N) : flip s (flip t k) = flip t (flip s k).
Proof.
  unfold flip. rewrite !N.lxor_assoc. f_equal. apply N.lxor_comm.
Qed.

Lemma flip_neq (t : qubit) (k : N) : flip t k <> k.
Proof.
  intros E. pose proof (flip_same t k) as F. rewrite E in F.
  now destruct (N.testbit k t).
Qed.

Lemma flip_eq_iff (t : qubit) (k K : N) : flip t k = K <-> k = flip t K.
Proof. split; intros E; subst; now rewrite flip_flip. Qed.

Lemma forallb_flip (cs : list qubit) (t : qubit) (k : N) :
  ~ In t cs -> forallb (N.testbit (flip t k)) cs = forallb (N.testbit k) cs.
Proof.
  induction cs as [|c cs IH]; simpl; intros Hn; [reflexivity|].
  rewrite flip_other by (intros E; apply Hn; left; now symmetry).
  rewrite IH by tauto. reflexivity.
Qed.

Lemma flip_lt (n : nat) (t : qubit) (k : N) :
  (t < N.of_nat n)%N -> (k < 2 ^ N.of_nat n)%N -> (flip t k < 2 ^ N.of_nat n)%N.
Proof.
  intros Ht Hk.
  destruct (N.eq_dec (flip t k) 0) as [E|E]; [rewrite E; lia|].
  apply N.log2_lt_pow2; [lia|].
  unfold flip. eapply N.le_lt_trans; [apply N.log2_lxor|].
  destruct (N.eq_dec k 0) as [-> | Hk0].
  - simpl. rewrite N.log2_pow2 by lia. lia.
  - apply N.log2_lt_pow2 in Hk; [|lia].
    rewrite N.log2_pow2 by lia. lia.
Qed.

(** ** Sums over the basis *)

Lemma sum_basis_ext (n : nat) (f g : N -> R) :
  (forall k, f k = g k) -> sum_basis n f = sum_basis n g.
Proof.
  revert f g. induction n as [|n IH]; simpl; intros f g E; [apply E|].
  f_equal; apply IH; intros k; apply E.
Qed.

Lemma sum_basis_plus (n : nat) (f g : N -> R) :
  sum_basis n (fun k => f k + g k) = sum_basis n f + sum_basis n g.
Proof.
  revert f g. induction n as [|n IH]; simpl; intros f g; [reflexivity|].
  rewrite (IH f g), (IH (fun k => f (flip (N.of_nat n) k)) (fun k => g (flip (N.of_nat n) k))).
  ring.
Qed.

Lemma sum_basis_scal (n : nat) (c : R) (f : N -> R) :
  sum_basis n (fun k => c * f k) = c * sum_basis n f.
Proof.
  revert f. induction n as [|n IH]; simpl; intros f; [reflexivity|].
  rewrite (IH f), (IH (fun k => f (flip (N.of_nat n) k))). ring.
Qed.

Lemma sum_basis_zero (n : nat) : sum_basis n (fun _ => 0) = 0.
Proof. induction n as [|n IH]; simpl; [reflexivity|]. rewrite IH. ring. Qed.

(** Flipping an allocated qubit permutes the basis. *)
Lemma sum_basis_flip (n : nat) (t : qubit) (f : N -> R) :
  (t < N.of_nat n)%N -> sum_basis n (fun k => f (flip t k)) = sum_basis n f.
Proof.
  revert f. induction n as [|n IH]; intros f Ht; [lia|]. simpl.
  destruct (N.eq_dec t (N.of_nat n)) as [-> | Hne].
  - rewrite (sum_basis_ext n (fun k => f (flip (N.of_nat n) (flip (N.of_nat n) k))) f)
      by (intros k; now rewrite flip_flip).
    ring.
  - assert (Ht' : (t < N.of_nat n)%N) by lia.
    rewrite (IH f Ht').
    rewrite (sum_basis_ext n (fun k => f (flip t (flip (N.of_nat n) k)))
               (fun k => (fun k' => f (flip (N.of_nat n) k')) (flip t k)))
      by (intros k; now rewrite flip_comm).
    rewrite (IH (fun k' => f (flip (N.of_nat n) k')) Ht'). reflexivity.
Qed.

(** A transformation that keeps the sum of each pair of indices differing in
    qubit [t] keeps the sum over the basis. *)
Lemma sum_basis_pairs (n : nat) (t : qubit) (f g : N -> R) :
  (t < N.of_nat n)%N ->
  (forall k, f k + f (flip t k) = g k + g (flip t k)) ->
  sum_basis n f = sum_basis n g.
Proof.
  intros Ht E.
  assert (D : forall h, sum_basis n h = / 2 * sum_basis n (fun k => h k + h (flip t k))).
  { intros h. rewrite sum_basis_plus, (sum_basis_flip n t h Ht). lra. }
  rewrite (D f), (D g). f_equal. apply sum_basis_ext, E.
Qed.

Lemma flip_top_add (n : nat) (k : N) :
  (k < 2 ^ N.of_nat n)%N -> flip (N.of_nat n) k = (k + 2 ^ N.of_nat n)%N.
Proof.
  intros Hk. unfold flip. rewrite N.lxor_comm, N.add_comm.
  symmetry. apply N.add_nocarry_lxor.
  apply N.bits_inj_0. intros q. rewrite N.land_spec, N.pow2_bits_eqb.
  destruct (N.eqb_spec (N.of_nat n) q) as [<- | Hq]; [|reflexivity]. simpl.
  destruct (N.eq_dec k 0) as [-> | Hk0]; [apply N.bits_0|].
  apply N.bits_above_log2. apply N.log2_lt_pow2; lia.
Qed.

Lemma sum_basis_ext_lt (n : nat) (f g : N -> R) :
  (forall k, (k < 2 ^ N.of_nat n)%N -> f k = g k) -> sum_basis n f = sum_basis n g.
Proof.
  revert f g. induction n as [|n IH]; intros f g E.
  - simpl. apply E. simpl. lia.
  - simpl.
    assert (P2 : (2 ^ N.of_nat (S n) = 2 * 2 ^ N.of_nat n)%N).
    { rewrite Nnat.Nat2N.inj_succ, N.pow_succ_r'. reflexivity. }
    f_equal; apply IH; intros k Hk; apply E.
    + lia.
    + rewrite flip_top_add by exact Hk. lia.
Qed.

Lemma seq_add_map (len s d : nat) :
  seq (s + d) len = map (fun j => (j + d)%nat) (seq s len).
Proof.
  revert s. induction len as [|len IH]; intros s; simpl; [reflexivity|].
  f_equal. apply (IH (S s)).
Qed.

(** [sum_basis n] adds the values at 0, 1, ..., 2^n - 1, in this order. *)
Lemma sum_basis_seq (n : nat) (f : N -> R) :
  sum_basis n f = fold_right Rplus 0 (map f (map N.of_nat (seq 0 (2 ^ n)))).
Proof.
  revert f. induction n as [|n IH]; intros f.
  - simpl. ring.
  - cbn [sum_basis].
    replace (2 ^ S n)%nat with (2 ^ n + 2 ^ n)%nat by (simpl; lia).
    rewrite seq_app, !map_app.
    assert (A : forall l1 l2, fold_right Rplus 0 (l1 ++ l2) =
                              fold_right Rplus 0 l1 + fold_right Rplus 0 l2).
    { induction l1 as [|x l1 IHl]; intros l2; simpl; [ring|]. rewrite IHl. ring. }
    rewrite A, <- IH. f_equal.
    rewrite IH. f_equal.
    replace (seq (0 + 2 ^ n) (2 ^ n)) with (map (fun j => (j + 2 ^ n)%nat) (seq 0 (2 ^ n))).
    + rewrite !map_map. apply map_ext_in. intros j Hj. apply in_seq in Hj.
      rewrite flip_top_add.
      * f_equal. rewrite Nnat.Nat2N.inj_add, Nnat.Nat2N.inj_pow. reflexivity.
      * change 2%N with (N.of_nat 2). rewrite <- Nnat.Nat2N.inj_pow. lia.
    + symmetry. apply seq_add_map.
Qed.

Lemma sum_basis_ket (n : nat) (K : N) (a : R) :
  sum_basis n (fun k => if (k =? K)%N then a else 0) =
  if (K <? 2 ^ N.of_nat n)%N then a else 0.
Proof.
  revert K. induction n as [|n IH]; intros K.
  - cbn [sum_basis]. change (2 ^ N.of_nat 0)%N with 1%N.
    destruct (N.eqb_spec 0 K), (N.ltb_spec K 1); try reflexivity; lia.
  - cbn [sum_basis].
    assert (P2 : (2 ^ N.of_nat (S n) = 2 * 2 ^ N.of_nat n)%N).
    { rewrite Nnat.Nat2N.inj_succ, N.pow_succ_r'. reflexivity. }
    rewrite (IH K).
    rewrite (sum_basis_ext n (fun k => if (flip (N.of_nat n) k =? K)%N then a else 0)
               (fun k => if (k =? flip (N.of_nat n) K)%N then a else 0)).
    2:{ intros k. destruct (N.eqb_spec (flip (N.of_nat n) k) K) as [E|E];
        destruct (N.eqb_spec k (flip (N.of_nat n) K)) as [F|F]; try reflexivity.
        - apply flip_eq_iff in E. contradiction.
        - apply flip_eq_iff in F. contradiction. }
    rewrite (IH (flip (N.of_nat n) K)).
    destruct (N.ltb_spec K (2 ^ N.of_nat n)) as [H1|H1].
    + rewrite flip_top_add by exact H1.
      destruct (N.ltb_spec (K + 2 ^ N.of_nat n) (2 ^ N.of_nat n)); [lia|].
      destruct (N.ltb_spec K (2 ^ N.of_nat (S n))); [ring | lia].
    + destruct (N.ltb_spec K (2 ^ N.of_nat (S n))) as [H2|H2].
      * assert (F : (flip (N.of_nat n) K < 2 ^ N.of_nat n)%N).
        { assert (B : N.testbit K (N.of_nat n) = true).
          { destruct (N.testbit K (N.of_nat n)) eqn:B; [reflexivity|].
            exfalso.
            assert (L : (flip (N.of_nat n) K < 2 ^ N.of_nat (S n))%N).
            { apply flip_lt; [rewrite Nnat.Nat2N.inj_succ; lia | exact H2]. }
            assert (G : flip (N.of_nat n) K = (K + 2 ^ N.of_nat n)%N).
            { unfold flip. rewrite N.lxor_comm, N.add_comm. symmetry.
              apply N.add_nocarry_lxor. apply N.bits_inj_0. intros q.
              rewrite N.land_spec, N.pow2_bits_eqb.
              destruct (N.eqb_spec (N.of_nat n) q) as [<- | Hq]; [|reflexivity].
              simpl. exact B. }
            lia. }
          set (K' := flip (N.of_nat n) K).
          assert (B' : N.testbit K' (N.of_nat n) = false)
            by (unfold K'; rewrite flip_same, B; reflexivity).
          assert (E : K = (K' + 2 ^ N.of_nat n)%N).
          { rewrite <- (flip_flip (N.of_nat n) K). fold K'.
            unfold flip. rewrite N.lxor_comm, N.add_comm. symmetry.
            apply N.add_nocarry_lxor. apply N.bits_inj_0. intros q.
            rewrite N.land_spec, N.pow2_bits_eqb.
            destruct (N.eqb_spec (N.of_nat n) q) as [<- | Hq]; [|reflexivity].
            simpl. exact B'. }
          lia. }
        destruct (N.ltb_spec (flip (N.of_nat n) K) (2 ^ N.of_nat n)); [ring | lia].
      * destruct (N.ltb_spec (flip (N.of_nat n) K) (2 ^ N.of_nat n)) as [F|F]; [|ring].
        exfalso.
        assert (L : (flip (N.of_nat n) (flip (N.of_nat n) K) < 2 ^ N.of_nat (S n))%N).
        { apply flip_lt; [rewrite Nnat.Nat2N.inj_succ; lia | lia]. }
        rewrite flip_flip in L. lia.
Qed.

(** ** One gate *)

Lemma unitary2_X : unitary2 X_mat.
Proof.
  unfold unitary2, X_mat, Cnorm2, Cconj, C0, C1; simpl.
  repeat split; try ring. Csolve.
Qed.

Lemma inv_sqrt2_sqr : / sqrt 2 * / sqrt 2 = / 2.
Proof.
  rewrite <- Rinv_mult. f_equal. apply sqrt_sqrt. lra.
Qed.

Lemma unitary2_H : unitary2 H_mat.
Proof.
  unfold unitary2, H_mat, Cnorm2, Cconj, RtoC; simpl.
  pose proof inv_sqrt2_sqr as E.
  repeat split.
  - lra.
  - replace (- / sqrt 2 * - / sqrt 2) with (/ sqrt 2 * / sqrt 2) by ring. lra.
  - apply C_eq; unfold Cplus, Cmult, C0; simpl; ring.
Qed.

Lemma unitary2_P (theta : R) : unitary2 (P_mat theta).
Proof.
  unfold unitary2, P_mat; simpl.
  rewrite Cnorm2_Cexp_i, Cnorm2_C0, Cnorm2_C1.
  repeat split; try ring. Csolve.
Qed.

Lemma unitary2_RY (theta : R) : unitary2 (RY_mat theta).
Proof.
  unfold unitary2, RY_mat, Cnorm2, Cconj, RtoC; simpl.
  pose proof (sin2_cos2 (theta / 2)) as E. unfold Rsqr in E.
  repeat split; try lra.
  apply C_eq; unfold Cplus, Cmult, C0; simpl; ring.
Qed.

Lemma unitary2_pair (U : mat2) (a b : C) :
  unitary2 U ->
  Cnorm2 (m00 U * a + m01 U * b)%C + Cnorm2 (m10 U * a + m11 U * b)%C =
  Cnorm2 a + Cnorm2 b.
Proof.
  destruct U as [[u00r u00i] [u01r u01i] [u10r u10i] [u11r u11i]].
  destruct a as [ar ai], b as [br bi].
  unfold unitary2, Cnorm2, Cconj, Cplus, Cmult, C0; simpl.
  intros (N0 & N1 & O). injection O as Or Oi.
  match goal with |- ?L = ?R =>
    replace L with
      (R + (u00r * u00r + u00i * u00i + (u10r * u10r + u10i * u10i) - 1) * (ar * ar + ai * ai)
         + (u01r * u01r + u01i * u01i + (u11r * u11r + u11i * u11i) - 1) * (br * br + bi * bi)
         + 2 * (u00r * u01r - - u00i * u01i + (u10r * u11r - - u10i * u11i)) * (ar * br + ai * bi)
         + 2 * (u00r * u01i + - u00i * u01r + (u10r * u11i + - u10i * u11r)) * (ai * br - ar * bi))
      by ring
  end.
  rewrite N0, N1, Or, Oi. ring.
Qed.

(** A gate keeps the total squared magnitude of every pair of amplitudes
    that differ in its target bit. *)
Lemma apply_ctrl_pair (cs : list qubit) (t : qubit) (U : mat2) (psi : state) (k : N) :
  unitary2 U -> ~ In t cs ->
  Cnorm2 (apply_ctrl cs t U psi k) + Cnorm2 (apply_ctrl cs t U psi (flip t k)) =
  Cnorm2 (psi k) + Cnorm2 (psi (flip t k)).
Proof.
  intros HU Ht. unfold apply_ctrl.
  rewrite forallb_flip by exact Ht. rewrite flip_same, flip_flip.
  destruct (forallb (N.testbit k) cs); [|reflexivity].
  destruct (N.testbit k t); simpl.
  - rewrite Rplus_comm, (Rplus_comm (Cnorm2 (psi k))). apply unitary2_pair, HU.
  - apply unitary2_pair, HU.
Qed.

Lemma gate_action_unitary (g : gate) cs t U :
  gate_action g = Some (cs, t, U) -> unitary2 U.
Proof.
  destruct g as [q|q|[th|] q|c t'|c1 c2 t'|cs' t'|[th|] c t'|[th|] c t']; simpl;
    intros E; inversion E; subst;
    auto using unitary2_X, unitary2_H, unitary2_P, unitary2_RY.
Qed.

(** Probability of a set of basis states that is closed under flipping the
    target of a well-formed gate is kept by the gate. *)
Lemma apply_gate_prob (n : nat) (g : gate) (sel : N -> bool) (psi : state) :
  wf_gate n g ->
  (forall cs t U k, gate_action g = Some (cs, t, U) -> sel (flip t k) = sel k) ->
  exists psi', apply_gate g psi = Some psi' /\ prob n sel psi' = prob n sel psi.
Proof.
  unfold wf_gate, apply_gate. intros Hwf Hsel.
  destruct (gate_action g) as [[[cs t] U]|] eqn:E; [|contradiction].
  destruct Hwf as (Ht & Hcs & _).
  eexists; split; [reflexivity|].
  unfold prob. apply (sum_basis_pairs n t); [exact Ht|].
  intros k. rewrite (Hsel cs t U k eq_refl).
  destruct (sel k); [|reflexivity].
  apply apply_ctrl_pair; [eapply gate_action_unitary; eassumption | exact Hcs].
Qed.

Lemma prob_all (n : nat) (psi : state) : prob n (fun _ => true) psi = norm2 n psi.
Proof. reflexivity. Qed.

Lemma apply_gate_norm2 (n : nat) (g : gate) (psi : state) :
  wf_gate n g ->
  exists psi', apply_gate g psi = Some psi' /\ norm2 n psi' = norm2 n psi.
Proof.
  intros Hwf. rewrite <- !prob_all.
  destruct (apply_gate_prob n g (fun _ => true) psi Hwf) as (psi' & E & P);
    [reflexivity|].
  exists psi'. split; [exact E|]. rewrite <- !prob_all. exact P.
Qed.

(** Bit-flip-type gates permute the amplitudes. *)
Lemma apply_classical (g : gate) (psi : state) :
  classical g -> apply_gate g psi = Some (fun k => psi (gate_perm g k)).
Proof.
  destruct g as [q|q|th q|c t|c1 c2 t|cs t|th c t|th c t]; simpl;
    intros Hc; try contradiction; unfold apply_gate; simpl; f_equal;
    apply functional_extensionality; intros k; unfold apply_ctrl; simpl.
  - destruct (N.testbit k q); rewrite Cmult_0_l, Cmult_1_l;
      [apply Cplus_0_r | apply Cplus_0_l].
  - rewrite andb_true_r. destruct (N.testbit k c); [|reflexivity].
    destruct (N.testbit k t); rewrite Cmult_0_l, Cmult_1_l;
      [apply Cplus_0_r | apply Cplus_0_l].
  - rewrite andb_true_r. destruct (N.testbit k c1 && N.testbit k c2); [|reflexivity].
    destruct (N.testbit k t); rewrite Cmult_0_l, Cmult_1_l;
      [apply Cplus_0_r | apply Cplus_0_l].
  - destruct (forallb (N.testbit k) cs); [|reflexivity].
    destruct (N.testbit k t); rewrite Cmult_0_l, Cmult_1_l;
      [apply Cplus_0_r | apply Cplus_0_l].
Qed.

Lemma gate_perm_invol (g : gate) (k : N) :
  classical g -> gate_perm g (gate_perm g k) = k.
Proof.
  destruct g as [q|q|th q|c t|c1 c2 t|cs t|th c t|th c t]; simpl;
    intros Hc; try contradiction.
  - apply flip_flip.
  - destruct (N.testbit k c) eqn:B; [|now rewrite B].
    rewrite flip_other by congruence. rewrite B. apply flip_flip.
  - destruct Hc as [H1 H2].
    destruct (N.testbit k c1 && N.testbit k c2) eqn:B; [|now rewrite B].
    rewrite !flip_other by congruence. rewrite B. apply flip_flip.
  - destruct (forallb (N.testbit k) cs) eqn:B; [|now rewrite B].
    rewrite forallb_flip by exact Hc. rewrite B. apply flip_flip.
Qed.

Lemma apply_classical_ket (g : gate) (K : N) :
  classical g -> apply_gate g (ket K) = Some (ket (gate_perm g K)).
Proof.
  intros Hc. rewrite apply_classical by exact Hc. f_equal.
  apply functional_extensionality; intros k. unfold ket.
  destruct (N.eqb_spec (gate_perm g k) K) as [E|E];
    destruct (N.eqb_spec k (gate_perm g K)) as [F|F]; try reflexivity.
  - exfalso. apply F. rewrite <- E. symmetry. now apply gate_perm_invol.
  - exfalso. apply E. rewrite F. now apply gate_perm_invol.
Qed.

(** ** Circuits *)

Lemma run_app (c1 c2 : QuantumCircuit) (psi : state) :
  run (c1 ++ c2) psi =
  match run c1 psi with Some psi' => run c2 psi' | None => None end.
Proof.
  revert psi. induction c1 as [|g c1 IH]; intros psi; simpl; [reflexivity|].
  destruct (apply_gate g psi); [apply IH | reflexivity].
Qed.

Lemma run_classical_ket (qc : QuantumCircuit) (K : N) :
  Forall classical qc -> run qc (ket K) = Some (ket (circuit_perm qc K)).
Proof.
  intros Hc. revert K. induction Hc as [|g qc Hg _ IH]; intros K; simpl; [reflexivity|].
  rewrite apply_classical_ket by exact Hg. apply IH.
Qed.

Lemma circuit_perm_app (c1 c2 : QuantumCircuit) (k : N) :
  circuit_perm (c1 ++ c2) k = circuit_perm c2 (circuit_perm c1 k).
Proof.
  revert k. induction c1 as [|g c1 IH]; intros k; simpl; [reflexivity|]. apply IH.
Qed.

(** Running a bit-flip circuit and then its mirror image gives back the
    index. *)
Lemma circuit_perm_rev (qc : QuantumCircuit) (k : N) :
  Forall classical qc -> circuit_perm (rev qc) (circuit_perm qc k) = k.
Proof.
  intros Hc. revert k. induction Hc as [|g qc Hg _ IH]; intros k; simpl; [reflexivity|].
  rewrite circuit_perm_app, IH. simpl. now apply gate_perm_invol.
Qed.

Lemma apply_ctrl_linear cs t U (a : C) (psi phi : state) :
  apply_ctrl cs t U (sadd (sscale a psi) phi) =
  sadd (sscale a (apply_ctrl cs t U psi)) (apply_ctrl cs t U phi).
Proof.
  apply functional_extensionality; intros k. unfold apply_ctrl, sadd, sscale.
  destruct (forallb (N.testbit k) cs); [|reflexivity].
  destruct (N.testbit k t); Csolve.
Qed.

Lemma run_linear (qc : QuantumCircuit) (a : C) (psi phi psi' phi' : state) :
  run qc psi = Some psi' -> run qc phi = Some phi' ->
  run qc (sadd (sscale a psi) phi) = Some (sadd (sscale a psi') phi').
Proof.
  revert psi phi. induction qc as [|g qc IH]; intros psi phi; simpl.
  - intros E F. inversion E; inversion F; subst. reflexivity.
  - unfold apply_gate. destruct (gate_action g) as [[[cs t] U]|]; [|discriminate].
    rewrite apply_ctrl_linear. apply IH.
Qed.

(** ** The builders succeed and emit the expected gates *)

Lemma bind_ok {A B} (m : prog A) (f : A -> prog B) qc a qc' :
  m qc = (Ok a, qc') -> bind m f qc = f a qc'.
Proof. unfold bind. now intros ->. Qed.

Lemma bind_raise {A B} (m : prog A) (f : A -> prog B) qc e qc' :
  m qc = (Raise e, qc') -> bind m f qc = (Raise e, qc').
Proof. unfold bind. now intros ->. Qed.

Lemma getitem_ok {A} (xs : list A) (idx : nat) (x : A) qc :
  nth_error xs idx = Some x -> getitem xs idx qc = (Ok x, qc).
Proof. unfold getitem. now intros ->. Qed.

Lemma getitem_raise {A} (xs : list A) (idx : nat) qc :
  nth_error xs idx = None -> getitem xs idx qc = (Raise IndexError, qc).
Proof. unfold getitem. now intros ->. Qed.

(** A loop whose body appends [G x] appends the lists in order. *)
Lemma for_each_emit {A} (xs : list A) (body : A -> prog unit)
    (G : A -> QuantumCircuit) qc :
  (forall x qc0, In x xs -> body x qc0 = (Ok tt, qc0 ++ G x)) ->
  for_each xs body qc = (Ok tt, qc ++ flat_map G xs).
Proof.
  revert qc. induction xs as [|x xs IH]; intros qc Hb; simpl.
  - now rewrite app_nil_r.
  - rewrite (bind_ok _ _ qc tt (qc ++ G x)) by (apply Hb; now left).
    rewrite IH by (intros; apply Hb; now right).
    now rewrite <- app_assoc.
Qed.

Lemma combine_nth_seq {A B} (p : list A) (m : list B) (j : nat) :
  (length p <= length m)%nat -> (j < length p)%nat ->
  exists a t, nth_error p j = Some a /\ nth_error m j = Some t /\
              nth_error (combine p m) j = Some (a, t).
Proof.
  revert m j. induction p as [|a p IH]; intros [|t m] j Hl Hj; simpl in *; try lia.
  destruct j as [|j]; simpl.
  - now exists a, t.
  - apply IH; lia.
Qed.

Lemma map_nth_seq_id {A} (l : list A) (d : A) :
  map (fun j => nth j l d) (seq 0 (length l)) = l.
Proof.
  induction l as [|x l IH]; simpl; [reflexivity|].
  f_equal. rewrite <- seq_shift, map_map. exact IH.
Qed.

Lemma flat_map_seq_combine {A B T} (p : list A) (m : list B) (d : A * B)
    (G : A * B -> list T) :
  (length p <= length m)%nat ->
  flat_map (fun j => G (nth j (combine p m) d)) (seq 0 (length p)) =
  flat_map G (combine p m).
Proof.
  intros Hl.
  assert (L : length (combine p m) = length p) by (rewrite length_combine; lia).
  rewrite <- L. generalize (combine p m) as l. clear.
  intros l. rewrite !flat_map_concat_map. f_equal.
  rewrite <- (map_map (fun j => nth j l d) G). now rewrite map_nth_seq_id.
Qed.

Lemma flat_map_rev_seq_combine {A B T} (p : list A) (m : list B) (d : A * B)
    (G : A * B -> list T) :
  (length p <= length m)%nat ->
  flat_map (fun j => G (nth j (combine p m) d)) (rev (seq 0 (length p))) =
  flat_map G (rev (combine p m)).
Proof.
  intros Hl.
  assert (L : length (combine p m) = length p) by (rewrite length_combine; lia).
  rewrite <- L. generalize (combine p m) as l. clear.
  intros l. rewrite !flat_map_concat_map. f_equal.
  rewrite <- (map_map (fun j => nth j l d) G), map_rev.
  now rewrite map_nth_seq_id.
Qed.

Section PairLoops.
Variables (p m : list qubit) (u : list qubit) (u0 u1 : qubit).
Hypothesis Hlen : (length p <= length m)%nat.
Hypothesis Hu0 : nth_error u 0 = Some u0.
Hypothesis Hu1 : nth_error u 1 = Some u1.

Let pair (j : nat) : qubit * qubit := nth j (combine p m) (0%N, 0%N).

Lemma pair_items (j : nat) :
  (j < length p)%nat ->
  nth_error p j = Some (fst (pair j)) /\ nth_error m j = Some (snd (pair j)).
Proof.
  intros Hj. destruct (combine_nth_seq p m j Hlen Hj) as (a & t & Ha & Ht & Hc).
  unfold pair. rewrite (nth_error_nth _ _ _ Hc). simpl. now split.
Qed.

Lemma ccx_body (j : nat) qc :
  (j < length p)%nat ->
  (a <- getitem p j ;; b <- getitem u 1 ;; t <- getitem m j ;; qc_ccx a b t) qc =
  (Ok tt, qc ++ [CCXGate (fst (pair j)) u1 (snd (pair j))]).
Proof.
  intros Hj. destruct (pair_items j Hj) as [Ha Ht].
  rewrite (bind_ok _ _ _ _ _ (getitem_ok _ _ _ _ Ha)).
  rewrite (bind_ok _ _ _ _ _ (getitem_ok _ _ _ _ Hu1)).
  rewrite (bind_ok _ _ _ _ _ (getitem_ok _ _ _ _ Ht)).
  reflexivity.
Qed.

Lemma cmp_body (j : nat) qc :
  (j < length p)%nat ->
  ((a <- getitem p j ;; t <- getitem m j ;; qc_cx a t) ;;
   (t <- getitem m j ;; qc_x t)) qc =
  (Ok tt, qc ++ [CXGate (fst (pair j)) (snd (pair j)); XGate (snd (pair j))]).
Proof.
  intros Hj. destruct (pair_items j Hj) as [Ha Ht].
  unfold bind at 1.
  rewrite (bind_ok _ _ _ _ _ (getitem_ok _ _ _ _ Ha)).
  rewrite (bind_ok _ _ _ _ _ (getitem_ok _ _ _ _ Ht)).
  unfold qc_cx, append.
  rewrite (bind_ok _ _ _ _ _ (getitem_ok _ _ _ _ Ht)).
  unfold qc_x, append. now rewrite <- app_assoc.
Qed.

Lemma uncmp_body (j : nat) qc :
  (j < length p)%nat ->
  ((t <- getitem m j ;; qc_x t) ;;
   (a <- getitem p j ;; t <- getitem m j ;; qc_cx a t)) qc =
  (Ok tt, qc ++ [XGate (snd (pair j)); CXGate (fst (pair j)) (snd (pair j))]).
Proof.
  intros Hj. destruct (pair_items j Hj) as [Ha Ht].
  unfold bind at 1.
  rewrite (bind_ok _ _ _ _ _ (getitem_ok _ _ _ _ Ht)).
  unfold qc_x, append.
  rewrite (bind_ok _ _ _ _ _ (getitem_ok _ _ _ _ Ha)).
  rewrite (bind_ok _ _ _ _ _ (getitem_ok _ _ _ _ Ht)).
  unfold qc_cx, append. now rewrite <- app_assoc.
Qed.

Lemma ccx_loop qc :
  for_each (range (length p)) (fun j =>
    a <- getitem p j ;; b <- getitem u 1 ;; t <- getitem m j ;; qc_ccx a b t) qc =
  (Ok tt, qc ++ ccx_gates u1 (combine p m)).
Proof.
  rewrite (for_each_emit _ _ (fun j => [CCXGate (fst (pair j)) u1 (snd (pair j))])).
  - unfold ccx_gates, pair, range.
    now rewrite (flat_map_seq_combine p m (0%N, 0%N)
                   (fun at_ => [CCXGate (fst at_) u1 (snd at_)]) Hlen).
  - intros j qc0 Hj. apply in_seq in Hj. apply ccx_body. lia.
Qed.

Lemma ccx_loop_rev qc :
  for_each (rev (range (length p))) (fun j =>
    a <- getitem p j ;; b <- getitem u 1 ;; t <- getitem m j ;; qc_ccx a b t) qc =
  (Ok tt, qc ++ ccx_gates u1 (rev (combine p m))).
Proof.
  rewrite (for_each_emit _ _ (fun j => [CCXGate (fst (pair j)) u1 (snd (pair j))])).
  - unfold ccx_gates, pair, range.
    now rewrite (flat_map_rev_seq_combine p m (0%N, 0%N)
                   (fun at_ => [CCXGate (fst at_) u1 (snd at_)]) Hlen).
  - intros j qc0 Hj. apply in_rev, in_seq in Hj. apply ccx_body. lia.
Qed.

Lemma cmp_loop qc :
  for_each (range (length p)) (fun j =>
    (a <- getitem p j ;; t <- getitem m j ;; qc_cx a t) ;;
    (t <- getitem m j ;; qc_x t)) qc =
  (Ok tt, qc ++ cmp_gates (combine p m)).
Proof.
  rewrite (for_each_emit _ _
             (fun j => [CXGate (fst (pair j)) (snd (pair j)); XGate (snd (pair j))])).
  - unfold cmp_gates, pair, range.
    now rewrite (flat_map_seq_combine p m (0%N, 0%N)
                   (fun at_ => [CXGate (fst at_) (snd at_); XGate (snd at_)]) Hlen).
  - intros j qc0 Hj. apply in_seq in Hj. apply cmp_body. lia.
Qed.

Lemma uncmp_loop qc :
  for_each (rev (range (length p))) (fun j =>
    (t <- getitem m j ;; qc_x t) ;;
    (a <- getitem p j ;; t <- getitem m j ;; qc_cx a t)) qc =
  (Ok tt, qc ++ uncmp_gates (rev (combine p m))).
Proof.
  rewrite (for_each_emit _ _
             (fun j => [XGate (snd (pair j)); CXGate (fst (pair j)) (snd (pair j))])).
  - unfold uncmp_gates, pair, range.
    now rewrite (flat_map_rev_seq_combine p m (0%N, 0%N)
                   (fun at_ => [XGate (snd at_); CXGate (fst at_) (snd at_)]) Hlen).
  - intros j qc0 Hj. apply in_rev, in_seq in Hj. apply uncmp_body. lia.
Qed.
End PairLoops.


(** ** The pattern codec *)

Lemma apply_pauli_unfold (value : Z) (qubits : list qubit) :
  apply_pauli_from_int value qubits =
  for_each (enumerate (rev (format_0b value (length qubits)))) (pauli_body qubits).
Proof.
  unfold apply_pauli_from_int. f_equal.
  apply functional_extensionality. intros [idx bit]. reflexivity.
Qed.

Lemma x_gates_nil_l (bs : list bool) : x_gates [] bs = [].
Proof. reflexivity. Qed.

Lemma x_gates_cons (q : qubit) (r : list qubit) (b : bool) (bs : list bool) :
  x_gates (q :: r) (b :: bs) = (if b then [XGate q] else []) ++ x_gates r bs.
Proof. reflexivity. Qed.

Lemma skipn_nth_error {A} (l : list A) (s : nat) (x : A) :
  nth_error l s = Some x -> skipn s l = x :: skipn (S s) l.
Proof.
  revert l. induction s as [|s IH]; intros [|y l] E; simpl in E; try discriminate.
  - now inversion E.
  - apply (IH l E).
Qed.

(** The loop over the characters [chars], the first of which has index [s]:
    it succeeds when every '1' has a qubit. *)
Lemma pauli_loop_ok (qubits : list qubit) (chars : list ascii) (s : nat) qc :
  (forall j, nth j (map is_one chars) false = true -> (s + j < length qubits)%nat) ->
  for_each (combine (seq s (length chars)) chars) (pauli_body qubits) qc =
  (Ok tt, qc ++ x_gates (skipn s qubits) (map is_one chars)).
Proof.
  revert s qc. induction chars as [|c chars IH]; intros s qc Hone.
  - simpl. destruct (skipn s qubits); simpl; now rewrite app_nil_r.
  - cbn [length seq combine for_each map].
    assert (Hone' : forall j, nth j (map is_one chars) false = true ->
                              (S s + j < length qubits)%nat).
    { intros j Hj. specialize (Hone (S j) Hj). lia. }
    unfold pauli_body at 1. cbn [fst snd]. fold (is_one c).
    destruct (is_one c) eqn:Ec.
    + assert (Hs : (s < length qubits)%nat).
      { specialize (Hone 0%nat). simpl in Hone. rewrite Ec in Hone.
        specialize (Hone eq_refl). lia. }
      destruct (nth_error qubits s) as [q|] eqn:Eq;
        [|apply nth_error_None in Eq; lia].
      rewrite (bind_ok _ _ qc tt (qc ++ [XGate q])).
      2:{ rewrite (bind_ok _ _ _ _ _ (getitem_ok _ _ _ _ Eq)). reflexivity. }
      rewrite (IH (S s) _ Hone').
      rewrite (skipn_nth_error _ _ _ Eq). rewrite x_gates_cons.
      now rewrite <- app_assoc.
    + rewrite (bind_ok _ _ qc tt qc) by reflexivity.
      rewrite (IH (S s) _ Hone').
      destruct (nth_error qubits s) as [q|] eqn:Eq.
      * rewrite (skipn_nth_error _ _ _ Eq). reflexivity.
      * apply nth_error_None in Eq.
        rewrite !skipn_all2 by lia. reflexivity.
Qed.

Lemma pos_digits_nth (p : positive) (j : nat) :
  nth j (map is_one (pos_digits_lsb p)) false = N.testbit (N.pos p) (N.of_nat j).
Proof.
  revert j. induction p as [p IH|p IH|]; intros [|j]; cbn [pos_digits_lsb map nth];
    try reflexivity.
  - rewrite IH, Nnat.Nat2N.inj_succ.
    now rewrite N.testbit_succ_r_div2 by lia.
  - rewrite IH, Nnat.Nat2N.inj_succ.
    now rewrite N.testbit_succ_r_div2 by lia.
  - rewrite Nnat.Nat2N.inj_succ.
    rewrite N.testbit_succ_r_div2 by lia. simpl.
    destruct j; reflexivity.
Qed.

Lemma nth_app_false (A B : list bool) (j : nat) :
  (forall b, In b B -> b = false) -> nth j (A ++ B) false = nth j A false.
Proof.
  intros HB. destruct (Nat.lt_ge_cases j (length A)) as [L|L].
  - now apply app_nth1.
  - rewrite app_nth2 by lia. rewrite (nth_overflow A) by lia.
    destruct (nth_in_or_default (j - length A) B false) as [I|E]; [now apply HB | exact E].
Qed.

(** Character [j] of the reversed [format_0b] string is '1' exactly when
    bit [j] of the magnitude is set. *)
Lemma format_0b_bits (value : Z) (width : nat) (j : nat) :
  nth j (map is_one (rev (format_0b value width))) false =
  N.testbit (Z.abs_N value) (N.of_nat j).
Proof.
  unfold format_0b. rewrite !rev_app_distr, !map_app, <- app_assoc.
  assert (T : forall b, In b (map is_one (rev (repeat "0"%char (width -
                 length (if (value <? 0)%Z then ["-"%char] else []) -
                 length match value with
                        | 0%Z => ["0"%char]
                        | Z.pos p | Z.neg p => rev (pos_digits_lsb p)
                        end))) ++
               map is_one (rev (if (value <? 0)%Z then ["-"%char] else []))) -> b = false).
  { intros b Hb. apply in_app_or in Hb. destruct Hb as [Hb|Hb].
    - apply in_map_iff in Hb. destruct Hb as (c & <- & Hc).
      apply in_rev, repeat_spec in Hc. now subst.
    - destruct (value <? 0)%Z; simpl in Hb; [|contradiction].
      destruct Hb as [<-|[]]. reflexivity. }
  rewrite nth_app_false by exact T.
  destruct value as [|p|p]; simpl.
  - destruct j as [|[|j]]; reflexivity.
  - rewrite rev_involutive. apply pos_digits_nth.
  - rewrite rev_involutive. apply pos_digits_nth.
Qed.

Lemma x_gates_canon (r : list qubit) (bs : list bool) :
  x_gates r bs = x_gates r (map (fun j => nth j bs false) (seq 0 (length r))).
Proof.
  revert bs. induction r as [|q r IH]; intros bs; [reflexivity|].
  cbn [length seq map]. rewrite <- seq_shift, map_map.
  destruct bs as [|b bs].
  - rewrite x_gates_cons. cbn [nth app].
    rewrite (map_ext (fun j => nth (S j) (@nil bool) false) (fun j => nth j [] false))
      by (intros [|?]; reflexivity).
    rewrite <- (IH []). destruct r; reflexivity.
  - rewrite !x_gates_cons. cbn [nth]. f_equal. apply IH.
Qed.

Lemma testbit_lt_pow2 (v : N) (w j : nat) :
  (v < 2 ^ N.of_nat w)%N -> N.testbit v (N.of_nat j) = true -> (j < w)%nat.
Proof.
  intros Hv Hb. destruct (Nat.lt_ge_cases j w) as [L|L]; [exact L|].
  exfalso. destruct (N.eq_dec v 0) as [-> | Hv0]; [now rewrite N.bits_0 in Hb|].
  rewrite N.bits_above_log2 in Hb; [discriminate|].
  apply N.log2_lt_pow2 in Hv; lia.
Qed.

(** A value whose magnitude fits the register is encoded: one bit flip per
    set bit, least significant bit on the first qubit. *)
Lemma apply_pauli_ok (value : Z) (qubits : list qubit) qc :
  (Z.abs_N value < 2 ^ N.of_nat (length qubits))%N ->
  apply_pauli_from_int value qubits qc =
  (Ok tt, qc ++ x_gates qubits (lsb_bits (Z.abs_N value) (length qubits))).
Proof.
  intros Hv. rewrite apply_pauli_unfold. unfold enumerate.
  rewrite pauli_loop_ok.
  - simpl skipn. f_equal. f_equal. rewrite x_gates_canon. f_equal.
    unfold lsb_bits. apply map_ext. intros j. apply format_0b_bits.
  - intros j Hj. rewrite format_0b_bits in Hj. simpl.
    eapply testbit_lt_pow2; eassumption.
Qed.

(** ** The angle schedule *)

Lemma schedule_ratio (j : Z) : (1 <= j)%Z -> 0 <= IZR (j - 1) / IZR j < 1.
Proof.
  intros Hj.
  assert (Hp : 0 < IZR j) by (apply IZR_lt; lia).
  assert (Hm : 0 <= IZR (j - 1)) by (apply IZR_le; lia).
  assert (Hl : IZR (j - 1) < IZR j) by (apply IZR_lt; lia).
  split.
  - apply Rmult_le_pos; [exact Hm | left; now apply Rinv_0_lt_compat].
  - apply (Rmult_lt_reg_r (IZR j)); [exact Hp|].
    unfold Rdiv. rewrite Rmult_assoc, Rinv_l by lra. lra.
Qed.

Lemma binary64_round_below (x : R) : x < 1 -> binary64_round x = x.
Proof.
  intros Hx. unfold binary64_round. destruct (Rle_dec 1 x) as [L|_]; [lra|reflexivity].
Qed.

Lemma find_angle_ok (j : Z) : (1 <= j)%Z -> find_angle j = Ok (Num (theta_j j)).
Proof.
  intros Hj. unfold find_angle, int_truediv, theta_j.
  destruct (Z.eqb_spec j 0) as [E|_]; [lia|].
  destruct (schedule_ratio j Hj) as [H0 H1].
  rewrite (binary64_round_below _ H1).
  unfold np_sqrt. destruct (Rlt_dec (IZR (j - 1) / IZR j) 0) as [L|_]; [lra|].
  assert (S0 : 0 <= sqrt (IZR (j - 1) / IZR j)) by apply sqrt_pos.
  assert (S1 : sqrt (IZR (j - 1) / IZR j) < 1).
  { rewrite <- sqrt_1. apply sqrt_lt_1_alt. lra. }
  rewrite (binary64_round_below _ S1).
  unfold np_arccos.
  destruct (Rlt_dec (sqrt (IZR (j - 1) / IZR j)) (-1)) as [L|_]; [lra|].
  destruct (Rlt_dec 1 (sqrt (IZR (j - 1) / IZR j))) as [L|_]; [lra|].
  reflexivity.
Qed.

Lemma find_angle_zero : find_angle 0 = Raise ZeroDivisionError.
Proof. reflexivity. Qed.

(** *** Rounding near 1 *)

Lemma Int_part_bounds (y : R) : IZR (Int_part y) <= y < IZR (Int_part y) + 1.
Proof. destruct (base_Int_part y) as [L U]. lra. Qed.

Lemma round_half_even_lower (y : R) (k : Z) :
  IZR k + / 2 < y -> (k + 1 <= round_half_even y)%Z.
Proof.
  intros Hy. unfold round_half_even. destruct (Int_part_bounds y) as [L U].
  set (f := Int_part y) in *.
  assert (Hkf : (k <= f)%Z).
  { apply Z.lt_succ_r. apply lt_IZR. rewrite succ_IZR. lra. }
  destruct (Z.eq_dec f k) as [E | NE].
  - rewrite E in *.
    destruct (Rlt_dec (y - IZR k) (/ 2)) as [A|_]; [lra|].
    destruct (Rlt_dec (/ 2) (y - IZR k)) as [_|A]; [lia|lra].
  - destruct (Rlt_dec (y - IZR f) (/ 2)); [lia|].
    destruct (Rlt_dec (/ 2) (y - IZR f)); [lia|].
    destruct (Z.even f); lia.
Qed.

Lemma round_half_even_upper (y : R) (k : Z) :
  y < IZR k + / 2 -> (round_half_even y <= k)%Z.
Proof.
  intros Hy. unfold round_half_even. destruct (Int_part_bounds y) as [L U].
  set (f := Int_part y) in *.
  assert (Hfk : (f <= k)%Z).
  { apply Z.lt_succ_r. apply lt_IZR. rewrite succ_IZR. lra. }
  destruct (Z.eq_dec f k) as [E | NE].
  - rewrite E in *.
    destruct (Rlt_dec (y - IZR k) (/ 2)) as [_|A]; [lia|lra].
  - destruct (Rlt_dec (y - IZR f) (/ 2)); [lia|].
    destruct (Rlt_dec (/ 2) (y - IZR f)); [lia|].
    destruct (Z.even f); lia.
Qed.

Lemma round_half_even_ge (y : R) (k : Z) : IZR k <= y -> (k <= round_half_even y)%Z.
Proof.
  intros Hy. pose proof (round_half_even_lower y (k - 1)) as H.
  rewrite minus_IZR in H. assert (IZR k - 1 + / 2 < y) by lra. specialize (H H0). lia.
Qed.

(** A value of the binade that is at least half a step above 1 is rounded
    above 1. *)
Lemma binary64_round_above_1 (x : R) :
  1 + / 9007199254740992 < x -> 1 < binary64_round x.
Proof.
  intros Hx. unfold binary64_round.
  destruct (Rle_dec 1 x) as [_|A]; [|lra].
  destruct (Rlt_dec x 2) as [_|_]; [|lra].
  pose proof (round_half_even_lower ((x - 1) * 4503599627370496) 0) as H.
  assert (H1 : (0 + 1 <= round_half_even ((x - 1) * 4503599627370496))%Z).
  { apply H. simpl IZR. lra. }
  apply IZR_le in H1. simpl IZR in H1. lra.
Qed.

(** A value less than half a step above 1 is rounded to 1. *)
Lemma binary64_round_to_1 (x : R) :
  1 <= x < 1 + / 9007199254740992 -> binary64_round x = 1.
Proof.
  intros [L U]. unfold binary64_round.
  destruct (Rle_dec 1 x) as [_|A]; [|lra].
  destruct (Rlt_dec x 2) as [_|A]; [|lra].
  assert (E : round_half_even ((x - 1) * 4503599627370496) = 0%Z).
  { apply Z.le_antisymm.
    - apply round_half_even_upper. simpl IZR. lra.
    - apply round_half_even_ge. simpl IZR. lra. }
  rewrite E. simpl IZR. lra.
Qed.

Lemma sqrt_gt (a x : R) : 0 <= a -> a * a < x -> a < sqrt x.
Proof.
  intros Ha Hx. rewrite <- (sqrt_square a Ha). apply sqrt_lt_1_alt. nra.
Qed.

Lemma sqrt_lt_bound (a x : R) : 0 <= a -> 0 <= x < a * a -> sqrt x < a.
Proof.
  intros Ha Hx. rewrite <- (sqrt_square a Ha). now apply sqrt_lt_1_alt.
Qed.

(** For a negative index the exact quotient is [1 + 1/|j|]. *)
Lemma negative_ratio (j : Z) :
  (j < 0)%Z ->
  exists d : R, IZR (j - 1) / IZR j = 1 + d /\ 0 < d <= 1 /\ d * - IZR j = 1.
Proof.
  intros Hj.
  assert (Hp : IZR j <= -1) by (apply IZR_le; lia).
  exists (- / IZR j).
  assert (Hi : / IZR j < 0) by (apply Rinv_lt_0_compat; lra).
  assert (Hd : - / IZR j * - IZR j = 1) by (field; lra).
  split; [|split; [split|]].
  - rewrite minus_IZR. field. lra.
  - lra.
  - nra.
  - exact Hd.
Qed.

(** Down to [-3002399751580330] the rounded quotient is at least two steps
    above 1, its rounded square root is above 1, and the result is NaN. *)
Lemma find_angle_negative_nan (j : Z) :
  (-3002399751580330 <= j < 0)%Z -> find_angle j = Ok NaN.
Proof.
  intros [Hlo Hj]. unfold find_angle, int_truediv.
  destruct (Z.eqb_spec j 0) as [E|_]; [lia|].
  destruct (negative_ratio j Hj) as (d & Eq & [Hd0 Hd1] & Hdj).
  assert (Hn : - IZR j <= 3002399751580330).
  { apply IZR_le in Hlo. lra. }
  assert (Hn1 : 1 <= - IZR j) by (assert (IZR j <= -1) by (apply IZR_le; lia); lra).
  assert (Hdb : 3 < d * 9007199254740992) by nra.
  rewrite Eq.
  assert (Q : 1 + 2 / 4503599627370496 <= binary64_round (1 + d)).
  { unfold binary64_round.
    destruct (Rle_dec 1 (1 + d)) as [_|A]; [|lra].
    destruct (Rlt_dec (1 + d) 2) as [_|A]; [|lra].
    pose proof (round_half_even_lower ((1 + d - 1) * 4503599627370496) 1) as H.
    assert (H1 : (1 + 1 <= round_half_even ((1 + d - 1) * 4503599627370496))%Z).
    { apply H. simpl IZR. lra. }
    apply IZR_le in H1. simpl IZR in H1. lra. }
  set (q := binary64_round (1 + d)) in *.
  unfold np_sqrt. destruct (Rlt_dec q 0) as [A|_]; [lra|].
  assert (S1 : 1 + / 9007199254740992 < sqrt q).
  { apply sqrt_gt; lra. }
  pose proof (binary64_round_above_1 _ S1) as S2.
  unfold np_arccos.
  destruct (Rlt_dec (binary64_round (sqrt q)) (-1)) as [A|_]; [reflexivity|].
  destruct (Rlt_dec 1 (binary64_round (sqrt q))) as [_|A]; [reflexivity|lra].
Qed.

(** Below [-3002399751580330] the rounded quotient is at most one step
    above 1, its square root rounds to 1, and the result is the number
    [-2 * arccos 1 = -0.0]. *)
Lemma find_angle_negative_number (j : Z) :
  (j < -3002399751580330)%Z -> find_angle j = Ok (Num 0).
Proof.
  intros Hlo. assert (Hj : (j < 0)%Z) by lia.
  unfold find_angle, int_truediv.
  destruct (Z.eqb_spec j 0) as [E|_]; [lia|].
  destruct (negative_ratio j Hj) as (d & Eq & [Hd0 Hd1] & Hdj).
  assert (Hn : 3002399751580331 <= - IZR j).
  { assert (H : (j <= -3002399751580331)%Z) by lia. apply IZR_le in H. lra. }
  assert (Hdb : d * 9007199254740992 < 3) by nra.
  rewrite Eq.
  assert (Q : 1 <= binary64_round (1 + d) <= 1 + 1 / 4503599627370496).
  { unfold binary64_round.
    destruct (Rle_dec 1 (1 + d)) as [_|A]; [|lra].
    destruct (Rlt_dec (1 + d) 2) as [_|A]; [|lra].
    pose proof (round_half_even_upper ((1 + d - 1) * 4503599627370496) 1) as HU.
    pose proof (round_half_even_ge ((1 + d - 1) * 4503599627370496) 0) as HL.
    assert (H1 : (round_half_even ((1 + d - 1) * 4503599627370496) <= 1)%Z).
    { apply HU. simpl IZR. lra. }
    assert (H0 : (0 <= round_half_even ((1 + d - 1) * 4503599627370496))%Z).
    { apply HL. simpl IZR. nra. }
    apply IZR_le in H1, H0. simpl IZR in H1, H0. lra. }
  set (q := binary64_round (1 + d)) in *.
  unfold np_sqrt. destruct (Rlt_dec q 0) as [A|_]; [lra|].
  assert (S0 : 1 <= sqrt q).
  { rewrite <- sqrt_1 at 1. apply sqrt_le_1_alt. lra. }
  assert (S1 : sqrt q < 1 + / 9007199254740992).
  { apply sqrt_lt_bound; lra. }
  rewrite (binary64_round_to_1 (sqrt q)) by lra.
  unfold np_arccos.
  destruct (Rlt_dec 1 (-1)) as [A|_]; [lra|].
  destruct (Rlt_dec 1 1) as [A|_]; [lra|].
  unfold float_mul. rewrite acos_1. do 2 f_equal. ring.
Qed.

(** A negative index raises nothing. *)
Lemma find_angle_negative (j : Z) : (j < 0)%Z -> exists x, find_angle j = Ok x.
Proof.
  intros Hj. destruct (Z_lt_le_dec j (-3002399751580330)) as [L|L].
  - exists (Num 0). now apply find_angle_negative_number.
  - exists NaN. apply find_angle_negative_nan. lia.
Qed.

Lemma theta_j_1 : theta_j 1 = - PI.
Proof.
  unfold theta_j. simpl (1 - 1)%Z.
  replace (0 / 1) with 0 by field. rewrite sqrt_0, acos_0. field.
Qed.

(** The rotation coefficients of the schedule. *)
Lemma theta_j_cos (j : Z) :
  (1 <= j)%Z -> cos (theta_j j / 2) = sqrt (IZR (j - 1) / IZR j).
Proof.
  intros Hj. destruct (schedule_ratio j Hj) as [H0 H1]. unfold theta_j.
  replace (-2 * acos (sqrt (IZR (j - 1) / IZR j)) / 2)
    with (- acos (sqrt (IZR (j - 1) / IZR j))) by field.
  rewrite cos_neg. apply cos_acos.
  split; [pose proof (sqrt_pos (IZR (j - 1) / IZR j)); lra|].
  rewrite <- sqrt_1. apply sqrt_le_1_alt. lra.
Qed.

Lemma theta_j_sin (j : Z) :
  (1 <= j)%Z -> - sin (theta_j j / 2) = sqrt (/ IZR j).
Proof.
  intros Hj. destruct (schedule_ratio j Hj) as [H0 H1]. unfold theta_j.
  assert (Hp : 0 < IZR j) by (apply IZR_lt; lia).
  replace (-2 * acos (sqrt (IZR (j - 1) / IZR j)) / 2)
    with (- acos (sqrt (IZR (j - 1) / IZR j))) by field.
  rewrite sin_neg, Ropp_involutive.
  rewrite sin_acos.
  - f_equal. unfold Rsqr. rewrite sqrt_sqrt by lra.
    rewrite minus_IZR. field. lra.
  - split; [pose proof (sqrt_pos (IZR (j - 1) / IZR j)); lra|].
    rewrite <- sqrt_1. apply sqrt_le_1_alt. lra.
Qed.

(** ** Storage and retrieval emit their gate lists *)

Lemma u_gate_ok (q : qubit) (n : Z) qc :
  n <> 0%Z ->
  u_gate q n qc = (Ok tt, qc ++ [XGate q; PhaseGate (Num (PI / (2 * IZR n))) q; XGate q]).
Proof.
  intros Hn. unfold u_gate, qc_x, qc_p, append, bind, lift, float_truediv, np_pi, float_mul.
  destruct (Req_dec_T (2 * IZR n) 0) as [E|_].
  - exfalso. assert (IZR n = 0) as E' by lra. apply eq_IZR in E'. contradiction.
  - now rewrite <- !app_assoc.
Qed.

Lemma cu_squared_ok (c q : qubit) (n : Z) qc :
  n <> 0%Z ->
  cu_squared c q n qc =
  (Ok tt, qc ++ [CXGate c q; CPhaseGate (Num (- PI / IZR n)) c q; CXGate c q]).
Proof.
  intros Hn.
  unfold cu_squared, qc_cx, qc_append_cphase, append, bind, lift, float_truediv,
    np_pi, float_neg.
  destruct (Req_dec_T (IZR n) 0) as [E|_].
  - exfalso. apply eq_IZR in E. contradiction.
  - now rewrite <- !app_assoc.
Qed.

Lemma apply_u_and_cu_ok (m : list qubit) (c : qubit) qc :
  apply_u_and_cu m c qc =
  (Ok tt, qc ++ u_gates (Z.of_nat (length m)) m ++ cu_gates (Z.of_nat (length m)) c m).
Proof.
  unfold apply_u_and_cu.
  assert (Hn : forall q, In q m -> Z.of_nat (length m) <> 0%Z).
  { intros q Hq. destruct m; [contradiction | simpl; lia]. }
  rewrite (bind_ok _ _ qc tt (qc ++ u_gates (Z.of_nat (length m)) m)).
  - rewrite (for_each_emit m _ (fun q =>
      [CXGate c q; CPhaseGate (Num (- PI / IZR (Z.of_nat (length m)))) c q; CXGate c q])).
    + now rewrite <- app_assoc.
    + intros q qc0 Hq. apply cu_squared_ok. now apply (Hn q).
  - apply (for_each_emit m _ (fun q =>
      [XGate q; PhaseGate (Num (PI / (2 * IZR (Z.of_nat (length m))))) q; XGate q])).
    intros q qc0 Hq. apply u_gate_ok. now apply (Hn q).
Qed.

Lemma retrieval_algorithm_ok (i m : list qubit) (c : qubit) qc :
  (length i <= length m)%nat ->
  retrieval_algorithm i m c qc = (Ok tt, qc ++ retrieval_gates i m c).
Proof.
  intros Hlen. unfold retrieval_algorithm, retrieval_gates.
  rewrite (bind_ok _ _ qc tt (qc ++ [HGate c])) by reflexivity.
  rewrite (bind_ok _ _ _ _ _ (cmp_loop i m Hlen _)).
  rewrite (bind_ok _ _ _ _ _ (apply_u_and_cu_ok m c _)).
  rewrite (bind_ok _ _ _ _ _ (uncmp_loop i m Hlen _)).
  unfold qc_h, append. now rewrite <- !app_assoc.
Qed.

Lemma controlled_si_ok (p u : list qubit) (u0 u1 : qubit) (i len_ps : Z) qc :
  nth_error u 0 = Some u0 -> nth_error u 1 = Some u1 ->
  (1 <= len_ps + 1 - i)%Z ->
  controlled_si p u i len_ps qc =
  (Ok tt, qc ++ [CRYGate (Num (theta_j (len_ps + 1 - i))) u0 u1]).
Proof.
  intros H0 H1 Hj. unfold controlled_si.
  rewrite (bind_ok _ _ qc (Num (theta_j (len_ps + 1 - i))) qc)
    by (unfold lift; now rewrite find_angle_ok).
  rewrite (bind_ok _ _ _ _ _ (getitem_ok _ _ _ _ H0)).
  rewrite (bind_ok _ _ _ _ _ (getitem_ok _ _ _ _ H1)).
  reflexivity.
Qed.

Lemma storage_step_ok (len_ps : nat) (p u m : list qubit) (u0 u1 : qubit)
    (idx : nat) (val : Z) qc :
  (length p <= length m)%nat ->
  nth_error u 0 = Some u0 -> nth_error u 1 = Some u1 ->
  (idx < len_ps)%nat ->
  (Z.abs_N val < 2 ^ N.of_nat (length p))%N ->
  storage_step len_ps p u m idx val qc =
  (Ok tt, qc ++ storage_step_gates (theta_j (Z.of_nat len_ps - Z.of_nat idx))
                  p u0 u1 m (Z.abs_N val)).
Proof.
  intros Hlen H0 H1 Hidx Hv. unfold storage_step, storage_step_gates.
  erewrite bind_ok by (apply apply_pauli_ok; exact Hv).
  erewrite bind_ok by (apply (ccx_loop p m u u1 Hlen H1)).
  erewrite bind_ok by (apply (cmp_loop p m Hlen)).
  erewrite bind_ok
    by (erewrite bind_ok by (apply getitem_ok; exact H0); reflexivity).
  erewrite bind_ok
    by (apply (controlled_si_ok p u u0 u1); [exact H0 | exact H1 | lia]).
  erewrite bind_ok
    by (erewrite bind_ok by (apply getitem_ok; exact H0); reflexivity).
  erewrite bind_ok by (apply (uncmp_loop p m Hlen)).
  erewrite bind_ok by (apply (ccx_loop_rev p m u u1 Hlen H1)).
  rewrite (apply_pauli_ok val p _ Hv).
  replace (Z.of_nat len_ps + 1 - (Z.of_nat idx + 1))%Z
    with (Z.of_nat len_ps - Z.of_nat idx)%Z by lia.
  f_equal. rewrite <- !app_assoc. reflexivity.
Qed.

Lemma storage_loop_ok (len_ps : nat) (p u m : list qubit) (u0 u1 : qubit)
    (vals : list Z) (idx : nat) qc :
  (length p <= length m)%nat ->
  nth_error u 0 = Some u0 -> nth_error u 1 = Some u1 ->
  (idx + length vals <= len_ps)%nat ->
  Forall (fun val => (Z.abs_N val < 2 ^ N.of_nat (length p))%N) vals ->
  for_each (combine (seq idx (length vals)) vals)
    (fun '(idx, val) => storage_step len_ps p u m idx val) qc =
  (Ok tt, qc ++ storage_gates len_ps p u0 u1 m idx (map Z.abs_N vals)).
Proof.
  intros Hlen H0 H1. revert idx qc.
  induction vals as [|val vals IH]; intros idx qc Hidx Hv.
  - simpl. now rewrite app_nil_r.
  - cbn [length seq combine for_each map storage_gates].
    inversion Hv as [|? ? Hval Hvals]; subst.
    rewrite (bind_ok _ _ _ _ _
              (storage_step_ok len_ps p u m u0 u1 idx val qc Hlen H0 H1
                 ltac:(simpl in Hidx; lia) Hval)).
    rewrite IH by (simpl in Hidx; try lia; assumption).
    now rewrite <- app_assoc.
Qed.

Lemma storage_algorithm_ok (ps : list Z) (p u m : list qubit) (u0 u1 : qubit) qc :
  (length p <= length m)%nat ->
  nth_error u 0 = Some u0 -> nth_error u 1 = Some u1 ->
  Forall (fun val => (Z.abs_N val < 2 ^ N.of_nat (length p))%N) ps ->
  storage_algorithm ps p u m qc =
  (Ok tt, qc ++ storage_gates (length ps) p u0 u1 m 0 (map Z.abs_N ps)).
Proof.
  intros Hlen H0 H1 Hv. unfold storage_algorithm, enumerate.
  apply storage_loop_ok; auto.
Qed.

(** ** Masks and register contents *)

Lemma bit_mask_app (l1 l2 : list (qubit * bool)) :
  bit_mask (l1 ++ l2) = N.lxor (bit_mask l1) (bit_mask l2).
Proof.
  induction l1 as [|[q b] l1 IH]; cbn [app bit_mask]; [now rewrite N.lxor_0_l|].
  now rewrite IH, N.lxor_assoc.
Qed.

Lemma bit_mask_rev (l : list (qubit * bool)) : bit_mask (rev l) = bit_mask l.
Proof.
  induction l as [|[q b] l IH]; cbn [rev bit_mask]; [reflexivity|].
  rewrite bit_mask_app, IH. cbn [bit_mask]. rewrite N.lxor_0_r. apply N.lxor_comm.
Qed.

Lemma bit_mask_notin (l : list (qubit * bool)) (q : qubit) :
  ~ In q (map fst l) -> N.testbit (bit_mask l) q = false.
Proof.
  induction l as [|[q' b] l IH]; cbn [bit_mask map fst In]; intros Hn;
    [apply N.bits_0|].
  rewrite N.lxor_spec, IH by tauto.
  destruct b; [|now rewrite N.bits_0].
  rewrite N.pow2_bits_eqb.
  destruct (N.eqb_spec q' q) as [E|E]; [exfalso; apply Hn; now left | reflexivity].
Qed.

Lemma combine_fst_incl {A B} (r : list A) (bs : list B) (q : A) :
  In q (map fst (combine r bs)) -> In q r.
Proof.
  revert bs. induction r as [|a r IH]; intros [|b bs]; simpl; try tauto.
  intros [E|I]; [now left | right; eapply IH; eassumption].
Qed.

Lemma bit_mask_combine_notin (r : list qubit) (bs : list bool) (q : qubit) :
  ~ In q r -> N.testbit (bit_mask (combine r bs)) q = false.
Proof.
  intros Hn. apply bit_mask_notin. intros I. apply Hn.
  eapply combine_fst_incl; eassumption.
Qed.

(** Reading back a register that was written through its mask. *)
Lemma bit_mask_read (r : list qubit) (bs : list bool) :
  NoDup r -> length bs = length r ->
  map (N.testbit (bit_mask (combine r bs))) r = bs.
Proof.
  intros Hnd. revert bs. induction Hnd as [|q r Hq Hnd IH]; intros [|b bs] Hl;
    simpl in Hl; try discriminate; [reflexivity|].
  cbn [combine bit_mask map]. f_equal.
  - rewrite N.lxor_spec, bit_mask_combine_notin by exact Hq.
    destruct b; [now rewrite N.pow2_bits_eqb, N.eqb_refl | now rewrite N.bits_0].
  - rewrite <- (IH bs) at 2 by lia.
    apply map_ext_in. intros q' Hq'. rewrite N.lxor_spec.
    destruct b; [|now rewrite N.bits_0].
    rewrite N.pow2_bits_eqb.
    destruct (N.eqb_spec q q') as [E|E]; [subst; contradiction | reflexivity].
Qed.

Lemma bit_mask_xor (r : list qubit) (x y : list bool) :
  length x = length r -> length y = length r ->
  N.lxor (bit_mask (combine r x)) (bit_mask (combine r y)) =
  bit_mask (combine r (xor_bits x y)).
Proof.
  revert x y. induction r as [|q r IH]; intros [|a x] [|b y] Hx Hy;
    simpl in Hx, Hy; try discriminate; [reflexivity|].
  unfold xor_bits. cbn [combine map bit_mask fst snd]. fold (xor_bits x y).
  rewrite <- (IH x y) by lia.
  set (A := bit_mask (combine r x)). set (B := bit_mask (combine r y)).
  apply N.bits_inj. intros i. rewrite !N.lxor_spec.
  destruct a, b; simpl; rewrite ?N.lxor_spec, ?N.bits_0;
    destruct (N.testbit (2 ^ q) i), (N.testbit A i), (N.testbit B i); reflexivity.
Qed.

Lemma bit_mask_false (r : list qubit) (w : nat) :
  bit_mask (combine r (repeat false w)) = 0%N.
Proof.
  revert w. induction r as [|q r IH]; intros [|w]; simpl; try reflexivity.
  now rewrite IH.
Qed.

Lemma map_testbit_lxor (A B : N) (r : list qubit) :
  map (N.testbit (N.lxor A B)) r = xor_bits (map (N.testbit A) r) (map (N.testbit B) r).
Proof.
  unfold xor_bits. induction r as [|q r IH]; simpl; [reflexivity|].
  now rewrite N.lxor_spec, IH.
Qed.

Lemma map_testbit_notin (r r' : list qubit) (bs : list bool) :
  (forall q, In q r -> ~ In q r') ->
  map (N.testbit (bit_mask (combine r' bs))) r = repeat false (length r).
Proof.
  intros Hd. induction r as [|q r IH]; simpl; [reflexivity|].
  rewrite bit_mask_combine_notin by (apply Hd; now left).
  f_equal. apply IH. intros q' Hq'. apply Hd. now right.
Qed.

(** ** Bit-list algebra *)

Lemma xor_bits_length (x y : list bool) :
  length x = length y -> length (xor_bits x y) = length x.
Proof. intros E. unfold xor_bits. rewrite length_map, length_combine. lia. Qed.

Lemma xor_bits_false_r (x : list bool) : xor_bits x (repeat false (length x)) = x.
Proof.
  unfold xor_bits. induction x as [|a x IH]; simpl; [reflexivity|].
  rewrite IH. now destruct a.
Qed.

Lemma xor_bits_false_l (x : list bool) : xor_bits (repeat false (length x)) x = x.
Proof.
  unfold xor_bits. induction x as [|a x IH]; simpl; [reflexivity|].
  rewrite IH. now destruct a.
Qed.

Lemma xor_bits_same (x : list bool) : xor_bits x x = repeat false (length x).
Proof.
  unfold xor_bits. induction x as [|a x IH]; simpl; [reflexivity|].
  rewrite IH. now destruct a.
Qed.

Lemma xor_bits_negb (x : list bool) : xor_bits x (map negb x) = repeat true (length x).
Proof.
  unfold xor_bits. induction x as [|a x IH]; simpl; [reflexivity|].
  rewrite IH. now destruct a.
Qed.

Lemma xor_bits_true_negb (x : list bool) :
  xor_bits (repeat true (length x)) (map negb x) = x.
Proof.
  unfold xor_bits. induction x as [|a x IH]; simpl; [reflexivity|].
  rewrite IH. now destruct a.
Qed.

Lemma xor_bits_cancel (x y : list bool) :
  length x = length y -> xor_bits (xor_bits x y) y = x.
Proof.
  unfold xor_bits. revert y. induction x as [|a x IH]; intros [|b y] E;
    simpl in E; try discriminate; simpl; [reflexivity|].
  rewrite IH by lia. now destruct a, b.
Qed.

Lemma xor_bits_false_r' (x : list bool) (n : nat) :
  length x = n -> xor_bits x (repeat false n) = x.
Proof. intros <-. apply xor_bits_false_r. Qed.

Lemma xor_bits_false_l' (x : list bool) (n : nat) :
  length x = n -> xor_bits (repeat false n) x = x.
Proof. intros <-. apply xor_bits_false_l. Qed.

Lemma xor_bits_true_negb' (x : list bool) (n : nat) :
  length x = n -> xor_bits (repeat true n) (map negb x) = x.
Proof. intros <-. apply xor_bits_true_negb. Qed.

Lemma map_andb_true (x : list bool) : map (fun a => a && true) x = x.
Proof. induction x as [|a x IH]; simpl; [reflexivity|]. rewrite IH. now destruct a. Qed.

Lemma map_andb_false (x : list bool) :
  map (fun a => a && false) x = repeat false (length x).
Proof. induction x as [|a x IH]; simpl; [reflexivity|]. rewrite IH. now destruct a. Qed.

Lemma forallb_repeat_true (w : nat) : forallb (fun b : bool => b) (repeat true w) = true.
Proof. induction w; simpl; auto. Qed.

(** The equality detector fires on all bits only for equal contents. *)
Lemma detector_all_true (x y : list bool) :
  length x = length y ->
  forallb (fun b : bool => b) (xor_bits y (map negb x)) = true -> y = x.
Proof.
  unfold xor_bits. revert y. induction x as [|a x IH]; intros [|b y] E;
    simpl in E; try discriminate; simpl; [reflexivity|].
  intros F. apply andb_true_iff in F. destruct F as [F1 F2].
  f_equal; [now destruct a, b | apply IH; [lia | exact F2]].
Qed.

Lemma forallb_map_id {A} (f : A -> bool) (l : list A) :
  forallb f l = forallb (fun b : bool => b) (map f l).
Proof. induction l as [|a l IH]; simpl; [reflexivity|]. now rewrite IH. Qed.

Lemma lsb_bits_length (v : N) (w : nat) : length (lsb_bits v w) = w.
Proof. unfold lsb_bits. now rewrite length_map, length_seq. Qed.

Lemma lsb_bits_inj (v v' : N) (w : nat) :
  (v < 2 ^ N.of_nat w)%N -> (v' < 2 ^ N.of_nat w)%N ->
  lsb_bits v w = lsb_bits v' w -> v = v'.
Proof.
  intros Hv Hv' E. apply N.bits_inj. intros i.
  destruct (N.lt_ge_cases i (N.of_nat w)) as [L|L].
  - unfold lsb_bits in E.
    assert (I : In (N.to_nat i) (seq 0 w)) by (apply in_seq; lia).
    apply map_ext_in_iff with (a := N.to_nat i) in E; [|exact I].
    simpl in E. now rewrite Nnat.N2Nat.id in E.
  - assert (B : forall a, (a < 2 ^ N.of_nat w)%N -> N.testbit a i = false).
    { intros a Ha. destruct (N.eq_dec a 0) as [-> | Ha0]; [apply N.bits_0|].
      apply N.bits_above_log2. apply N.log2_lt_pow2 in Ha; lia. }
    now rewrite !B.
Qed.

Ltac lxor_solve :=
  apply N.bits_inj; intros ?i; rewrite ?N.lxor_spec, ?N.bits_0;
  repeat match goal with
         | |- context [N.testbit ?a ?i] =>
             let b := fresh "b" in set (b := N.testbit a i); clearbody b; destruct b
         end;
  reflexivity.

Lemma cond_flip_lxor (b : bool) (t : qubit) (k : N) :
  (if b then flip t k else k) = N.lxor k (if b then 2 ^ t else 0)%N.
Proof. destruct b; [reflexivity | now rewrite N.lxor_0_r]. Qed.

(** ** Loops over qubit pairs as index permutations *)

(** A loop whose body, for the pair (control, target), flips the target
    when [f] holds of the control acts by one exclusive or, provided no
    target is read by [f]. *)
Lemma pair_loop_perm (G : qubit * qubit -> QuantumCircuit) (f : N -> qubit -> bool)
    (l : list (qubit * qubit)) :
  (forall at_ k, In at_ l ->
     circuit_perm (G at_) k = N.lxor k (if f k (fst at_) then 2 ^ snd at_ else 0)%N) ->
  (forall k a t, In a (map fst l) -> In t (map snd l) -> f (flip t k) a = f k a) ->
  forall k, circuit_perm (flat_map G l) k =
            N.lxor k (bit_mask (map (fun at_ => (snd at_, f k (fst at_))) l)).
Proof.
  induction l as [|[a t] l IH]; intros HG Hf k.
  - simpl. now rewrite N.lxor_0_r.
  - cbn [flat_map map bit_mask fst snd]. rewrite circuit_perm_app.
    rewrite (HG (a, t) k) by now left. cbn [fst snd].
    rewrite IH.
    + assert (E : map (fun at_ : qubit * qubit =>
                         (snd at_, f (N.lxor k (if f k a then 2 ^ t else 0)%N) (fst at_))) l =
                  map (fun at_ : qubit * qubit => (snd at_, f k (fst at_))) l).
      { apply map_ext_in. intros [a' t'] I. cbn [fst snd]. f_equal.
        destruct (f k a); [|now rewrite N.lxor_0_r].
        apply (Hf k a' t); [right; now apply (in_map fst _ (a', t')) | now left]. }
      rewrite E. now rewrite N.lxor_assoc.
    + intros at_ k' I. apply HG. now right.
    + intros k' a' t' Ia It. apply Hf; now right.
Qed.

Lemma map_combine_swap {A B T} (g : A -> T) (p : list A) (m : list B) :
  length m = length p ->
  map (fun at_ : A * B => (snd at_, g (fst at_))) (combine p m) = combine m (map g p).
Proof.
  revert m. induction p as [|a p IH]; intros [|t m] E; simpl in E; try discriminate;
    simpl; [reflexivity|].
  f_equal. apply IH. lia.
Qed.

Lemma x_gates_perm (r : list qubit) (bs : list bool) (k : N) :
  circuit_perm (x_gates r bs) k = N.lxor k (bit_mask (combine r bs)).
Proof.
  unfold x_gates. revert k. generalize (combine r bs) as l.
  induction l as [|[q b] l IH]; intros k.
  - simpl. now rewrite N.lxor_0_r.
  - cbn [flat_map snd fst bit_mask]. rewrite circuit_perm_app, IH.
    destruct b; cbn [circuit_perm gate_perm].
    + unfold flip. now rewrite N.lxor_assoc.
    + now rewrite N.lxor_0_l.
Qed.

Lemma x_gates_classical (r : list qubit) (bs : list bool) :
  Forall classical (x_gates r bs).
Proof.
  unfold x_gates. generalize (combine r bs) as l.
  induction l as [|[q b] l IH]; simpl; [constructor|].
  destruct b; simpl; [constructor; [exact I | exact IH] | exact IH].
Qed.

Lemma NoDup_app_disjoint {A} (l1 l2 : list A) :
  NoDup (l1 ++ l2) -> forall x, In x l1 -> ~ In x l2.
Proof.
  induction l1 as [|a l1 IH]; intros Hn x I1 I2; [contradiction|].
  simpl in Hn. inversion Hn as [|? ? Ha Hr]; subst.
  destruct I1 as [-> | I1].
  - apply Ha. apply in_or_app. now right.
  - now apply (IH Hr x).
Qed.

Section Layout.
(** The registers of the experiment: pattern register [p], intermediate
    qubits [u0] and [u1], memory register [m] of the same width as [p],
    all on different qubits. *)
Variables (p m : list qubit) (u0 u1 : qubit).
Hypothesis Hnd : NoDup (p ++ u0 :: u1 :: m).
Hypothesis Hlen : length m = length p.

Local Abbreviation w := (length p).
Local Abbreviation idx := (basis_index p u0 u1 m).

Lemma layout_p : NoDup p.
Proof using Hnd. now apply NoDup_app_remove_r in Hnd. Qed.

Lemma layout_m : NoDup m.
Proof using Hnd.
pose proof (NoDup_app_remove_l _ _ Hnd) as Hu.
inversion Hu as [|? ? _ Hu1]. inversion Hu1 as [|? ? _ Hm]. exact Hm.
Qed.

Lemma layout_u : u0 <> u1.
Proof using Hnd.
pose proof (NoDup_app_remove_l _ _ Hnd) as Hu.
inversion Hu as [|? ? Hu0 _]. intros E. apply Hu0. now left.
Qed.

Lemma layout_u0_p : ~ In u0 p.
Proof using Hnd.
  intros I. apply NoDup_remove_2 in Hnd. apply Hnd.
  apply in_or_app. now left.
Qed.

Lemma layout_u0_m : ~ In u0 m.
Proof using Hnd.
  intros I. apply NoDup_remove_2 in Hnd. apply Hnd.
  apply in_or_app. right. now right.
Qed.

Lemma layout_u1_p : ~ In u1 p.
Proof using Hnd.
  intros I.
  assert (N2 : NoDup ((p ++ [u0]) ++ u1 :: m)) by now rewrite <- app_assoc.
  apply NoDup_remove_2 in N2. apply N2.
  apply in_or_app. left. apply in_or_app. now left.
Qed.

Lemma layout_u1_m : ~ In u1 m.
Proof using Hnd.
  intros I.
  assert (N2 : NoDup ((p ++ [u0]) ++ u1 :: m)) by now rewrite <- app_assoc.
  apply NoDup_remove_2 in N2. apply N2.
  apply in_or_app. now right.
Qed.

Lemma layout_p_m (q : qubit) : In q p -> ~ In q m.
Proof using Hnd.
intros Ip Im. apply (NoDup_app_disjoint p (u0 :: u1 :: m) Hnd q Ip).
right. now right.
Qed.

Lemma layout_m_p (q : qubit) : In q m -> ~ In q p.
Proof using Hnd. intros Im Ip. now apply (layout_p_m q). Qed.

Lemma u_mask_bits (a b : bool) (q : qubit) :
  N.testbit (bit_mask [(u0, a); (u1, b)]) q =
  xorb (a && (u0 =? q)%N) (b && (u1 =? q)%N).
Proof.
  cbn [bit_mask]. rewrite !N.lxor_spec, N.bits_0.
  destruct a, b; rewrite ?N.pow2_bits_eqb, ?N.bits_0; simpl;
    now destruct (u0 =? q)%N, (u1 =? q)%N.
Qed.

Lemma idx_read_p (x : list bool) (a b : bool) (y : list bool) :
  length x = w -> map (N.testbit (idx x a b y)) p = x.
Proof using Hnd Hlen.
  intros Hx. unfold basis_index. rewrite !map_testbit_lxor.
  rewrite (bit_mask_read p x layout_p Hx).
  rewrite (map_testbit_notin p m y layout_p_m).
  change [(u0, a); (u1, b)] with (combine [u0; u1] [a; b]).
  rewrite (map_testbit_notin p [u0; u1] [a; b]).
  - rewrite <- Hx. now rewrite !xor_bits_false_r.
  - intros q Iq [<- | [<- | []]]; [now apply layout_u0_p | now apply layout_u1_p].
Qed.

Lemma idx_read_m (x : list bool) (a b : bool) (y : list bool) :
  length y = w -> map (N.testbit (idx x a b y)) m = y.
Proof using Hnd Hlen.
  intros Hy. unfold basis_index. rewrite !map_testbit_lxor.
  rewrite (bit_mask_read m y layout_m) by lia.
  rewrite (map_testbit_notin m p x layout_m_p).
  change [(u0, a); (u1, b)] with (combine [u0; u1] [a; b]).
  rewrite (map_testbit_notin m [u0; u1] [a; b]).
  - rewrite xor_bits_same, repeat_length.
    replace (length m) with (length y) by lia. apply xor_bits_false_l.
  - intros q Iq [<- | [<- | []]]; [now apply layout_u0_m | now apply layout_u1_m].
Qed.

Lemma idx_read_u0 (x : list bool) (a b : bool) (y : list bool) :
  N.testbit (idx x a b y) u0 = a.
Proof using Hnd Hlen.
  unfold basis_index. rewrite !N.lxor_spec, u_mask_bits.
  rewrite !bit_mask_combine_notin by (apply layout_u0_p || apply layout_u0_m).
  rewrite N.eqb_refl.
  destruct (N.eqb_spec u1 u0) as [E|_]; [symmetry in E; now apply layout_u in E|].
  now destruct a, b.
Qed.

Lemma idx_read_u1 (x : list bool) (a b : bool) (y : list bool) :
  N.testbit (idx x a b y) u1 = b.
Proof using Hnd Hlen.
  unfold basis_index. rewrite !N.lxor_spec, u_mask_bits.
  rewrite !bit_mask_combine_notin by (apply layout_u1_p || apply layout_u1_m).
  rewrite N.eqb_refl.
  destruct (N.eqb_spec u0 u1) as [E|_]; [now apply layout_u in E|].
  now destruct a, b.
Qed.

Lemma idx_xor_p (x x' : list bool) (a b : bool) (y : list bool) :
  length x = w -> length x' = w ->
  N.lxor (idx x a b y) (bit_mask (combine p x')) = idx (xor_bits x x') a b y.
Proof.
  intros Hx Hx'. unfold basis_index. rewrite <- (bit_mask_xor p x x' Hx Hx').
  lxor_solve.
Qed.

Lemma idx_xor_m (x : list bool) (a b : bool) (y y' : list bool) :
  length y = w -> length y' = w ->
  N.lxor (idx x a b y) (bit_mask (combine m y')) = idx x a b (xor_bits y y').
Proof.
  intros Hy Hy'. unfold basis_index.
  rewrite <- (bit_mask_xor m y y') by lia.
  lxor_solve.
Qed.

Lemma idx_flip_u0 (x : list bool) (a b : bool) (y : list bool) :
  flip u0 (idx x a b y) = idx x (negb a) b y.
Proof.
  unfold flip, basis_index. cbn [bit_mask].
  destruct a; simpl negb; cbv iota; lxor_solve.
Qed.

Lemma idx_flip_u1 (x : list bool) (a b : bool) (y : list bool) :
  flip u1 (idx x a b y) = idx x a (negb b) y.
Proof.
  unfold flip, basis_index. cbn [bit_mask].
  destruct b; simpl negb; cbv iota; lxor_solve.
Qed.

Lemma idx_fresh : idx (repeat false w) false true (repeat false w) = (2 ^ u1)%N.
Proof.
  unfold basis_index. rewrite !bit_mask_false. cbn [bit_mask].
  now rewrite !N.lxor_0_l, !N.lxor_0_r.
Qed.

Lemma idx_stored (v : N) :
  idx (repeat false w) false false (lsb_bits v w) = reg_index m v.
Proof.
  unfold basis_index, reg_index. rewrite bit_mask_false, Hlen. cbn [bit_mask].
  now rewrite !N.lxor_0_l.
Qed.
End Layout.

(** ** The stages of storage and retrieval on basis states *)

Section Stages.
Variables (p m : list qubit) (u0 u1 : qubit).
Hypothesis Hnd : NoDup (p ++ u0 :: u1 :: m).
Hypothesis Hlen : length m = length p.

Local Abbreviation w := (length p).
Local Abbreviation idx := (basis_index p u0 u1 m).

Lemma pair_in (l : list (qubit * qubit)) (a t : qubit) :
  incl l (combine p m) -> In (a, t) l -> In a p /\ In t m.
Proof.
  intros Hl I. apply Hl in I. split;
    [eapply in_combine_l | eapply in_combine_r]; eassumption.
Qed.

Lemma pair_fst_in (l : list (qubit * qubit)) (a : qubit) :
  incl l (combine p m) -> In a (map fst l) -> In a p.
Proof.
  intros Hl I. apply in_map_iff in I. destruct I as ([a' t] & <- & I).
  now apply (pair_in l a' t Hl I).
Qed.

Lemma pair_snd_in (l : list (qubit * qubit)) (t : qubit) :
  incl l (combine p m) -> In t (map snd l) -> In t m.
Proof.
  intros Hl I. apply in_map_iff in I. destruct I as ([a t'] & <- & I).
  now apply (pair_in l a t' Hl I).
Qed.

Lemma pair_neq (l : list (qubit * qubit)) (a t : qubit) :
  incl l (combine p m) -> In a (map fst l) -> In t (map snd l) -> t <> a.
Proof.
  intros Hl Ia It E. subst.
  apply (layout_p_m p m u0 u1 Hnd a); [eapply pair_fst_in | eapply pair_snd_in];
    eassumption.
Qed.

Lemma u1_not_target (l : list (qubit * qubit)) (t : qubit) :
  incl l (combine p m) -> In t (map snd l) -> t <> u1.
Proof.
  intros Hl It E. subst. apply (layout_u1_m p m u0 u1 Hnd).
  eapply pair_snd_in; eassumption.
Qed.

Lemma ccx_perm (l : list (qubit * qubit)) (k : N) :
  incl l (combine p m) ->
  circuit_perm (ccx_gates u1 l) k =
  N.lxor k (bit_mask (map (fun at_ : qubit * qubit =>
                             (snd at_, N.testbit k (fst at_) && N.testbit k u1)) l)).
Proof.
  intros Hl. unfold ccx_gates.
  apply (pair_loop_perm _ (fun k a => N.testbit k a && N.testbit k u1)).
  - intros [a t] k' _. cbn [circuit_perm gate_perm fst snd]. apply cond_flip_lxor.
  - intros k' a t Ia It.
    rewrite !flip_other; [reflexivity | |].
    + eapply u1_not_target; eassumption.
    + eapply pair_neq; eassumption.
Qed.

Lemma cmp_perm (l : list (qubit * qubit)) (k : N) :
  incl l (combine p m) ->
  circuit_perm (cmp_gates l) k =
  N.lxor k (bit_mask (map (fun at_ : qubit * qubit =>
                             (snd at_, negb (N.testbit k (fst at_)))) l)).
Proof.
  intros Hl. unfold cmp_gates.
  apply (pair_loop_perm _ (fun k a => negb (N.testbit k a))).
  - intros [a t] k' _. cbn [circuit_perm gate_perm fst snd].
    destruct (N.testbit k' a); cbn [negb].
    + now rewrite flip_flip, N.lxor_0_r.
    + reflexivity.
  - intros k' a t Ia It. rewrite flip_other; [reflexivity|].
    eapply pair_neq; eassumption.
Qed.

Lemma uncmp_perm (l : list (qubit * qubit)) (k : N) :
  incl l (combine p m) ->
  circuit_perm (uncmp_gates l) k =
  N.lxor k (bit_mask (map (fun at_ : qubit * qubit =>
                             (snd at_, negb (N.testbit k (fst at_)))) l)).
Proof.
  intros Hl. unfold uncmp_gates.
  apply (pair_loop_perm _ (fun k a => negb (N.testbit k a))).
  - intros [a t] k' I. cbn [circuit_perm gate_perm fst snd].
    rewrite flip_other.
    + destruct (N.testbit k' a); cbn [negb];
        [now rewrite flip_flip, N.lxor_0_r | reflexivity].
    + apply (pair_neq l a t Hl).
      * now apply (in_map fst _ (a, t)).
      * now apply (in_map snd _ (a, t)).
  - intros k' a t Ia It. rewrite flip_other; [reflexivity|].
    eapply pair_neq; eassumption.
Qed.

Lemma incl_rev_combine : incl (rev (combine p m)) (combine p m).
Proof. intros x I. now apply in_rev. Qed.

Lemma x_stage (x bs : list bool) (a b : bool) (y : list bool) :
  length x = w -> length bs = w ->
  circuit_perm (x_gates p bs) (idx x a b y) = idx (xor_bits x bs) a b y.
Proof.
  intros Hx Hb. rewrite x_gates_perm. now apply idx_xor_p.
Qed.

Lemma ccx_mask (x : list bool) (a b : bool) (y : list bool) :
  length x = w ->
  bit_mask (map (fun at_ : qubit * qubit =>
                   (snd at_, N.testbit (idx x a b y) (fst at_) &&
                             N.testbit (idx x a b y) u1)) (combine p m)) =
  bit_mask (combine m (map (fun c => c && b) x)).
Proof.
  intros Hx.
  pose proof (map_combine_swap (A := qubit) (B := qubit)
                (fun q : qubit => N.testbit (idx x a b y) q &&
                                  N.testbit (idx x a b y) u1) p m Hlen) as E.
  cbv beta in E. rewrite E. clear E.
  rewrite (idx_read_u1 p m u0 u1 Hnd Hlen).
  rewrite <- (map_map (N.testbit (idx x a b y)) (fun c => c && b)).
  now rewrite (idx_read_p p m u0 u1 Hnd Hlen x a b y Hx).
Qed.

Lemma cmp_mask (x : list bool) (a b : bool) (y : list bool) :
  length x = w ->
  bit_mask (map (fun at_ : qubit * qubit =>
                   (snd at_, negb (N.testbit (idx x a b y) (fst at_)))) (combine p m)) =
  bit_mask (combine m (map negb x)).
Proof.
  intros Hx.
  pose proof (map_combine_swap (A := qubit) (B := qubit)
                (fun q : qubit => negb (N.testbit (idx x a b y) q)) p m Hlen) as E.
  cbv beta in E. rewrite E. clear E.
  rewrite <- (map_map (N.testbit (idx x a b y)) negb).
  now rewrite (idx_read_p p m u0 u1 Hnd Hlen x a b y Hx).
Qed.

Lemma ccx_stage (x : list bool) (a b : bool) (y : list bool) :
  length x = w -> length y = w ->
  circuit_perm (ccx_gates u1 (combine p m)) (idx x a b y) =
  idx x a b (xor_bits y (map (fun c => c && b) x)).
Proof.
  intros Hx Hy. rewrite ccx_perm by apply incl_refl.
  rewrite ccx_mask by exact Hx.
  apply (idx_xor_m p m u0 u1 Hlen); [exact Hy | now rewrite length_map].
Qed.

Lemma ccx_rev_stage (x : list bool) (a b : bool) (y : list bool) :
  length x = w -> length y = w ->
  circuit_perm (ccx_gates u1 (rev (combine p m))) (idx x a b y) =
  idx x a b (xor_bits y (map (fun c => c && b) x)).
Proof.
  intros Hx Hy. rewrite ccx_perm by apply incl_rev_combine.
  rewrite map_rev, bit_mask_rev.
  rewrite ccx_mask by exact Hx.
  apply (idx_xor_m p m u0 u1 Hlen); [exact Hy | now rewrite length_map].
Qed.

Lemma cmp_stage (x : list bool) (a b : bool) (y : list bool) :
  length x = w -> length y = w ->
  circuit_perm (cmp_gates (combine p m)) (idx x a b y) =
  idx x a b (xor_bits y (map negb x)).
Proof.
  intros Hx Hy. rewrite cmp_perm by apply incl_refl.
  rewrite cmp_mask by exact Hx.
  apply (idx_xor_m p m u0 u1 Hlen); [exact Hy | now rewrite length_map].
Qed.

Lemma uncmp_rev_stage (x : list bool) (a b : bool) (y : list bool) :
  length x = w -> length y = w ->
  circuit_perm (uncmp_gates (rev (combine p m))) (idx x a b y) =
  idx x a b (xor_bits y (map negb x)).
Proof.
  intros Hx Hy. rewrite uncmp_perm by apply incl_rev_combine.
  rewrite map_rev, bit_mask_rev.
  rewrite cmp_mask by exact Hx.
  apply (idx_xor_m p m u0 u1 Hlen); [exact Hy | now rewrite length_map].
Qed.

Lemma mcx_stage (x : list bool) (a b : bool) (y : list bool) :
  length y = w ->
  circuit_perm [MCXGate m u0] (idx x a b y) =
  if forallb (fun c : bool => c) y then idx x (negb a) b y else idx x a b y.
Proof.
  intros Hy. cbn [circuit_perm gate_perm].
  rewrite forallb_map_id, (idx_read_m p m u0 u1 Hnd Hlen x a b y Hy).
  destruct (forallb (fun c : bool => c) y); [|reflexivity].
  apply (idx_flip_u0 p m u0 u1).
Qed.

Lemma ccx_classical (l : list (qubit * qubit)) :
  incl l (combine p m) -> Forall classical (ccx_gates u1 l).
Proof.
  intros Hl. unfold ccx_gates. apply Forall_flat_map. apply Forall_forall.
  intros [a t] I. constructor; [|constructor]. cbn [classical fst snd].
  destruct (pair_in l a t Hl I) as [Ia It]. split.
  - intros E. apply (layout_p_m p m u0 u1 Hnd a Ia). now rewrite E.
  - intros E. apply (layout_u1_m p m u0 u1 Hnd). now rewrite E.
Qed.

Lemma cmp_classical (l : list (qubit * qubit)) :
  incl l (combine p m) -> Forall classical (cmp_gates l).
Proof.
  intros Hl. unfold cmp_gates. apply Forall_flat_map. apply Forall_forall.
  intros [a t] I. destruct (pair_in l a t Hl I) as [Ia It].
  constructor; [|constructor; [exact Logic.I | constructor]].
  cbn [classical fst snd]. intros E.
  apply (layout_p_m p m u0 u1 Hnd a Ia). now rewrite E.
Qed.

Lemma uncmp_classical (l : list (qubit * qubit)) :
  incl l (combine p m) -> Forall classical (uncmp_gates l).
Proof.
  intros Hl. unfold uncmp_gates. apply Forall_flat_map. apply Forall_forall.
  intros [a t] I. destruct (pair_in l a t Hl I) as [Ia It].
  constructor; [exact Logic.I | constructor; [|constructor]].
  cbn [classical fst snd]. intros E.
  apply (layout_p_m p m u0 u1 Hnd a Ia). now rewrite E.
Qed.

Lemma mcx_classical : Forall classical [MCXGate m u0].
Proof. constructor; [|constructor]. exact (layout_u0_m p m u0 u1 Hnd). Qed.

End Stages.

(** ** Gates on basis states and superpositions *)

Lemma ket_same (K : N) : ket K K = C1.
Proof. unfold ket. now rewrite N.eqb_refl. Qed.

Lemma ket_diff (K k : N) : k <> K -> ket K k = C0.
Proof. unfold ket. intros E. apply N.eqb_neq in E. now rewrite E. Qed.

Lemma apply_ctrl_ket (cs : list qubit) (t : qubit) (U : mat2) (K : N) :
  ~ In t cs ->
  apply_ctrl cs t U (ket K) =
  if forallb (N.testbit K) cs then
    if N.testbit K t
    then sadd (sscale (m01 U) (ket (flip t K))) (sscale (m11 U) (ket K))
    else sadd (sscale (m10 U) (ket (flip t K))) (sscale (m00 U) (ket K))
  else ket K.
Proof.
  intros Ht. apply functional_extensionality. intros k. unfold apply_ctrl.
  destruct (N.eq_dec k K) as [E1|E1]; [|destruct (N.eq_dec k (flip t K)) as [E2|E2]].
  - subst k.
    destruct (forallb (N.testbit K) cs); [|reflexivity].
    destruct (N.testbit K t); unfold sadd, sscale;
      rewrite ket_same, !(ket_diff _ _ (flip_neq t K));
      rewrite (ket_diff (flip t K) K) by (intros E; symmetry in E; now apply flip_neq in E);
      Csolve.
  - subst k. rewrite forallb_flip by exact Ht. rewrite flip_same, flip_flip.
    destruct (forallb (N.testbit K) cs); [|reflexivity].
    destruct (N.testbit K t); cbn [negb]; unfold sadd, sscale;
      rewrite !ket_same, !(ket_diff _ _ (flip_neq t K)); Csolve.
  - assert (E3 : flip t k <> K) by (intros E; apply E2; now apply flip_eq_iff).
    assert (Z : (if forallb (N.testbit k) cs
                 then if N.testbit k t
                      then (m10 U * ket K (flip t k) + m11 U * ket K k)%C
                      else (m00 U * ket K k + m01 U * ket K (flip t k))%C
                 else ket K k) = C0).
    { rewrite (ket_diff K k E1), (ket_diff K _ E3).
      destruct (forallb (N.testbit k) cs); [|reflexivity].
      destruct (N.testbit k t); Csolve. }
    rewrite Z.
    destruct (forallb (N.testbit K) cs); [|now rewrite ket_diff].
    destruct (N.testbit K t); unfold sadd, sscale;
      rewrite (ket_diff K k E1), (ket_diff (flip t K) k E2); Csolve.
Qed.

Lemma run_cons_action (g : gate) (qc : QuantumCircuit) cs t U (psi : state) :
  gate_action g = Some (cs, t, U) ->
  run (g :: qc) psi = run qc (apply_ctrl cs t U psi).
Proof. intros E. cbn [run]. unfold apply_gate. now rewrite E. Qed.

Lemma run_classical_cons (g : gate) (qc : QuantumCircuit) (K : N) :
  classical g -> run (g :: qc) (ket K) = run qc (ket (gate_perm g K)).
Proof. intros Hc. cbn [run]. now rewrite apply_classical_ket. Qed.

Lemma run_classical_then (c1 c2 : QuantumCircuit) (K : N) :
  Forall classical c1 -> run (c1 ++ c2) (ket K) = run c2 (ket (circuit_perm c1 K)).
Proof. intros Hc. now rewrite run_app, run_classical_ket. Qed.

Lemma apply_ctrl_linear2 cs t U (a b : C) (psi phi : state) :
  apply_ctrl cs t U (sadd (sscale a psi) (sscale b phi)) =
  sadd (sscale a (apply_ctrl cs t U psi)) (sscale b (apply_ctrl cs t U phi)).
Proof.
  apply functional_extensionality; intros k. unfold apply_ctrl, sadd, sscale.
  destruct (forallb (N.testbit k) cs); [|reflexivity].
  destruct (N.testbit k t); Csolve.
Qed.

Lemma run_linear2 (qc : QuantumCircuit) (a b : C) (psi phi psi' phi' : state) :
  run qc psi = Some psi' -> run qc phi = Some phi' ->
  run qc (sadd (sscale a psi) (sscale b phi)) = Some (sadd (sscale a psi') (sscale b phi')).
Proof.
  revert psi phi. induction qc as [|g qc IH]; intros psi phi; simpl.
  - intros E F. inversion E; inversion F; subst. reflexivity.
  - unfold apply_gate. destruct (gate_action g) as [[[cs t] U]|]; [|discriminate].
    rewrite apply_ctrl_linear2. apply IH.
Qed.

Lemma run_zero (qc : QuantumCircuit) (psi psi' : state) :
  run qc psi = Some psi' -> run qc (fun _ => C0) = Some (fun _ => C0).
Proof.
  revert psi. induction qc as [|g qc IH]; intros psi; simpl; [reflexivity|].
  unfold apply_gate. destruct (gate_action g) as [[[cs t] U]|]; [|discriminate].
  intros E.
  replace (apply_ctrl cs t U (fun _ => C0)) with (fun _ : N => C0).
  - eapply IH; eassumption.
  - apply functional_extensionality; intros k. unfold apply_ctrl.
    destruct (forallb (N.testbit k) cs); [|reflexivity].
    destruct (N.testbit k t); Csolve.
Qed.

(** A circuit that fixes every basis state of a superposition fixes it. *)
Lemma run_superpos_fixed (qc : QuantumCircuit) (l : list (C * N)) (psi psi' : state) :
  run qc psi = Some psi' ->
  (forall aK, In aK l -> run qc (ket (snd aK)) = Some (ket (snd aK))) ->
  run qc (superpos l) = Some (superpos l).
Proof.
  intros Hr. induction l as [|aK l IH]; intros Hfix; cbn [superpos].
  - eapply run_zero; eassumption.
  - apply run_linear.
    + apply Hfix. now left.
    + apply IH. intros aK' I. apply Hfix. now right.
Qed.

(** ** One iteration of storage *)

Section StorageStep.
Variables (p m : list qubit) (u0 u1 : qubit).
Hypothesis Hnd : NoDup (p ++ u0 :: u1 :: m).
Hypothesis Hlen : length m = length p.

Local Abbreviation w := (length p).
Local Abbreviation idx := (basis_index p u0 u1 m).
Local Abbreviation zeros := (repeat false (length p)).
Local Abbreviation ones := (repeat true (length p)).

(** The mirror half of an iteration, after the rotation. *)
Lemma uncompute_half (bs y : list bool) (b : bool) :
  length bs = w -> length y = w ->
  forallb (fun c : bool => c) y = true ->
  run (MCXGate m u0 :: uncmp_gates (rev (combine p m)) ++
       ccx_gates u1 (rev (combine p m)) ++ x_gates p bs)
      (ket (idx bs true b y)) =
  Some (ket (idx (xor_bits bs bs) false b
               (xor_bits (xor_bits y (map negb bs)) (map (fun c => c && b) bs)))).
Proof.
  intros Hb Hy Hall.
  rewrite run_classical_cons by (apply (layout_u0_m p m u0 u1 Hnd)).
  change (gate_perm (MCXGate m u0) (idx bs true b y))
    with (circuit_perm [MCXGate m u0] (idx bs true b y)).
  rewrite (mcx_stage p m u0 u1 Hnd Hlen) by exact Hy. rewrite Hall. cbn [negb].
  rewrite run_classical_then
    by (apply (uncmp_classical p m u0 u1 Hnd), incl_rev_combine).
  rewrite (uncmp_rev_stage p m u0 u1 Hnd Hlen) by assumption.
  rewrite run_classical_then
    by (apply (ccx_classical p m u0 u1 Hnd), incl_rev_combine).
  rewrite (ccx_rev_stage p m u0 u1 Hnd Hlen);
    [|exact Hb | rewrite xor_bits_length; rewrite ?length_map; lia].
  rewrite run_classical_ket by apply x_gates_classical.
  rewrite (x_stage p m u0 u1) by assumption.
  reflexivity.
Qed.

(** On the starting state the iteration splits off the pattern [v] with the
    rotation's amplitudes. *)
Lemma storage_step_fresh (theta : R) (v : N) :
  run (storage_step_gates theta p u0 u1 m v) (ket (2 ^ u1)) =
  Some (sadd (sscale (RtoC (- sin (theta / 2))) (ket (reg_index m v)))
             (sscale (RtoC (cos (theta / 2))) (ket (2 ^ u1)))).
Proof.
  unfold storage_step_gates.
  set (bs := lsb_bits v w).
  assert (Hb : length bs = w) by apply lsb_bits_length.
  rewrite <- (idx_fresh p m u0 u1).
  rewrite run_classical_then by apply x_gates_classical.
  rewrite (x_stage p m u0 u1) by (rewrite ?repeat_length; auto).
  rewrite xor_bits_false_l' by assumption.
  rewrite run_classical_then by (apply (ccx_classical p m u0 u1 Hnd), incl_refl).
  rewrite (ccx_stage p m u0 u1 Hnd Hlen) by (rewrite ?repeat_length; auto).
  rewrite map_andb_true. rewrite xor_bits_false_l' by assumption.
  rewrite run_classical_then by (apply (cmp_classical p m u0 u1 Hnd), incl_refl).
  rewrite (cmp_stage p m u0 u1 Hnd Hlen) by assumption.
  rewrite xor_bits_negb, Hb.
  cbn [app].
  rewrite run_classical_cons by (apply (layout_u0_m p m u0 u1 Hnd)).
  change (gate_perm (MCXGate m u0) (idx bs false true ones))
    with (circuit_perm [MCXGate m u0] (idx bs false true ones)).
  rewrite (mcx_stage p m u0 u1 Hnd Hlen) by apply repeat_length.
  rewrite forallb_repeat_true. cbn [negb].
  rewrite (run_cons_action _ _ [u0] u1 (RY_mat theta)) by reflexivity.
  rewrite apply_ctrl_ket.
  2:{ intros [E|[]]. now apply (layout_u p m u0 u1 Hnd). }
  cbn [forallb]. rewrite (idx_read_u0 p m u0 u1 Hnd Hlen), (idx_read_u1 p m u0 u1 Hnd Hlen).
  cbn [andb RY_mat m01 m11].
  rewrite (idx_flip_u1 p m u0 u1). cbn [negb].
  erewrite run_linear2.
  - reflexivity.
  - rewrite uncompute_half by (rewrite ?repeat_length; auto using forallb_repeat_true).
    rewrite xor_bits_same, Hb, map_andb_false, Hb.
    rewrite xor_bits_true_negb' by assumption.
    rewrite xor_bits_false_r' by assumption.
    unfold bs. rewrite (idx_stored p m u0 u1 Hlen). reflexivity.
  - rewrite uncompute_half by (rewrite ?repeat_length; auto using forallb_repeat_true).
    rewrite xor_bits_same, Hb, map_andb_true.
    rewrite xor_bits_true_negb' by assumption.
    rewrite xor_bits_same, Hb.
    rewrite (idx_fresh p m u0 u1). reflexivity.
Qed.

(** A basis state that holds another pattern is left as it is. *)
Lemma storage_step_stored (theta : R) (v q : N) :
  lsb_bits q w <> lsb_bits v w ->
  run (storage_step_gates theta p u0 u1 m v) (ket (reg_index m q)) =
  Some (ket (reg_index m q)).
Proof.
  intros Hne. unfold storage_step_gates.
  set (bs := lsb_bits v w). set (y := lsb_bits q w).
  assert (Hb : length bs = w) by apply lsb_bits_length.
  assert (Hy : length y = w) by apply lsb_bits_length.
  rewrite <- (idx_stored p m u0 u1 Hlen). fold y.
  rewrite run_classical_then by apply x_gates_classical.
  rewrite (x_stage p m u0 u1) by (rewrite ?repeat_length; auto).
  rewrite xor_bits_false_l' by assumption.
  rewrite run_classical_then by (apply (ccx_classical p m u0 u1 Hnd), incl_refl).
  rewrite (ccx_stage p m u0 u1 Hnd Hlen) by auto.
  rewrite map_andb_false, Hb. rewrite xor_bits_false_r' by assumption.
  rewrite run_classical_then by (apply (cmp_classical p m u0 u1 Hnd), incl_refl).
  rewrite (cmp_stage p m u0 u1 Hnd Hlen) by assumption.
  set (y' := xor_bits y (map negb bs)).
  assert (Hy' : length y' = w).
  { unfold y'. rewrite xor_bits_length; rewrite ?length_map; lia. }
  assert (Hall : forallb (fun c : bool => c) y' = false).
  { destruct (forallb (fun c : bool => c) y') eqn:F; [|reflexivity].
    exfalso. apply Hne. apply detector_all_true;
      [now rewrite !lsb_bits_length | exact F]. }
  cbn [app].
  rewrite run_classical_cons by (apply (layout_u0_m p m u0 u1 Hnd)).
  change (gate_perm (MCXGate m u0) (idx bs false false y'))
    with (circuit_perm [MCXGate m u0] (idx bs false false y')).
  rewrite (mcx_stage p m u0 u1 Hnd Hlen) by exact Hy'. rewrite Hall.
  rewrite (run_cons_action _ _ [u0] u1 (RY_mat theta)) by reflexivity.
  rewrite apply_ctrl_ket.
  2:{ intros [E|[]]. now apply (layout_u p m u0 u1 Hnd). }
  cbn [forallb]. rewrite (idx_read_u0 p m u0 u1 Hnd Hlen). cbn [andb].
  rewrite run_classical_cons by (apply (layout_u0_m p m u0 u1 Hnd)).
  change (gate_perm (MCXGate m u0) (idx bs false false y'))
    with (circuit_perm [MCXGate m u0] (idx bs false false y')).
  rewrite (mcx_stage p m u0 u1 Hnd Hlen) by exact Hy'. rewrite Hall.
  rewrite run_classical_then
    by (apply (uncmp_classical p m u0 u1 Hnd), incl_rev_combine).
  rewrite (uncmp_rev_stage p m u0 u1 Hnd Hlen) by assumption.
  unfold y'. rewrite xor_bits_cancel by (rewrite length_map; lia).
  rewrite run_classical_then
    by (apply (ccx_classical p m u0 u1 Hnd), incl_rev_combine).
  rewrite (ccx_rev_stage p m u0 u1 Hnd Hlen) by assumption.
  rewrite map_andb_false, Hb. rewrite xor_bits_false_r' by assumption.
  rewrite run_classical_ket by apply x_gates_classical.
  rewrite (x_stage p m u0 u1) by assumption.
  rewrite xor_bits_same, Hb. reflexivity.
Qed.

End StorageStep.

(** ** The amplitudes of the schedule *)

Lemma RtoC_mult (a b : R) : (RtoC a * RtoC b)%C = RtoC (a * b).
Proof. Csolve. Qed.

Lemma schedule_keep (len_ps t : nat) :
  (t < len_ps)%nat ->
  sqrt (INR (len_ps - t) / INR len_ps) *
  cos (theta_j (Z.of_nat len_ps - Z.of_nat t) / 2) =
  sqrt (INR (len_ps - S t) / INR len_ps).
Proof.
  intros Ht.
  assert (Hj : (1 <= Z.of_nat len_ps - Z.of_nat t)%Z) by lia.
  rewrite (theta_j_cos _ Hj).
  assert (HN : 0 < INR len_ps) by (apply lt_0_INR; lia).
  assert (Hjp : 0 < INR (len_ps - t)) by (apply lt_0_INR; lia).
  assert (Hj1 : 0 <= INR (len_ps - S t)) by apply pos_INR.
  replace (Z.of_nat len_ps - Z.of_nat t - 1)%Z with (Z.of_nat (len_ps - S t)) by lia.
  replace (Z.of_nat len_ps - Z.of_nat t)%Z with (Z.of_nat (len_ps - t)) by lia.
  rewrite <- !INR_IZR_INZ.
  rewrite <- sqrt_mult.
  - f_equal. field. lra.
  - apply Rmult_le_pos; [lra | left; now apply Rinv_0_lt_compat].
  - apply Rmult_le_pos; [lra | left; now apply Rinv_0_lt_compat].
Qed.

Lemma schedule_split (len_ps t : nat) :
  (t < len_ps)%nat ->
  sqrt (INR (len_ps - t) / INR len_ps) *
  - sin (theta_j (Z.of_nat len_ps - Z.of_nat t) / 2) =
  / sqrt (INR len_ps).
Proof.
  intros Ht.
  assert (Hj : (1 <= Z.of_nat len_ps - Z.of_nat t)%Z) by lia.
  rewrite (theta_j_sin _ Hj).
  assert (HN : 0 < INR len_ps) by (apply lt_0_INR; lia).
  assert (Hjp : 0 < INR (len_ps - t)) by (apply lt_0_INR; lia).
  replace (Z.of_nat len_ps - Z.of_nat t)%Z with (Z.of_nat (len_ps - t)) by lia.
  rewrite <- !INR_IZR_INZ.
  rewrite <- sqrt_mult.
  - rewrite <- sqrt_inv. f_equal. field. lra.
  - apply Rmult_le_pos; [lra | left; now apply Rinv_0_lt_compat].
  - left. now apply Rinv_0_lt_compat.
Qed.

(** ** Storing a list of patterns *)

Lemma superpos_notin (l : list (C * N)) (k : N) :
  (forall aK, In aK l -> snd aK <> k) -> superpos l k = C0.
Proof.
  induction l as [|aK l IH]; intros Hn; cbn [superpos]; [reflexivity|].
  unfold sadd, sscale. rewrite ket_diff by (intros E; apply (Hn aK); [now left | now symmetry]).
  rewrite IH by (intros aK' I; apply Hn; now right). Csolve.
Qed.

Lemma superpos_in (l : list (C * N)) (a : C) (K : N) :
  NoDup (map snd l) -> In (a, K) l -> superpos l K = a.
Proof.
  induction l as [|aK l IH]; intros Hnd Hin; [contradiction|].
  cbn [superpos map] in *. inversion Hnd as [|? ? Hfresh Hnd']; subst.
  unfold sadd, sscale. destruct Hin as [-> | Hin].
  - cbn [fst snd] in *. rewrite ket_same, superpos_notin; [Csolve|].
    intros aK' I E. apply Hfresh. rewrite <- E. now apply in_map.
  - rewrite ket_diff.
    + rewrite (IH Hnd' Hin). Csolve.
    + intros E. apply Hfresh. rewrite <- E. now apply (in_map snd _ (a, K)).
Qed.

Section Storage.
Variables (p m : list qubit) (u0 u1 : qubit).
Hypothesis Hnd : NoDup (p ++ u0 :: u1 :: m).
Hypothesis Hlen : length m = length p.

Local Abbreviation w := (length p).

Lemma reg_index_inj (v v' : N) :
  (v < 2 ^ N.of_nat w)%N -> (v' < 2 ^ N.of_nat w)%N ->
  reg_index m v = reg_index m v' -> v = v'.
Proof.
  intros Hv Hv' E. apply (lsb_bits_inj v v' w Hv Hv').
  unfold reg_index in E. rewrite Hlen in E.
  rewrite <- (bit_mask_read m (lsb_bits v w) (layout_m p m u0 u1 Hnd))
    by (rewrite lsb_bits_length; lia).
  rewrite <- (bit_mask_read m (lsb_bits v' w) (layout_m p m u0 u1 Hnd))
    by (rewrite lsb_bits_length; lia).
  now rewrite E.
Qed.

Lemma reg_index_u1 (v : N) : reg_index m v <> (2 ^ u1)%N.
Proof.
  intros E. apply (f_equal (fun k => N.testbit k u1)) in E.
  unfold reg_index in E.
  rewrite bit_mask_combine_notin in E by apply (layout_u1_m p m u0 u1 Hnd).
  now rewrite N.pow2_bits_eqb, N.eqb_refl in E.
Qed.

Lemma reg_index_bits_p (v : N) : reg_bits p (reg_index m v) = repeat false w.
Proof.
  unfold reg_bits, reg_index.
  apply (map_testbit_notin p m _ (layout_p_m p m u0 u1 Hnd)).
Qed.

Lemma reg_index_bits_m (v : N) : reg_bits m (reg_index m v) = lsb_bits v w.
Proof.
  unfold reg_bits, reg_index. rewrite Hlen.
  apply bit_mask_read; [apply (layout_m p m u0 u1 Hnd) | rewrite lsb_bits_length; lia].
Qed.

Lemma fresh_bits_p : reg_bits p (2 ^ u1) = repeat false w.
Proof.
  unfold reg_bits. rewrite <- (map_ext_in (fun _ => false)).
  - clear. induction p; simpl; congruence.
  - intros q Iq. rewrite N.pow2_bits_eqb. symmetry. apply N.eqb_neq.
    intros E. subst q. now apply (layout_u1_p p m u0 u1 Hnd).
Qed.

Lemma fresh_bits_m : reg_bits m (2 ^ u1) = repeat false (length m).
Proof.
  unfold reg_bits. rewrite <- (map_ext_in (fun _ => false)).
  - clear. induction m; simpl; congruence.
  - intros q Iq. rewrite N.pow2_bits_eqb. symmetry. apply N.eqb_neq.
    intros E. subst q. now apply (layout_u1_m p m u0 u1 Hnd).
Qed.

(** One more pattern: the iteration with position [length done] takes the
    memory state of [done] to that of [v :: done]. *)
Lemma storage_step_memory (len_ps : nat) (done : list N) (v : N) :
  (length done < len_ps)%nat ->
  Forall (fun q => (q < 2 ^ N.of_nat w)%N) (v :: done) ->
  ~ In v done ->
  run (storage_step_gates (theta_j (Z.of_nat len_ps - Z.of_nat (length done)))
         p u0 u1 m v)
      (memory_state len_ps m u1 done) =
  Some (memory_state len_ps m u1 (v :: done)).
Proof.
  intros Ht Hfit Hnew. unfold memory_state.
  inversion Hfit as [|? ? Hv Hdone]; subst.
  erewrite run_linear.
  2:{ apply (storage_step_fresh p m u0 u1 Hnd Hlen). }
  2:{ eapply run_superpos_fixed.
      - apply (storage_step_fresh p m u0 u1 Hnd Hlen).
      - intros aK I. apply in_map_iff in I. destruct I as (q & <- & Iq). cbn [snd].
        apply (storage_step_stored p m u0 u1 Hnd Hlen).
        intros E. apply Hnew.
        rewrite Forall_forall in Hdone.
        rewrite <- (lsb_bits_inj q v w (Hdone q Iq) Hv E). exact Iq. }
  f_equal. apply functional_extensionality. intros k.
  cbn [map superpos length fst snd]. unfold sadd, sscale.
  rewrite Cmult_plus_distr_l, !Cmult_assoc, !RtoC_mult.
  rewrite (schedule_keep len_ps (length done) Ht).
  rewrite (schedule_split len_ps (length done) Ht).
  Csolve.
Qed.

Lemma storage_gates_memory (len_ps : nat) (vals done : list N) :
  (length done + length vals <= len_ps)%nat ->
  Forall (fun q => (q < 2 ^ N.of_nat w)%N) (vals ++ done) ->
  NoDup (vals ++ done) ->
  run (storage_gates len_ps p u0 u1 m (length done) vals)
      (memory_state len_ps m u1 done) =
  Some (memory_state len_ps m u1 (rev vals ++ done)).
Proof.
  revert done. induction vals as [|v vals IH]; intros done Hl Hfit Hnd'.
  - reflexivity.
  - cbn [storage_gates]. rewrite run_app.
    cbn [app length] in *. inversion Hnd' as [|? ? Hv Hnd'']; subst.
    inversion Hfit as [|? ? Hfv Hfit']; subst.
    rewrite storage_step_memory.
    + change (S (length done)) with (length (v :: done)).
      rewrite IH.
      * cbn [rev]. now rewrite <- app_assoc.
      * simpl. lia.
      * apply Forall_app in Hfit'. destruct Hfit' as [F1 F2].
        apply Forall_app. split; [exact F1 | now constructor].
      * apply (Permutation_NoDup (Permutation_middle vals done v)).
        now constructor.
    + lia.
    + apply Forall_app in Hfit'. destruct Hfit' as [F1 F2]. now constructor.
    + intros I. apply Hv. apply in_or_app. now right.
Qed.

End Storage.

(** ** Retrieval on a matching basis state *)

Lemma apply_H_H (c : qubit) (psi : state) :
  apply_ctrl [] c H_mat (apply_ctrl [] c H_mat psi) = psi.
Proof.
  apply functional_extensionality. intros k. unfold apply_ctrl. cbn [forallb].
  rewrite flip_same, flip_flip.
  pose proof inv_sqrt2_sqr as E.
  destruct (N.testbit k c); cbn [negb H_mat m00 m01 m10 m11];
    destruct (psi k) as [xr xi], (psi (flip c k)) as [yr yi];
    apply C_eq; unfold Cplus, Cmult, RtoC; simpl.
  - replace (_ + _) with (2 * (/ sqrt 2 * / sqrt 2) * xr) by ring. rewrite E. field.
  - replace (_ + _) with (2 * (/ sqrt 2 * / sqrt 2) * xi) by ring. rewrite E. field.
  - replace (_ + _) with (2 * (/ sqrt 2 * / sqrt 2) * xr) by ring. rewrite E. field.
  - replace (_ + _) with (2 * (/ sqrt 2 * / sqrt 2) * xi) by ring. rewrite E. field.
Qed.

Lemma sadd_unit (psi phi : state) : sadd (sscale C0 phi) (sscale C1 psi) = psi.
Proof.
  apply functional_extensionality. intros k. unfold sadd, sscale. Csolve.
Qed.

(** The phase gate leaves a basis state whose target bit is 0. *)
Lemma phase_ket_zero (cs : list qubit) (theta : R) (q : qubit) (K : N) :
  ~ In q cs -> N.testbit K q = false ->
  apply_ctrl cs q (P_mat theta) (ket K) = ket K.
Proof.
  intros Hq Hb. rewrite apply_ctrl_ket by exact Hq. rewrite Hb.
  destruct (forallb (N.testbit K) cs); [|reflexivity].
  cbn [P_mat m10 m00]. apply sadd_unit.
Qed.

Lemma u_gates_ones (n : Z) (l : list qubit) (K : N) :
  Forall (fun q => N.testbit K q = true) l ->
  run (u_gates n l) (ket K) = Some (ket K).
Proof.
  intros Hl. induction Hl as [|q l Hq _ IH]; [reflexivity|].
  unfold u_gates. cbn [flat_map app]. fold (u_gates n l).
  rewrite run_classical_cons by exact I. cbn [gate_perm].
  rewrite (run_cons_action _ _ [] q (P_mat (PI / (2 * IZR n)))) by reflexivity.
  rewrite phase_ket_zero; [| intros [] | now rewrite flip_same, Hq].
  rewrite run_classical_cons by exact I. cbn [gate_perm].
  rewrite flip_flip. exact IH.
Qed.

Lemma cu_gates_ones (n : Z) (c : qubit) (l : list qubit) (K : N) :
  ~ In c l ->
  Forall (fun q => N.testbit K q = true) l ->
  run (cu_gates n c l) (ket K) = Some (ket K).
Proof.
  intros Hc Hl. induction Hl as [|q l Hq _ IH]; [reflexivity|].
  assert (Hcq : c <> q) by (intros E; apply Hc; now left).
  unfold cu_gates. cbn [flat_map app]. fold (cu_gates n c l).
  rewrite run_classical_cons by exact Hcq. cbn [gate_perm].
  rewrite (run_cons_action _ _ [c] q (P_mat (- PI / IZR n))) by reflexivity.
  destruct (N.testbit K c) eqn:Bc.
  - rewrite phase_ket_zero;
      [| intros [E|[]]; now apply Hcq | now rewrite flip_same, Hq].
    rewrite run_classical_cons by exact Hcq. cbn [gate_perm].
    rewrite flip_other by (intros E; now apply Hcq). rewrite Bc, flip_flip.
    apply IH. intros I'. apply Hc. now right.
  - rewrite apply_ctrl_ket by (intros [E|[]]; now apply Hcq).
    cbn [forallb]. rewrite Bc. cbn [andb].
    rewrite run_classical_cons by exact Hcq. cbn [gate_perm]. rewrite Bc.
    apply IH. intros I'. apply Hc. now right.
Qed.

Lemma lxor_lt_pow2 (a b e : N) :
  (a < 2 ^ e)%N -> (b < 2 ^ e)%N -> (N.lxor a b < 2 ^ e)%N.
Proof.
  intros Ha Hb.
  destruct (N.eq_dec (N.lxor a b) 0) as [E|E].
  - rewrite E. pose proof (N.pow_nonzero 2 e). lia.
  - apply N.log2_lt_pow2; [lia|].
    eapply N.le_lt_trans; [apply N.log2_lxor|].
    destruct (N.eq_dec a 0) as [-> | Ha0], (N.eq_dec b 0) as [-> | Hb0].
    + now rewrite N.lxor_0_l in E.
    + apply N.log2_lt_pow2 in Hb; [|lia]. simpl N.log2 at 1. lia.
    + apply N.log2_lt_pow2 in Ha; [|lia]. simpl N.log2 at 2. lia.
    + apply N.log2_lt_pow2 in Ha; [|lia]. apply N.log2_lt_pow2 in Hb; [|lia]. lia.
Qed.

Lemma bit_mask_lt (l : list (qubit * bool)) (e : N) :
  Forall (fun qb => (fst qb < e)%N) l -> (bit_mask l < 2 ^ e)%N.
Proof.
  intros Hl. induction Hl as [|[q b] l Hq _ IH]; cbn [bit_mask].
  - pose proof (N.pow_nonzero 2 e). lia.
  - apply lxor_lt_pow2; [|exact IH].
    destruct b; [apply N.pow_lt_mono_r; [lia | exact Hq]|].
    pose proof (N.pow_nonzero 2 e). lia.
Qed.

Lemma combine_fst_bound {B} (r : list qubit) (bs : list B) (e : N) :
  Forall (fun q => (q < e)%N) r ->
  Forall (fun qb : qubit * B => (fst qb < e)%N) (combine r bs).
Proof.
  intros Hr. apply Forall_forall. intros [q b] I. cbn [fst].
  rewrite Forall_forall in Hr. apply Hr. eapply in_combine_l; eassumption.
Qed.

Lemma prob_ket (n : nat) (sel : N -> bool) (K : N) :
  (K < 2 ^ N.of_nat n)%N ->
  prob n sel (ket K) = if sel K then 1 else 0.
Proof.
  intros HK. unfold prob.
  rewrite (sum_basis_ext n _ (fun k => if (k =? K)%N then (if sel K then 1 else 0) else 0)).
  - rewrite sum_basis_ket. apply N.ltb_lt in HK. now rewrite HK.
  - intros k. unfold ket. destruct (N.eqb_spec k K) as [-> | Hne].
    + destruct (sel K); [apply Cnorm2_C1 | reflexivity].
    + destruct (sel k); [apply Cnorm2_C0 | reflexivity].
Qed.

Section Retrieval.
Variables (p m : list qubit) (u0 u1 : qubit).
Hypothesis Hnd : NoDup (p ++ u0 :: u1 :: m).
Hypothesis Hlen : length m = length p.

Local Abbreviation w := (length p).
Local Abbreviation idx := (basis_index p u0 u1 m).

(** Between the two Hadamards a state in which the memory equals the
    query comes back unchanged: the detector sets every memory bit, on which
    the phase operator does nothing. *)
Lemma retrieval_middle_match (bs : list bool) (a b : bool) :
  length bs = w ->
  run (cmp_gates (combine p m) ++
       (u_gates (Z.of_nat (length m)) m ++ cu_gates (Z.of_nat (length m)) u0 m) ++
       uncmp_gates (rev (combine p m)))
      (ket (idx bs a b bs)) =
  Some (ket (idx bs a b bs)).
Proof using Hnd Hlen.
  intros Hb.
  rewrite run_classical_then by (apply (cmp_classical p m u0 u1 Hnd), incl_refl).
  rewrite (cmp_stage p m u0 u1 Hnd Hlen) by assumption.
  rewrite xor_bits_negb, Hb.
  assert (Hones : Forall (fun q => N.testbit (idx bs a b (repeat true w)) q = true) m).
  { apply Forall_forall. intros q Iq.
    pose proof (idx_read_m p m u0 u1 Hnd Hlen bs a b (repeat true w)
                  (repeat_length true w)) as R.
    pose proof (in_map (N.testbit (idx bs a b (repeat true w))) m q Iq) as I'.
    rewrite R in I'. now apply repeat_spec in I'. }
  rewrite !run_app.
  rewrite u_gates_ones by exact Hones.
  rewrite cu_gates_ones by (try apply (layout_u0_m p m u0 u1 Hnd); exact Hones).
  rewrite run_classical_ket
    by (apply (uncmp_classical p m u0 u1 Hnd), incl_rev_combine).
  rewrite (uncmp_rev_stage p m u0 u1 Hnd Hlen)
    by (rewrite ?repeat_length; auto).
  now rewrite xor_bits_true_negb' by exact Hb.
Qed.

(** Retrieval with control qubit [u0] returns a matching basis state. *)
Lemma retrieval_match (bs : list bool) (a b : bool) :
  length bs = w ->
  run (retrieval_gates p m u0) (ket (idx bs a b bs)) = Some (ket (idx bs a b bs)).
Proof using Hnd Hlen.
  intros Hb. unfold retrieval_gates. cbn [app].
  rewrite (run_cons_action _ _ [] u0 H_mat) by reflexivity.
  assert (M : run (cmp_gates (combine p m) ++
                   (u_gates (Z.of_nat (length m)) m ++
                    cu_gates (Z.of_nat (length m)) u0 m) ++
                   uncmp_gates (rev (combine p m)))
                (apply_ctrl [] u0 H_mat (ket (idx bs a b bs))) =
              Some (apply_ctrl [] u0 H_mat (ket (idx bs a b bs)))).
  { rewrite apply_ctrl_ket by (intros []). cbn [forallb].
    rewrite (idx_flip_u0 p m u0 u1).
    destruct (N.testbit (idx bs a b bs) u0);
      apply run_linear2; now apply retrieval_middle_match. }
  replace (cmp_gates (combine p m) ++
           (u_gates (Z.of_nat (length m)) m ++ cu_gates (Z.of_nat (length m)) u0 m) ++
           uncmp_gates (rev (combine p m)) ++ [HGate u0])
    with ((cmp_gates (combine p m) ++
           (u_gates (Z.of_nat (length m)) m ++ cu_gates (Z.of_nat (length m)) u0 m) ++
           uncmp_gates (rev (combine p m))) ++ [HGate u0])
    by (now rewrite <- !app_assoc).
  rewrite run_app, M.
  rewrite (run_cons_action _ _ [] u0 H_mat) by reflexivity.
  cbn [run]. now rewrite apply_H_H.
Qed.

End Retrieval.

(** ** Diagonal circuits *)

Lemma diagonal_nil : diagonal_circuit [].
Proof.
  exists (fun _ => C1). split; [intros; apply Cnorm2_C1|].
  intros psi. cbn [run]. f_equal. apply functional_extensionality. intros k.
  now rewrite Cmult_1_l.
Qed.

Lemma diagonal_app (c1 c2 : QuantumCircuit) :
  diagonal_circuit c1 -> diagonal_circuit c2 -> diagonal_circuit (c1 ++ c2).
Proof.
  intros (d1 & N1 & R1) (d2 & N2 & R2).
  exists (fun k => (d2 k * d1 k)%C). split.
  - intros k. now rewrite Cnorm2_mult, N1, N2, Rmult_1_l.
  - intros psi. rewrite run_app, R1, R2. f_equal.
    apply functional_extensionality. intros k. now rewrite Cmult_assoc.
Qed.

Lemma diagonal_phase (cs : list qubit) (theta : R) (q : qubit) (g : gate) :
  gate_action g = Some (cs, q, P_mat theta) -> diagonal_circuit [g].
Proof.
  intros Hg.
  exists (fun k => if forallb (N.testbit k) cs && N.testbit k q
                   then Cexp_i theta else C1).
  split.
  - intros k. destruct (forallb (N.testbit k) cs && N.testbit k q);
      [apply Cnorm2_Cexp_i | apply Cnorm2_C1].
  - intros psi. rewrite (run_cons_action g [] cs q (P_mat theta)) by exact Hg.
    cbn [run]. f_equal. apply functional_extensionality. intros k.
    unfold apply_ctrl. cbn [P_mat m00 m01 m10 m11].
    destruct (forallb (N.testbit k) cs); cbn [andb]; [|now rewrite Cmult_1_l].
    destruct (N.testbit k q); Csolve.
Qed.

Lemma diagonal_conj (g : gate) (qc : QuantumCircuit) :
  classical g -> diagonal_circuit qc -> diagonal_circuit (g :: qc ++ [g]).
Proof.
  intros Hc (d & Nd & Rd).
  exists (fun k => d (gate_perm g k)). split; [intros k; apply Nd|].
  intros psi. cbn [run]. rewrite apply_classical by exact Hc.
  rewrite run_app, Rd. cbn [run]. rewrite apply_classical by exact Hc.
  f_equal. apply functional_extensionality. intros k.
  now rewrite gate_perm_invol.
Qed.

Lemma diagonal_sandwich (L D : QuantumCircuit) :
  Forall classical L -> diagonal_circuit D -> diagonal_circuit (L ++ D ++ rev L).
Proof.
  intros HL HD. induction HL as [|g L Hg _ IH].
  - cbn [app rev]. now rewrite app_nil_r.
  - cbn [app rev]. rewrite !app_assoc. rewrite <- (app_assoc L D (rev L)).
    now apply diagonal_conj.
Qed.

Lemma diagonal_u_gates (n : Z) (l : list qubit) : diagonal_circuit (u_gates n l).
Proof.
  induction l as [|q l IH]; [apply diagonal_nil|].
  unfold u_gates. cbn [flat_map]. fold (u_gates n l).
  apply diagonal_app; [|exact IH].
  apply (diagonal_conj (XGate q) [PhaseGate (Num (PI / (2 * IZR n))) q] I).
  now apply (diagonal_phase [] (PI / (2 * IZR n)) q).
Qed.

Lemma diagonal_cu_gates (n : Z) (c : qubit) (l : list qubit) :
  ~ In c l -> diagonal_circuit (cu_gates n c l).
Proof.
  induction l as [|q l IH]; intros Hc; [apply diagonal_nil|].
  unfold cu_gates. cbn [flat_map]. fold (cu_gates n c l).
  apply diagonal_app; [|apply IH; intros I'; apply Hc; now right].
  apply (diagonal_conj (CXGate c q) [CPhaseGate (Num (- PI / IZR n)) c q]).
  - cbn [classical]. intros E. apply Hc. now left.
  - now apply (diagonal_phase [c] (- PI / IZR n) q).
Qed.

Lemma cmp_gates_rev (l : list (qubit * qubit)) :
  rev (cmp_gates l) = uncmp_gates (rev l).
Proof.
  unfold cmp_gates, uncmp_gates. induction l as [|at_ l IH]; [reflexivity|].
  cbn [flat_map rev]. rewrite rev_app_distr, IH, flat_map_app.
  cbn [flat_map rev app]. rewrite ?app_nil_r. reflexivity.
Qed.

Lemma cmp_classical_pairs (l : list (qubit * qubit)) :
  Forall (fun at_ : qubit * qubit => fst at_ <> snd at_) l ->
  Forall classical (cmp_gates l).
Proof.
  intros Hl. unfold cmp_gates. apply Forall_flat_map.
  eapply Forall_impl; [|exact Hl]. intros [a t] Hat.
  constructor; [exact Hat | constructor; [exact I | constructor]].
Qed.

Lemma diagonal_prob (n : nat) (sel : N -> bool) (d : N -> C) (psi : state) :
  (forall k, Cnorm2 (d k) = 1) ->
  prob n sel (fun k => (d k * psi k)%C) = prob n sel psi.
Proof.
  intros Nd. unfold prob. apply sum_basis_ext. intros k.
  destruct (sel k); [|reflexivity]. now rewrite Cnorm2_mult, Nd, Rmult_1_l.
Qed.

(** Between its two Hadamards, retrieval only multiplies amplitudes by
    phases. *)
Lemma retrieval_middle_diagonal (i m : list qubit) (c : qubit) :
  Forall (fun at_ : qubit * qubit => fst at_ <> snd at_) (combine i m) ->
  ~ In c m ->
  diagonal_circuit
    (cmp_gates (combine i m) ++
     (u_gates (Z.of_nat (length m)) m ++ cu_gates (Z.of_nat (length m)) c m) ++
     uncmp_gates (rev (combine i m))).
Proof.
  intros Hp Hc. rewrite <- cmp_gates_rev.
  apply diagonal_sandwich; [now apply cmp_classical_pairs|].
  apply diagonal_app; [apply diagonal_u_gates | now apply diagonal_cu_gates].
Qed.

(** Retrieval keeps the probability of every set of basis states that does
    not depend on the control qubit. *)
Lemma retrieval_prob (n : nat) (i m : list qubit) (c : qubit)
    (sel : N -> bool) (psi : state) :
  Forall (fun at_ : qubit * qubit => fst at_ <> snd at_) (combine i m) ->
  ~ In c m -> (c < N.of_nat n)%N ->
  (forall k, sel (flip c k) = sel k) ->
  exists psi', run (retrieval_gates i m c) psi = Some psi' /\
               prob n sel psi' = prob n sel psi.
Proof.
  intros Hp Hc Hn Hsel.
  destruct (retrieval_middle_diagonal i m c Hp Hc) as (d & Nd & Rd).
  assert (WH : wf_gate n (HGate c)).
  { unfold wf_gate. cbn [gate_action]. repeat split; [exact Hn | intros [] | constructor]. }
  assert (SH : forall cs t U k, gate_action (HGate c) = Some (cs, t, U) ->
                                sel (flip t k) = sel k).
  { intros cs t U k E. cbn [gate_action] in E. inversion E; subst. apply Hsel. }
  destruct (apply_gate_prob n (HGate c) sel psi WH SH) as (psi1 & E1 & P1).
  destruct (apply_gate_prob n (HGate c) sel (fun k => (d k * psi1 k)%C) WH SH)
    as (psi2 & E2 & P2).
  exists psi2. split.
  - unfold retrieval_gates. cbn [app run]. rewrite E1.
    replace (cmp_gates (combine i m) ++
             (u_gates (Z.of_nat (length m)) m ++ cu_gates (Z.of_nat (length m)) c m) ++
             uncmp_gates (rev (combine i m)) ++ [HGate c])
      with ((cmp_gates (combine i m) ++
             (u_gates (Z.of_nat (length m)) m ++ cu_gates (Z.of_nat (length m)) c m) ++
             uncmp_gates (rev (combine i m))) ++ [HGate c])
      by (now rewrite <- !app_assoc).
    rewrite run_app, Rd. cbn [run]. now rewrite E2.
  - rewrite P2, diagonal_prob by exact Nd. exact P1.
Qed.

(** ** Well-formed circuits keep the norm *)

Lemma run_wf_norm (n : nat) (qc : QuantumCircuit) (psi : state) :
  Forall (wf_gate n) qc ->
  exists psi', run qc psi = Some psi' /\ norm2 n psi' = norm2 n psi.
Proof.
  intros Hwf. revert psi. induction Hwf as [|g qc Hg _ IH]; intros psi.
  - exists psi. now split.
  - destruct (apply_gate_norm2 n g psi Hg) as (psi1 & E1 & N1).
    destruct (IH psi1) as (psi2 & E2 & N2).
    exists psi2. split; [cbn [run]; now rewrite E1 | now rewrite N2].
Qed.

Lemma wf_gate_intro (n : nat) (g : gate) cs t U :
  gate_action g = Some (cs, t, U) ->
  (t < N.of_nat n)%N -> ~ In t cs -> Forall (fun c => (c < N.of_nat n)%N) cs ->
  wf_gate n g.
Proof. intros E Ht Hcs Hb. unfold wf_gate. rewrite E. now repeat split. Qed.

Lemma wf_x_gates (n : nat) (r : list qubit) (bs : list bool) :
  Forall (fun q => (q < N.of_nat n)%N) r -> Forall (wf_gate n) (x_gates r bs).
Proof.
  intros Hr. unfold x_gates. apply Forall_flat_map. apply Forall_forall.
  intros [q b] Iq. cbn [fst snd]. destruct b; [|constructor].
  constructor; [|constructor].
  apply (wf_gate_intro n (XGate q) [] q X_mat eq_refl); [|intros []|constructor].
  rewrite Forall_forall in Hr. apply Hr. eapply in_combine_l; eassumption.
Qed.

Lemma wf_u_gates (n : nat) (z : Z) (l : list qubit) :
  Forall (fun q => (q < N.of_nat n)%N) l -> Forall (wf_gate n) (u_gates z l).
Proof.
  intros Hl. unfold u_gates. apply Forall_flat_map.
  eapply Forall_impl; [|exact Hl]. intros q Hq.
  assert (Hn : ~ In q []) by (intros []).
  constructor; [|constructor; [|constructor; [|constructor]]].
  - now apply (wf_gate_intro n (XGate q) [] q X_mat eq_refl).
  - now apply (wf_gate_intro n (PhaseGate (Num (PI / (2 * IZR z))) q) [] q
                 (P_mat (PI / (2 * IZR z))) eq_refl).
  - now apply (wf_gate_intro n (XGate q) [] q X_mat eq_refl).
Qed.

Lemma Forall_tail_in {A} (P : A -> Prop) (c : A) (l : list A) :
  Forall P l -> In c l -> P c.
Proof. intros Hl I. rewrite Forall_forall in Hl. now apply Hl. Qed.

Lemma wf_cu_gates (n : nat) (z : Z) (c : qubit) (l : list qubit) :
  (c < N.of_nat n)%N -> ~ In c l ->
  Forall (fun q => (q < N.of_nat n)%N) l -> Forall (wf_gate n) (cu_gates z c l).
Proof.
  intros Hc Hn Hl. unfold cu_gates. apply Forall_flat_map. apply Forall_forall.
  intros q Iq.
  assert (Hq : (q < N.of_nat n)%N)
    by exact (Forall_tail_in (fun q' => (q' < N.of_nat n)%N) q l Hl Iq).
  assert (Hne : ~ In q [c]) by (intros [E|[]]; apply Hn; now rewrite E).
  assert (Hcs : Forall (fun c' => (c' < N.of_nat n)%N) [c]) by now constructor.
  constructor; [|constructor; [|constructor; [|constructor]]].
  - now apply (wf_gate_intro n (CXGate c q) [c] q X_mat eq_refl).
  - now apply (wf_gate_intro n (CPhaseGate (Num (- PI / IZR z)) c q) [c] q
                 (P_mat (- PI / IZR z)) eq_refl).
  - now apply (wf_gate_intro n (CXGate c q) [c] q X_mat eq_refl).
Qed.

Lemma wf_pair_gates (n : nat) (G : qubit * qubit -> QuantumCircuit)
    (l : list (qubit * qubit)) :
  (forall a t, (a < N.of_nat n)%N -> (t < N.of_nat n)%N -> a <> t ->
               Forall (wf_gate n) (G (a, t))) ->
  Forall (fun at_ : qubit * qubit =>
            (fst at_ < N.of_nat n)%N /\ (snd at_ < N.of_nat n)%N /\ fst at_ <> snd at_) l ->
  Forall (wf_gate n) (flat_map G l).
Proof.
  intros HG Hl. apply Forall_flat_map. eapply Forall_impl; [|exact Hl].
  intros [a t] (Ha & Ht & Hne). now apply HG.
Qed.

Lemma store_then_retrieve_ok (ps : list Z) (query : Z) (i u m : list qubit)
    (u0 u1 c : qubit) qc :
  (length i <= length m)%nat ->
  nth_error u 0 = Some u0 -> nth_error u 1 = Some u1 ->
  Forall (fun val => (Z.abs_N val < 2 ^ N.of_nat (length i))%N) ps ->
  (Z.abs_N query < 2 ^ N.of_nat (length i))%N ->
  store_then_retrieve ps query i u m c qc =
  (Ok tt, qc ++ experiment_gates ps query i u0 u1 m c).
Proof.
  intros Hlen H0 H1 Hps Hq. unfold store_then_retrieve, experiment_gates.
  erewrite bind_ok
    by (erewrite bind_ok by (apply getitem_ok; exact H1); reflexivity).
  erewrite bind_ok by (apply (storage_algorithm_ok ps i u m u0 u1); assumption).
  erewrite bind_ok by (apply apply_pauli_ok; exact Hq).
  rewrite retrieval_algorithm_ok by exact Hlen.
  now rewrite <- !app_assoc.
Qed.

Lemma Forall_app_intro {A} (P : A -> Prop) (l1 l2 : list A) :
  Forall P l1 -> Forall P l2 -> Forall P (l1 ++ l2).
Proof. intros H1 H2. apply Forall_app. now split. Qed.

Section WellFormed.
Variables (n : nat) (p m : list qubit) (u0 u1 : qubit).
Hypothesis Hnd : NoDup (p ++ u0 :: u1 :: m).
Hypothesis Hlen : length m = length p.
Hypothesis Hbound : Forall (fun q => (q < N.of_nat n)%N) (p ++ u0 :: u1 :: m).

Lemma bound_p : Forall (fun q => (q < N.of_nat n)%N) p.
Proof using Hbound. now apply Forall_app in Hbound. Qed.

Lemma bound_u0 : (u0 < N.of_nat n)%N.
Proof using Hbound.
  apply Forall_app in Hbound. destruct Hbound as [_ Hu].
  now inversion Hu.
Qed.

Lemma bound_u1 : (u1 < N.of_nat n)%N.
Proof using Hbound.
  apply Forall_app in Hbound. destruct Hbound as [_ Hu].
  inversion Hu as [|? ? _ Hu1]. now inversion Hu1.
Qed.

Lemma bound_m : Forall (fun q => (q < N.of_nat n)%N) m.
Proof using Hbound.
  apply Forall_app in Hbound. destruct Hbound as [_ Hu].
  inversion Hu as [|? ? _ Hu1]. now inversion Hu1.
Qed.

Lemma bound_pairs (l : list (qubit * qubit)) :
  incl l (combine p m) ->
  Forall (fun at_ : qubit * qubit =>
            (fst at_ < N.of_nat n)%N /\ (snd at_ < N.of_nat n)%N /\ fst at_ <> snd at_) l.
Proof using Hnd Hbound.
  intros Hl. apply Forall_forall. intros [a t] I.
  destruct (pair_in p m l a t Hl I) as [Ia It]. cbn [fst snd]. repeat split.
  - exact (Forall_tail_in (fun q => (q < N.of_nat n)%N) a p bound_p Ia).
  - exact (Forall_tail_in (fun q => (q < N.of_nat n)%N) t m bound_m It).
  - intros E. apply (layout_p_m p m u0 u1 Hnd a Ia). now rewrite E.
Qed.

Lemma wf_ccx_gates (l : list (qubit * qubit)) :
  incl l (combine p m) -> Forall (wf_gate n) (ccx_gates u1 l).
Proof using Hnd Hbound.
  intros Hl. unfold ccx_gates. apply Forall_flat_map. apply Forall_forall.
  intros [a t] I. cbn [fst snd].
  destruct (pair_in p m l a t Hl I) as [Ia It].
  constructor; [|constructor].
  apply (wf_gate_intro n (CCXGate a u1 t) [a; u1] t X_mat eq_refl).
  - exact (Forall_tail_in (fun q => (q < N.of_nat n)%N) t m bound_m It).
  - intros [E|[E|[]]].
    + apply (layout_p_m p m u0 u1 Hnd a Ia). now rewrite E.
    + apply (layout_u1_m p m u0 u1 Hnd). now rewrite E.
  - constructor; [|constructor; [apply bound_u1 | constructor]].
    exact (Forall_tail_in (fun q => (q < N.of_nat n)%N) a p bound_p Ia).
Qed.

Lemma wf_cmp_gates (l : list (qubit * qubit)) :
  incl l (combine p m) -> Forall (wf_gate n) (cmp_gates l).
Proof using Hnd Hbound.
  intros Hl. unfold cmp_gates. apply wf_pair_gates; [|now apply bound_pairs].
  intros a t Ha Ht Hne. cbn [fst snd].
  assert (Hn : ~ In t [a]) by (intros [E|[]]; now apply Hne).
  assert (Hcs : Forall (fun c' => (c' < N.of_nat n)%N) [a]) by now constructor.
  constructor; [|constructor; [|constructor]].
  - now apply (wf_gate_intro n (CXGate a t) [a] t X_mat eq_refl).
  - apply (wf_gate_intro n (XGate t) [] t X_mat eq_refl); [exact Ht | intros [] | constructor].
Qed.

Lemma wf_uncmp_gates (l : list (qubit * qubit)) :
  incl l (combine p m) -> Forall (wf_gate n) (uncmp_gates l).
Proof using Hnd Hbound.
  intros Hl. unfold uncmp_gates. apply wf_pair_gates; [|now apply bound_pairs].
  intros a t Ha Ht Hne. cbn [fst snd].
  assert (Hn : ~ In t [a]) by (intros [E|[]]; now apply Hne).
  assert (Hcs : Forall (fun c' => (c' < N.of_nat n)%N) [a]) by now constructor.
  constructor; [|constructor; [|constructor]].
  - apply (wf_gate_intro n (XGate t) [] t X_mat eq_refl); [exact Ht | intros [] | constructor].
  - now apply (wf_gate_intro n (CXGate a t) [a] t X_mat eq_refl).
Qed.

Lemma wf_mcx : wf_gate n (MCXGate m u0).
Proof using Hnd Hbound.
  apply (wf_gate_intro n (MCXGate m u0) m u0 X_mat eq_refl).
  - apply bound_u0.
  - apply (layout_u0_m p m u0 u1 Hnd).
  - apply bound_m.
Qed.

Lemma wf_cry (theta : R) : wf_gate n (CRYGate (Num theta) u0 u1).
Proof using Hnd Hbound.
  apply (wf_gate_intro n (CRYGate (Num theta) u0 u1) [u0] u1 (RY_mat theta) eq_refl).
  - apply bound_u1.
  - intros [E|[]]. now apply (layout_u p m u0 u1 Hnd).
  - constructor; [apply bound_u0 | constructor].
Qed.

Lemma wf_storage_step_gates (theta : R) (v : N) :
  Forall (wf_gate n) (storage_step_gates theta p u0 u1 m v).
Proof using Hnd Hbound.
  unfold storage_step_gates.
  apply Forall_app_intro; [|apply Forall_app_intro; [|apply Forall_app_intro;
    [|apply Forall_app_intro; [|apply Forall_app_intro; [|apply Forall_app_intro]]]]].
  - apply wf_x_gates, bound_p.
  - apply wf_ccx_gates, incl_refl.
  - apply wf_cmp_gates, incl_refl.
  - constructor; [apply wf_mcx|]. constructor; [apply wf_cry|].
    constructor; [apply wf_mcx | constructor].
  - apply wf_uncmp_gates, incl_rev_combine.
  - apply wf_ccx_gates, incl_rev_combine.
  - apply wf_x_gates, bound_p.
Qed.

Lemma wf_storage_gates (len_ps idx : nat) (vals : list N) :
  Forall (wf_gate n) (storage_gates len_ps p u0 u1 m idx vals).
Proof using Hnd Hbound.
  revert idx. induction vals as [|v vals IH]; intros idx; [constructor|].
  cbn [storage_gates]. apply Forall_app. split;
    [apply wf_storage_step_gates | apply IH].
Qed.

Lemma wf_retrieval_gates (c : qubit) :
  (c < N.of_nat n)%N -> ~ In c m ->
  Forall (wf_gate n) (retrieval_gates p m c).
Proof using Hnd Hbound.
  intros Hc Hcm.
  assert (WH : wf_gate n (HGate c)).
  { apply (wf_gate_intro n (HGate c) [] c H_mat eq_refl);
      [exact Hc | intros [] | constructor]. }
  unfold retrieval_gates.
  apply Forall_app_intro; [|apply Forall_app_intro; [|apply Forall_app_intro;
    [apply Forall_app_intro|apply Forall_app_intro]]].
  - constructor; [exact WH | constructor].
  - apply wf_cmp_gates, incl_refl.
  - apply wf_u_gates, bound_m.
  - apply wf_cu_gates; [exact Hc | exact Hcm | apply bound_m].
  - apply wf_uncmp_gates, incl_rev_combine.
  - constructor; [exact WH | constructor].
Qed.

Lemma wf_experiment_gates (ps : list Z) (query : Z) (c : qubit) :
  (c < N.of_nat n)%N -> ~ In c m ->
  Forall (wf_gate n) (experiment_gates ps query p u0 u1 m c).
Proof using Hnd Hbound.
  intros Hc Hcm. unfold experiment_gates.
  apply Forall_app_intro; [|apply Forall_app_intro; [|apply Forall_app_intro]].
  - constructor; [|constructor].
    apply (wf_gate_intro n (XGate u1) [] u1 X_mat eq_refl);
      [apply bound_u1 | intros [] | constructor].
  - apply wf_storage_gates.
  - apply wf_x_gates, bound_p.
  - now apply wf_retrieval_gates.
Qed.

End WellFormed.

(** ** The memory state *)

Lemma memory_state_nil (len_ps : nat) (m : list qubit) (u1 : qubit) :
  (0 < len_ps)%nat -> memory_state len_ps m u1 [] = ket (2 ^ u1).
Proof.
  intros Hl. unfold memory_state. cbn [length map superpos].
  rewrite Nat.sub_0_r.
  assert (HN : 0 < INR len_ps) by (apply lt_0_INR; lia).
  replace (INR len_ps / INR len_ps) with 1 by (field; lra).
  rewrite sqrt_1. apply functional_extensionality. intros k.
  unfold sadd, sscale. Csolve.
Qed.

Lemma memory_state_single (m : list qubit) (u1 : qubit) (v : N) :
  memory_state 1 m u1 [v] = ket (reg_index m v).
Proof.
  unfold memory_state. cbn [length map superpos Nat.sub fst snd].
  replace (INR 0 / INR 1) with 0 by (simpl; field).
  rewrite sqrt_0. replace (INR 1) with 1 by reflexivity.
  rewrite sqrt_1, Rinv_1. apply functional_extensionality. intros k.
  unfold sadd, sscale. Csolve.
Qed.

Lemma storage_gates_split (len_ps : nat) (p : list qubit) (u0 u1 : qubit)
    (m : list qubit) (idx : nat) (l1 l2 : list N) :
  storage_gates len_ps p u0 u1 m idx (l1 ++ l2) =
  storage_gates len_ps p u0 u1 m idx l1 ++
  storage_gates len_ps p u0 u1 m (idx + length l1) l2.
Proof.
  revert idx. induction l1 as [|v l1 IH]; intros idx; cbn [app storage_gates length].
  - now rewrite Nat.add_0_r.
  - rewrite IH, <- app_assoc. do 3 f_equal. lia.
Qed.

Section Memory.
Variables (p m : list qubit) (u0 u1 : qubit).
Hypothesis Hnd : NoDup (p ++ u0 :: u1 :: m).
Hypothesis Hlen : length m = length p.

Local Abbreviation w := (length p).

Lemma stored_entries_nodup (len_ps : nat) (done : list N) :
  Forall (fun q => (q < 2 ^ N.of_nat w)%N) done -> NoDup done ->
  NoDup (map snd (map (fun v => (RtoC (/ sqrt (INR len_ps)), reg_index m v)) done)).
Proof using Hnd Hlen.
  intros Hfit Hd. rewrite map_map. cbn [snd].
  induction Hd as [|v done Hv Hd IH]; [constructor|].
  inversion Hfit as [|? ? Hfv Hfit']; subst.
  cbn [map]. constructor; [|now apply IH].
  intros I. apply in_map_iff in I. destruct I as (v' & E & I').
  rewrite Forall_forall in Hfit'.
  apply (reg_index_inj p m u0 u1 Hnd Hlen v' v (Hfit' v' I') Hfv) in E.
  subst v'. contradiction.
Qed.

Lemma memory_state_at_fresh (len_ps : nat) (done : list N) :
  memory_state len_ps m u1 done (2 ^ u1)%N =
  RtoC (sqrt (INR (len_ps - length done) / INR len_ps)).
Proof using Hnd.
  unfold memory_state, sadd, sscale. rewrite ket_same.
  rewrite superpos_notin; [Csolve|].
  intros aK I. apply in_map_iff in I. destruct I as (v & <- & _). cbn [snd].
  apply (reg_index_u1 p m u0 u1 Hnd).
Qed.

Lemma memory_state_at_stored (len_ps : nat) (done : list N) (v : N) :
  Forall (fun q => (q < 2 ^ N.of_nat w)%N) done -> NoDup done -> In v done ->
  memory_state len_ps m u1 done (reg_index m v) = RtoC (/ sqrt (INR len_ps)).
Proof using Hnd Hlen.
  intros Hfit Hd Hin. unfold memory_state, sadd, sscale.
  rewrite ket_diff by apply (reg_index_u1 p m u0 u1 Hnd).
  rewrite (superpos_in _ (RtoC (/ sqrt (INR len_ps))) (reg_index m v)).
  - Csolve.
  - now apply stored_entries_nodup.
  - apply in_map_iff. now exists v.
Qed.

Lemma memory_state_support (len_ps : nat) (done : list N) (k : N) :
  memory_state len_ps m u1 done k <> C0 ->
  k = (2 ^ u1)%N \/ exists v, In v done /\ k = reg_index m v.
Proof using.
  intros Hk.
  destruct (N.eq_dec k (2 ^ u1)) as [E|E]; [now left | right].
  destruct (in_dec N.eq_dec k (map (reg_index m) done)) as [I|I].
  - apply in_map_iff in I. destruct I as (v & <- & Iv). now exists v.
  - exfalso. apply Hk. unfold memory_state, sadd, sscale.
    rewrite ket_diff by exact E. rewrite superpos_notin; [Csolve|].
    intros aK I'. apply in_map_iff in I'. destruct I' as (v & <- & Iv). cbn [snd].
    intros E'. apply I. rewrite <- E'. now apply in_map.
Qed.

(** The circuit [storage_algorithm] builds, cut after its first [t]
    iterations, and the state after them. *)
Lemma storage_prefix_state (ps : list Z) (u : list qubit) (t : nat) :
  nth_error u 0 = Some u0 -> nth_error u 1 = Some u1 ->
  Forall (fun val => (Z.abs_N val < 2 ^ N.of_nat w)%N) ps ->
  NoDup (map Z.abs_N ps) ->
  (t <= length ps)%nat -> (0 < length ps)%nat ->
  storage_algorithm ps p u m [] =
    (Ok tt, storage_gates (length ps) p u0 u1 m 0 (firstn t (map Z.abs_N ps)) ++
            storage_gates (length ps) p u0 u1 m t (skipn t (map Z.abs_N ps))) /\
  run (storage_gates (length ps) p u0 u1 m 0 (firstn t (map Z.abs_N ps))) (ket (2 ^ u1)) =
    Some (memory_state (length ps) m u1 (rev (firstn t (map Z.abs_N ps)))).
Proof using Hnd Hlen.
  intros H0 H1 Hfit Hd Ht Hpos.
  set (vals := map Z.abs_N ps) in *.
  assert (Hfv : Forall (fun q => (q < 2 ^ N.of_nat w)%N) vals).
  { unfold vals. apply Forall_map. exact Hfit. }
  assert (Hlv : length vals = length ps) by (unfold vals; apply length_map).
  split.
  - rewrite (storage_algorithm_ok ps p u m u0 u1 []) by (auto; lia).
    cbn [app]. fold vals. f_equal.
    rewrite <- (firstn_skipn t vals) at 1.
    rewrite storage_gates_split. do 2 f_equal.
    rewrite length_firstn. lia.
  - rewrite <- (memory_state_nil (length ps) m u1 Hpos).
    change 0%nat with (length (@nil N)) at 1.
    rewrite (storage_gates_memory p m u0 u1 Hnd Hlen).
    + now rewrite app_nil_r.
    + rewrite length_firstn. simpl. lia.
    + rewrite app_nil_r. rewrite <- (firstn_skipn t vals) in Hfv.
      now apply Forall_app in Hfv.
    + rewrite app_nil_r. rewrite <- (firstn_skipn t vals) in Hd.
      now apply NoDup_app_remove_r in Hd.
Qed.

End Memory.

(** ** Probabilities *)

Lemma norm2_ket (n : nat) (K : N) : (K < 2 ^ N.of_nat n)%N -> norm2 n (ket K) = 1.
Proof. intros HK. rewrite <- prob_all. now rewrite prob_ket. Qed.

Lemma prob_compl (n : nat) (sel : N -> bool) (psi : state) :
  prob n sel psi + prob n (fun k => negb (sel k)) psi = norm2 n psi.
Proof.
  unfold prob, norm2. rewrite <- sum_basis_plus. apply sum_basis_ext.
  intros k. destruct (sel k); simpl; ring.
Qed.

(** A state whose only basis state with [sel] is [K]. *)
Lemma prob_single (n : nat) (sel : N -> bool) (psi : state) (K : N) :
  (K < 2 ^ N.of_nat n)%N -> sel K = true ->
  (forall k, sel k = true -> psi k <> C0 -> k = K) ->
  prob n sel psi = Cnorm2 (psi K).
Proof.
  intros HK HsK Hs. unfold prob.
  rewrite (sum_basis_ext n _ (fun k => if (k =? K)%N then Cnorm2 (psi K) else 0)).
  - rewrite sum_basis_ket. apply N.ltb_lt in HK. now rewrite HK.
  - intros k. destruct (N.eqb_spec k K) as [-> | Hne]; [now rewrite HsK|].
    destruct (sel k) eqn:Sk; [|reflexivity].
    destruct (Req_dec_T (fst (psi k)) 0) as [E1|E1];
      [destruct (Req_dec_T (snd (psi k)) 0) as [E2|E2]|].
    + unfold Cnorm2. rewrite E1, E2. ring.
    + exfalso. apply Hne. apply (Hs k Sk). intros E. rewrite E in E2. now apply E2.
    + exfalso. apply Hne. apply (Hs k Sk). intros E. rewrite E in E1. now apply E1.
Qed.

Lemma reg_bits_flip (r : list qubit) (c : qubit) (k : N) :
  ~ In c r -> reg_bits r (flip c k) = reg_bits r k.
Proof.
  intros Hc. unfold reg_bits. apply map_ext_in. intros q Iq.
  apply flip_other. intros E. apply Hc. now rewrite E.
Qed.

Lemma basis_index_lt (n : nat) (p m : list qubit) (u0 u1 : qubit)
    (x : list bool) (a b : bool) (y : list bool) :
  Forall (fun q => (q < N.of_nat n)%N) (p ++ u0 :: u1 :: m) ->
  (basis_index p u0 u1 m x a b y < 2 ^ N.of_nat n)%N.
Proof.
  intros Hb. apply Forall_app in Hb. destruct Hb as [Hp Hu].
  inversion Hu as [|? ? Hu0 Hu']; subst. inversion Hu' as [|? ? Hu1 Hm]; subst.
  unfold basis_index. apply lxor_lt_pow2; [apply lxor_lt_pow2|].
  - apply bit_mask_lt. now apply combine_fst_bound.
  - apply bit_mask_lt. constructor; [exact Hu0 | constructor; [exact Hu1 | constructor]].
  - apply bit_mask_lt. now apply combine_fst_bound.
Qed.

(** ** Bit-flip circuits on arbitrary states *)

Lemma run_classical (qc : QuantumCircuit) (psi : state) :
  Forall classical qc ->
  run qc psi = Some (fun k => psi (circuit_perm (rev qc) k)).
Proof.
  intros Hc. revert psi. induction Hc as [|g qc Hg _ IH]; intros psi.
  - reflexivity.
  - cbn [run rev]. rewrite apply_classical by exact Hg. rewrite IH. f_equal.
    apply functional_extensionality. intros k. now rewrite circuit_perm_app.
Qed.

Lemma x_only_perm (qc : QuantumCircuit) (k : N) :
  Forall (fun g => exists q, g = XGate q) qc ->
  circuit_perm qc k = N.lxor k (circuit_perm qc 0).
Proof.
  intros Hx. revert k. induction Hx as [|g qc [q ->] _ IH]; intros k.
  - cbn [circuit_perm]. now rewrite N.lxor_0_r.
  - cbn [circuit_perm gate_perm]. rewrite (IH (flip q k)), (IH (flip q 0%N)).
    unfold flip. lxor_solve.
Qed.

Lemma x_gates_x_only (r : list qubit) (bs : list bool) :
  Forall (fun g => exists q, g = XGate q) (x_gates r bs).
Proof.
  unfold x_gates. apply Forall_flat_map. apply Forall_forall. intros [q b] _.
  cbn [fst snd]. destruct b; [|constructor].
  constructor; [now exists q | constructor].
Qed.

(** Encoding twice is the identity on every state. *)
Lemma x_gates_twice (r : list qubit) (bs : list bool) (psi : state) :
  run (x_gates r bs ++ x_gates r bs) psi = Some psi.
Proof.
  rewrite run_classical
    by (apply Forall_app; split; apply x_gates_classical).
  f_equal. apply functional_extensionality. intros k. f_equal.
  rewrite rev_app_distr, circuit_perm_app.
  assert (Hx : Forall (fun g => exists q, g = XGate q) (rev (x_gates r bs)))
    by (apply Forall_rev, x_gates_x_only).
  rewrite (x_only_perm _ (circuit_perm _ k) Hx), (x_only_perm _ k Hx).
  lxor_solve.
Qed.

(** The loop of [apply_pauli_from_int] stops at the first '1' that has no
    qubit, with the flips appended so far. *)
Lemma pauli_loop_raise_at (qubits : list qubit) (chars : list ascii) (s : nat) qc (j : nat) :
  nth j (map is_one chars) false = true -> (length qubits <= s + j)%nat ->
  for_each (combine (seq s (length chars)) chars) (pauli_body qubits) qc =
  (Raise IndexError, qc ++ x_gates (skipn s qubits) (map is_one chars)).
Proof.
  revert s qc j. induction chars as [|c chars IH]; intros s qc j Hj Hlen.
  - destruct j; discriminate.
  - cbn [length seq combine for_each map].
    unfold pauli_body at 1. cbn [fst snd]. fold (is_one c).
    destruct (is_one c) eqn:Ec.
    + destruct (nth_error qubits s) as [q|] eqn:Eq.
      * rewrite (bind_ok _ _ qc tt (qc ++ [XGate q])).
        2:{ rewrite (bind_ok _ _ _ _ _ (getitem_ok _ _ _ _ Eq)). reflexivity. }
        destruct j as [|j].
        -- assert (nth_error qubits s <> None) as L by congruence.
           apply nth_error_Some in L. lia.
        -- simpl in Hj. rewrite (IH (S s) _ j Hj) by lia.
           rewrite (skipn_nth_error _ _ _ Eq), x_gates_cons.
           now rewrite <- app_assoc.
      * rewrite (bind_raise _ _ qc IndexError qc).
        -- apply nth_error_None in Eq. rewrite skipn_all2 by lia.
           now rewrite x_gates_nil_l, app_nil_r.
        -- now rewrite (bind_raise _ _ _ _ _ (getitem_raise _ _ _ Eq)).
    + rewrite (bind_ok _ _ qc tt qc) by reflexivity.
      destruct j as [|j]; [simpl in Hj; congruence|].
      simpl in Hj. rewrite (IH (S s) _ j Hj) by lia.
      destruct (nth_error qubits s) as [q|] eqn:Eq.
      * rewrite (skipn_nth_error _ _ _ Eq). reflexivity.
      * apply nth_error_None in Eq. rewrite !skipn_all2 by lia. reflexivity.
Qed.

Lemma apply_pauli_overflow_at (value : Z) (qubits : list qubit) qc :
  (2 ^ N.of_nat (length qubits) <= Z.abs_N value)%N ->
  apply_pauli_from_int value qubits qc =
  (Raise IndexError, qc ++ x_gates qubits (lsb_bits (Z.abs_N value) (length qubits))).
Proof.
  intros Hv. rewrite apply_pauli_unfold. unfold enumerate.
  assert (Hpos : (0 < Z.abs_N value)%N).
  { pose proof (N.pow_nonzero 2 (N.of_nat (length qubits))). lia. }
  rewrite (pauli_loop_raise_at qubits _ 0 qc (N.to_nat (N.log2 (Z.abs_N value)))).
  - simpl skipn. f_equal. f_equal. rewrite x_gates_canon. f_equal.
    unfold lsb_bits. apply map_ext. intros j. apply format_0b_bits.
  - rewrite format_0b_bits, Nnat.N2Nat.id. apply N.bit_log2. lia.
  - simpl. apply N.log2_le_pow2 in Hv; [|exact Hpos]. lia.
Qed.

(** ** Retrieval and the memory register *)

Lemma layout_pairs_distinct (p m : list qubit) (u0 u1 : qubit) :
  NoDup (p ++ u0 :: u1 :: m) ->
  Forall (fun at_ : qubit * qubit => fst at_ <> snd at_) (combine p m).
Proof.
  intros Hnd. apply Forall_forall. intros [a t] I. cbn [fst snd]. intros E.
  apply (layout_p_m p m u0 u1 Hnd a).
  - eapply in_combine_l; eassumption.
  - rewrite E. eapply in_combine_r; eassumption.
Qed.

(** Whatever the state, retrieval leaves the distribution of the memory
    register as it found it. *)
Lemma retrieval_marginal (n : nat) (i m : list qubit) (c : qubit)
    (bs : list bool) (psi : state) :
  (length i <= length m)%nat ->
  Forall (fun at_ : qubit * qubit => fst at_ <> snd at_) (combine i m) ->
  ~ In c m -> (c < N.of_nat n)%N ->
  exists psi',
    retrieval_algorithm i m c [] = (Ok tt, retrieval_gates i m c) /\
    run (retrieval_gates i m c) psi = Some psi' /\
    prob_reg n m bs psi' = prob_reg n m bs psi.
Proof.
  intros Hlen Hp Hc Hn.
  destruct (retrieval_prob n i m c
              (fun k => if list_eq_dec Bool.bool_dec (reg_bits m k) bs then true else false)
              psi Hp Hc Hn) as (psi' & E & P).
  - intros k. now rewrite reg_bits_flip.
  - exists psi'. repeat split; [|exact E|exact P].
    now rewrite retrieval_algorithm_ok.
Qed.

(** ** The registers of [run_quantum_memory] *)

Lemma driver_layout : NoDup ([0; 1; 2] ++ 3 :: 4 :: [5; 6; 7])%N.
Proof.
  repeat (constructor; [simpl; intuition discriminate|]). constructor.
Qed.

Lemma driver_bound :
  Forall (fun q => (q < N.of_nat 8)%N) ([0; 1; 2] ++ 3 :: 4 :: [5; 6; 7])%N.
Proof. repeat (constructor; [simpl; lia|]). constructor. Qed.

Lemma driver_not_in_m : ~ In 3%N [5; 6; 7]%N.
Proof. simpl. intuition discriminate. Qed.

(** [run_quantum_memory] is the experiment with patterns [1, 4], query 4
    and control qubit [u[0]]. *)
Lemma run_quantum_memory_experiment :
  run_quantum_memory [] =
  store_then_retrieve [1; 4]%Z 4%Z [0; 1; 2]%N [3; 4]%N [5; 6; 7]%N 3%N [].
Proof.
  assert (Hfit : Forall (fun val => (Z.abs_N val < 2 ^ N.of_nat 3)%N) [1; 4]%Z)
    by (repeat constructor).
  rewrite (store_then_retrieve_ok [1; 4]%Z 4%Z [0; 1; 2]%N [3; 4]%N [5; 6; 7]%N
             3%N 4%N 3%N []); [|simpl; lia|reflexivity|reflexivity|exact Hfit|simpl; lia].
  unfold run_quantum_memory, experiment_gates.
  erewrite bind_ok by reflexivity.
  erewrite bind_ok
    by (apply (storage_algorithm_ok [1; 4]%Z [0; 1; 2]%N [3; 4]%N [5; 6; 7]%N 3%N 4%N);
        [simpl; lia | reflexivity | reflexivity | exact Hfit]).
  erewrite bind_ok by reflexivity.
  erewrite bind_ok by reflexivity.
  rewrite retrieval_algorithm_ok by (simpl; lia).
  rewrite <- !app_assoc. reflexivity.
Qed.

(** ** Branches of the memory state *)

Lemma C_eq_dec (a b : C) : {a = b} + {a <> b}.
Proof.
  destruct a as [ar ai], b as [br bi].
  destruct (Req_dec_T ar br) as [-> | Hr]; [|right; congruence].
  destruct (Req_dec_T ai bi) as [-> | Hi]; [now left | right; congruence].
Qed.

Lemma Cnorm2_RtoC_sqrt (x : R) : 0 <= x -> Cnorm2 (RtoC (sqrt x)) = x.
Proof.
  intros Hx. unfold Cnorm2, RtoC. cbn [fst snd]. rewrite sqrt_sqrt by exact Hx. ring.
Qed.

Section Branches.
Variables (p m : list qubit) (u0 u1 : qubit).
Hypothesis Hnd : NoDup (p ++ u0 :: u1 :: m).
Hypothesis Hlen : length m = length p.

(** Where the memory state has amplitude: the pattern register is clear;
    with [u1] set the memory register is clear, with [u1] clear it holds a
    stored pattern. *)
Lemma memory_state_bits (len_ps : nat) (done : list N) (k : N) :
  memory_state len_ps m u1 done k <> C0 ->
  reg_bits p k = repeat false (length p) /\
  if N.testbit k u1
  then reg_bits m k = repeat false (length m)
  else exists v, In v done /\ reg_bits m k = lsb_bits v (length m).
Proof using Hnd Hlen.
  intros Hk. destruct (memory_state_support m u1 len_ps done k Hk) as [-> | (v & Iv & ->)].
  - split; [apply (fresh_bits_p p m u0 u1 Hnd)|].
    rewrite N.pow2_bits_eqb, N.eqb_refl. apply (fresh_bits_m p m u0 u1 Hnd).
  - split; [apply (reg_index_bits_p p m u0 u1 Hnd)|].
    unfold reg_index at 1.
    rewrite bit_mask_combine_notin by apply (layout_u1_m p m u0 u1 Hnd).
    exists v. split; [exact Iv|]. rewrite Hlen.
    apply (reg_index_bits_m p m u0 u1 Hnd Hlen).
Qed.

Lemma memory_state_register_zero (len_ps : nat) (done : list N) :
  register_zero p (memory_state len_ps m u1 done).
Proof using Hnd Hlen.
  intros k Hk.
  destruct (C_eq_dec (memory_state len_ps m u1 done k) C0) as [E|E]; [exact E|].
  exfalso. apply Hk. now apply (memory_state_bits len_ps done k).
Qed.

(** The weight of the stored branch ([u1] clear) of a normalized memory
    state. *)
Lemma memory_state_stored_weight (n len_ps : nat) (done : list N) :
  (u1 < N.of_nat n)%N ->
  (length done <= len_ps)%nat -> (0 < len_ps)%nat ->
  norm2 n (memory_state len_ps m u1 done) = 1 ->
  prob_qubit n u1 false (memory_state len_ps m u1 done) =
  INR (length done) / INR len_ps.
Proof using Hnd Hlen.
  intros Hu Hl Hpos Hnorm.
  set (psi := memory_state len_ps m u1 done) in *.
  pose proof (prob_compl n (fun k => Bool.eqb (N.testbit k u1) false) psi) as Hc.
  fold (prob_qubit n u1 false psi) in Hc.
  assert (HN : 0 < INR len_ps) by (apply lt_0_INR; lia).
  assert (Hx : 0 <= INR (len_ps - length done) / INR len_ps).
  { apply Rmult_le_pos; [apply pos_INR | left; now apply Rinv_0_lt_compat]. }
  rewrite (prob_single n _ psi (2 ^ u1)) in Hc.
  - unfold psi in Hc at 2. rewrite (memory_state_at_fresh p m u0 u1 Hnd) in Hc.
    rewrite Cnorm2_RtoC_sqrt in Hc by exact Hx.
    rewrite Hnorm in Hc. rewrite minus_INR in Hc by exact Hl.
    apply (Rplus_eq_reg_r ((INR len_ps - INR (length done)) / INR len_ps)).
    rewrite Hc. field. lra.
  - apply N.pow_lt_mono_r; [lia | exact Hu].
  - now rewrite N.pow2_bits_eqb, N.eqb_refl.
  - intros k Sk Hk. unfold psi in Hk.
    destruct (memory_state_support m u1 len_ps done k Hk) as [-> | (v & Iv & ->)];
      [reflexivity|].
    exfalso. unfold reg_index in Sk.
    rewrite bit_mask_combine_notin in Sk by apply (layout_u1_m p m u0 u1 Hnd).
    discriminate Sk.
Qed.

End Branches.

Lemma In_firstn {A} (t : nat) (l : list A) (x : A) : In x (firstn t l) -> In x l.
Proof.
  intros I. rewrite <- (firstn_skipn t l). apply in_or_app. now left.
Qed.

(** ** Storage of any list of patterns *)

Section Restore.
Variables (p m : list qubit) (u0 u1 : qubit).
Hypothesis Hnd : NoDup (p ++ u0 :: u1 :: m).
Hypothesis Hlen : length m = length p.

Local Abbreviation w := (length p).
Local Abbreviation idx := (basis_index p u0 u1 m).
Local Abbreviation zeros := (repeat false (length p)).
Local Abbreviation ones := (repeat true (length p)).

(** On the basis state that holds the pattern [v] itself, the iteration for
    [v] is the rotation back towards the starting state. *)
Lemma storage_step_same (theta : R) (v : N) :
  run (storage_step_gates theta p u0 u1 m v) (ket (reg_index m v)) =
  Some (sadd (sscale (RtoC (sin (theta / 2))) (ket (2 ^ u1)))
             (sscale (RtoC (cos (theta / 2))) (ket (reg_index m v)))).
Proof using Hnd Hlen.
  unfold storage_step_gates.
  set (bs := lsb_bits v w).
  assert (Hb : length bs = w) by apply lsb_bits_length.
  rewrite <- (idx_stored p m u0 u1 Hlen). fold bs.
  rewrite run_classical_then by apply x_gates_classical.
  rewrite (x_stage p m u0 u1) by (rewrite ?repeat_length; auto).
  rewrite xor_bits_false_l' by assumption.
  rewrite run_classical_then by (apply (ccx_classical p m u0 u1 Hnd), incl_refl).
  rewrite (ccx_stage p m u0 u1 Hnd Hlen) by auto.
  rewrite map_andb_false, Hb. rewrite xor_bits_false_r' by assumption.
  rewrite run_classical_then by (apply (cmp_classical p m u0 u1 Hnd), incl_refl).
  rewrite (cmp_stage p m u0 u1 Hnd Hlen) by assumption.
  rewrite xor_bits_negb, Hb.
  cbn [app].
  rewrite run_classical_cons by (apply (layout_u0_m p m u0 u1 Hnd)).
  change (gate_perm (MCXGate m u0) (idx bs false false ones))
    with (circuit_perm [MCXGate m u0] (idx bs false false ones)).
  rewrite (mcx_stage p m u0 u1 Hnd Hlen) by apply repeat_length.
  rewrite forallb_repeat_true. cbn [negb].
  rewrite (run_cons_action _ _ [u0] u1 (RY_mat theta)) by reflexivity.
  rewrite apply_ctrl_ket.
  2:{ intros [E|[]]. now apply (layout_u p m u0 u1 Hnd). }
  cbn [forallb]. rewrite (idx_read_u0 p m u0 u1 Hnd Hlen), (idx_read_u1 p m u0 u1 Hnd Hlen).
  cbn [andb RY_mat m00 m10].
  rewrite (idx_flip_u1 p m u0 u1). cbn [negb].
  erewrite run_linear2.
  - reflexivity.
  - rewrite uncompute_half by (rewrite ?repeat_length; auto using forallb_repeat_true).
    rewrite xor_bits_same, Hb, map_andb_true.
    rewrite xor_bits_true_negb' by assumption.
    rewrite xor_bits_same, Hb.
    rewrite (idx_fresh p m u0 u1). reflexivity.
  - rewrite uncompute_half by (rewrite ?repeat_length; auto using forallb_repeat_true).
    rewrite xor_bits_same, Hb, map_andb_false, Hb.
    rewrite xor_bits_true_negb' by assumption.
    rewrite xor_bits_false_r' by assumption.
    unfold bs. rewrite (idx_stored p m u0 u1 Hlen). reflexivity.
Qed.

End Restore.

Lemma theta_2_half : cos (theta_j 2 / 2) = / sqrt 2 /\ sin (theta_j 2 / 2) = - / sqrt 2.
Proof.
  pose proof (theta_j_cos 2 ltac:(lia)) as Hc.
  pose proof (theta_j_sin 2 ltac:(lia)) as Hs.
  change (2 - 1)%Z with 1%Z in Hc.
  replace (1 / 2) with (/ 2) in Hc by field.
  rewrite sqrt_inv in Hc, Hs. split; [exact Hc|lra].
Qed.

Lemma theta_1_half : cos (theta_j 1 / 2) = 0 /\ sin (theta_j 1 / 2) = -1.
Proof.
  rewrite theta_j_1. replace (- PI / 2) with (- (PI / 2)) by field.
  rewrite cos_neg, sin_neg, cos_PI2, sin_PI2. split; reflexivity.
Qed.


Lemma superpos_app (l1 l2 : list (C * N)) :
  superpos (l1 ++ l2) = sadd (superpos l1) (superpos l2).
Proof.
  induction l1 as [|aK l1 IH]; cbn [app superpos].
  - apply functional_extensionality. intros k. unfold sadd. Csolve.
  - rewrite IH. apply functional_extensionality. intros k. unfold sadd, sscale.
    apply C_eq; unfold Cplus; cbn [fst snd]; ring.
Qed.

Lemma superpos_scale (a : C) (l : list (C * N)) :
  sscale a (superpos l) =
  superpos (map (fun bK : C * N => ((a * fst bK)%C, snd bK)) l).
Proof.
  induction l as [|bK l IH]; cbn [map superpos fst snd].
  - apply functional_extensionality. intros k. unfold sscale. Csolve.
  - rewrite <- IH. apply functional_extensionality. intros k. unfold sadd, sscale.
    apply C_eq; unfold Cplus, Cmult; cbn [fst snd]; ring.
Qed.

Lemma superpos_single (K : N) : superpos [(C1, K)] = ket K.
Proof.
  cbn [superpos fst snd]. apply functional_extensionality. intros k.
  unfold sadd, sscale. Csolve.
Qed.

Lemma superpos_pair (a b : C) (K L : N) :
  superpos [(a, K); (b, L)] = sadd (sscale a (ket K)) (sscale b (ket L)).
Proof.
  cbn [superpos fst snd]. apply functional_extensionality. intros k.
  unfold sadd, sscale. Csolve.
Qed.

Lemma superpos_support (l : list (C * N)) (k : N) :
  superpos l k <> C0 -> In k (map snd l).
Proof.
  intros Hk. destruct (in_dec N.eq_dec k (map snd l)) as [I|NI]; [exact I|].
  exfalso. apply Hk. apply superpos_notin. intros aK HaK E. apply NI.
  rewrite <- E. now apply in_map.
Qed.

Section AnyPatterns.
Variables (p m : list qubit) (u0 u1 : qubit).
Hypothesis Hnd : NoDup (p ++ u0 :: u1 :: m).
Hypothesis Hlen : length m = length p.

Local Abbreviation w := (length p).
Local Abbreviation reached done :=
  (Forall (fun aK : C * N => In (snd aK) (stored_indices m u1 done))).

(** One iteration on a basis state that storage can reach: the result is a
    superposition of such states. *)
Lemma storage_step_reached_ket (theta : R) (v : N) (done : list N) (K : N) :
  In K (stored_indices m u1 done) ->
  exists l, run (storage_step_gates theta p u0 u1 m v) (ket K) = Some (superpos l) /\
            reached (v :: done) l.
Proof using Hnd Hlen.
  intros [<- | HK].
  - exists [(RtoC (- sin (theta / 2)), reg_index m v); (RtoC (cos (theta / 2)), (2 ^ u1)%N)].
    split.
    + rewrite superpos_pair. apply (storage_step_fresh p m u0 u1 Hnd Hlen).
    + constructor; [right; now left|]. constructor; [now left|constructor].
  - apply in_map_iff in HK. destruct HK as (q & <- & Hq).
    destruct (list_eq_dec Bool.bool_dec (lsb_bits q w) (lsb_bits v w)) as [E | NE].
    + assert (Eq : reg_index m q = reg_index m v).
      { unfold reg_index. rewrite Hlen. now rewrite E. }
      rewrite Eq.
      exists [(RtoC (sin (theta / 2)), (2 ^ u1)%N); (RtoC (cos (theta / 2)), reg_index m v)].
      split.
      * rewrite superpos_pair. apply (storage_step_same p m u0 u1 Hnd Hlen theta v).
      * constructor; [now left|]. constructor; [right; now left|constructor].
    + exists [(C1, reg_index m q)]. split.
      * rewrite superpos_single.
        apply (storage_step_stored p m u0 u1 Hnd Hlen theta v q NE).
      * constructor; [|constructor]. cbn [snd]. right. right. now apply in_map.
Qed.

Lemma reached_scale (a : C) (done : list N) (l : list (C * N)) :
  reached done l -> reached done (map (fun bK : C * N => ((a * fst bK)%C, snd bK)) l).
Proof. intros H. apply Forall_map. exact H. Qed.

Lemma storage_step_reached (theta : R) (v : N) (done : list N) (l : list (C * N)) :
  reached done l ->
  exists l', run (storage_step_gates theta p u0 u1 m v) (superpos l) = Some (superpos l') /\
             reached (v :: done) l'.
Proof using Hnd Hlen.
  induction l as [|[a K] l IH]; intros Hl.
  - exists []. split; [|constructor]. cbn [superpos].
    exact (run_zero _ _ _ (storage_step_fresh p m u0 u1 Hnd Hlen theta v)).
  - apply Forall_cons_iff in Hl. destruct Hl as [HK Hl]. cbn [snd] in HK.
    destruct (storage_step_reached_ket theta v done K HK) as (lK & RK & HlK).
    destruct (IH Hl) as (l' & Rl & Hl').
    exists (map (fun bK : C * N => ((a * fst bK)%C, snd bK)) lK ++ l'). split.
    + cbn [superpos fst snd]. rewrite (run_linear _ _ _ _ _ _ RK Rl).
      now rewrite superpos_app, superpos_scale.
    + apply Forall_app. split; [now apply reached_scale|exact Hl'].
Qed.

Lemma reached_incl (done done' : list N) (l : list (C * N)) :
  incl done done' -> reached done l -> reached done' l.
Proof.
  intros Hi H. eapply Forall_impl; [|exact H]. intros aK [E | HaK].
  - now left.
  - right. apply in_map_iff in HaK. destruct HaK as (q & <- & Hq).
    apply in_map. now apply Hi.
Qed.

Lemma storage_gates_reached (len_ps : nat) (vals : list N) (idx : nat)
    (done : list N) (l : list (C * N)) :
  reached done l ->
  exists l', run (storage_gates len_ps p u0 u1 m idx vals) (superpos l) =
               Some (superpos l') /\
             reached (rev vals ++ done) l'.
Proof using Hnd Hlen.
  revert idx done l. induction vals as [|v vals IH]; intros idx done l Hl.
  - exists l. split; [reflexivity|exact Hl].
  - cbn [storage_gates]. rewrite run_app.
    destruct (storage_step_reached (theta_j (Z.of_nat len_ps - Z.of_nat idx)) v done l Hl)
      as (l1 & R1 & H1).
    rewrite R1. destruct (IH (S idx) (v :: done) l1 H1) as (l2 & R2 & H2).
    exists l2. split; [exact R2|].
    cbn [rev]. now rewrite <- app_assoc.
Qed.

(** What the registers hold in a basis state that storage can reach. *)
Lemma stored_indices_bits (done : list N) (k : N) :
  In k (stored_indices m u1 done) ->
  reg_bits p k = repeat false (length p) /\
  if N.testbit k u1
  then reg_bits m k = repeat false (length m)
  else exists v, In v done /\ reg_bits m k = lsb_bits v (length m).
Proof using Hnd Hlen.
  intros [<- | Hk].
  - split; [apply (fresh_bits_p p m u0 u1 Hnd)|].
    rewrite N.pow2_bits_eqb, N.eqb_refl. apply (fresh_bits_m p m u0 u1 Hnd).
  - apply in_map_iff in Hk. destruct Hk as (v & <- & Iv).
    split; [apply (reg_index_bits_p p m u0 u1 Hnd)|].
    unfold reg_index at 1.
    rewrite bit_mask_combine_notin by apply (layout_u1_m p m u0 u1 Hnd).
    exists v. split; [exact Iv|]. rewrite Hlen.
    apply (reg_index_bits_m p m u0 u1 Hnd Hlen).
Qed.

(** Storing any patterns from the starting state: the circuit runs, the
    pattern register ends at zero, and the memory register is zero where
    [u1] is set and holds one of the patterns where it is clear. *)
Lemma storage_any_patterns (len_ps : nat) (vals : list N) :
  exists psi,
    run (storage_gates len_ps p u0 u1 m 0 vals) (ket (2 ^ u1)) = Some psi /\
    register_zero p psi /\
    forall k, psi k <> C0 ->
      if N.testbit k u1
      then reg_bits m k = repeat false (length m)
      else exists v, In v vals /\ reg_bits m k = lsb_bits v (length m).
Proof using Hnd Hlen.
  destruct (storage_gates_reached len_ps vals 0 [] [(C1, (2 ^ u1)%N)]) as (l & R & Hl).
  { constructor; [now left|constructor]. }
  rewrite superpos_single in R. rewrite app_nil_r in Hl.
  assert (Hbits : forall k, superpos l k <> C0 -> In k (stored_indices m u1 (rev vals))).
  { intros k Hk. apply superpos_support in Hk. apply in_map_iff in Hk.
    destruct Hk as (aK & <- & HaK). rewrite Forall_forall in Hl. now apply Hl. }
  exists (superpos l). split; [exact R|]. split.
  - intros k Hk. destruct (C_eq_dec (superpos l k) C0) as [E|NE]; [exact E|].
    exfalso. apply Hk. now apply (stored_indices_bits (rev vals) k (Hbits k NE)).
  - intros k Hk. destruct (stored_indices_bits (rev vals) k (Hbits k Hk)) as [_ Hm].
    destruct (N.testbit k u1); [exact Hm|].
    destruct Hm as (v & Iv & Ev). exists v. split; [now apply in_rev|exact Ev].
Qed.

(** The list [[v; v]]: the second iteration takes the stored pattern back
    to the starting state. *)
Lemma storage_twice_run (v : N) :
  run (storage_gates 2 p u0 u1 m 0 [v; v]) (ket (2 ^ u1)) =
  Some (sadd (sscale (RtoC (/ sqrt 2)) (ket (reg_index m v)))
             (sscale (RtoC (- / sqrt 2)) (ket (2 ^ u1)))).
Proof using Hnd Hlen.
  cbn [storage_gates].
  change (Z.of_nat 2 - Z.of_nat 0)%Z with 2%Z.
  change (Z.of_nat 2 - Z.of_nat 1)%Z with 1%Z.
  rewrite app_nil_r, run_app.
  rewrite (storage_step_fresh p m u0 u1 Hnd Hlen).
  destruct theta_2_half as [C2 S2]. destruct theta_1_half as [C1' S1].
  rewrite (run_linear2 _ _ _ _ _ _ _
             (storage_step_same p m u0 u1 Hnd Hlen (theta_j 1) v)
             (storage_step_fresh p m u0 u1 Hnd Hlen (theta_j 1) v)).
  f_equal. apply functional_extensionality. intros k.
  unfold sadd, sscale. rewrite C2, S2, C1', S1.
  apply C_eq; unfold Cplus, Cmult, RtoC; cbn [fst snd]; ring.
Qed.

End AnyPatterns.

(** * The claims *)

(** C1, as stated, fails: with the registers of [run_quantum_memory] and
    [u1] pre-set, storing the single pattern 1 leaves the memory register
    holding 1 with amplitude 1, not |000>. *)
Lemma C1_memory_register_not_cleared :
  ~ (forall psi : state,
       run (snd (storage_algorithm [1%Z] [0; 1; 2]%N [3; 4]%N [5; 6; 7]%N []))
           (ket (2 ^ 4)) = Some psi ->
       register_zero [5; 6; 7]%N psi).
Proof.
  intros H.
  destruct (storage_prefix_state [0; 1; 2]%N [5; 6; 7]%N 3%N 4%N driver_layout eq_refl
              [1%Z] [3; 4]%N 1) as [Eb Er];
    [reflexivity | reflexivity | repeat constructor
    | repeat constructor; simpl; tauto | simpl; lia | simpl; lia |].
  cbn [length map Z.abs_N firstn skipn storage_gates] in Eb, Er.
  rewrite app_nil_r in Eb.
  rewrite Eb in H. cbn [snd] in H. specialize (H _ Er).
  cbn [rev app] in H.
  specialize (H (reg_index [5; 6; 7]%N 1)).
  rewrite (memory_state_at_stored [0; 1; 2]%N [5; 6; 7]%N 3%N 4%N driver_layout eq_refl)
    in H; [| repeat constructor | repeat constructor; simpl; tauto | now left].
  assert (E : RtoC (/ sqrt (INR 1)) = C0).
  { apply H. vm_compute. discriminate. }
  apply (f_equal fst) in E. cbn [fst RtoC C0] in E.
  replace (INR 1) with 1 in E by reflexivity.
  rewrite sqrt_1, Rinv_1 in E. lra.
Qed.

(** C1, amended: for every per-pattern run of the storage sequence ([u1]
    pre-set to |1>, patterns that fit the register, repeated or not, pattern
    register, [u0] and memory register all zero at the start), after the
    sequence for the [t]-th pattern completes the pattern register P is back
    at |0...0>: every basis state in which P is not all-zero has amplitude
    zero.  The memory register M is not: it is all-zero in the branch where
    [u1] is still |1>, and holds one of the patterns loaded so far in the
    branch where [u1] is |0>; when the patterns are distinct each of them is
    there with amplitude [1/sqrt(number of patterns)].  Retrieval leaves the
    distribution of M as it found it, whatever it was. *)
Theorem C1_pattern_register_restored (p m u : list qubit) (u0 u1 : qubit)
    (ps : list Z) (t : nat) :
  NoDup (p ++ u0 :: u1 :: m) -> length m = length p ->
  nth_error u 0 = Some u0 -> nth_error u 1 = Some u1 ->
  Forall (fun val => (Z.abs_N val < 2 ^ N.of_nat (length p))%N) ps ->
  (1 <= t <= length ps)%nat ->
  exists psi : state,
    storage_algorithm ps p u m [] =
      (Ok tt, storage_gates (length ps) p u0 u1 m 0 (firstn t (map Z.abs_N ps)) ++
              storage_gates (length ps) p u0 u1 m t (skipn t (map Z.abs_N ps))) /\
    run (storage_gates (length ps) p u0 u1 m 0 (firstn t (map Z.abs_N ps)))
        (ket (2 ^ u1)) = Some psi /\
    register_zero p psi /\
    (forall k, psi k <> C0 ->
       if N.testbit k u1
       then reg_bits m k = repeat false (length m)
       else exists v, In v (firstn t (map Z.abs_N ps)) /\
                      reg_bits m k = lsb_bits v (length m)) /\
    (NoDup (map Z.abs_N ps) ->
     forall v, In v (firstn t (map Z.abs_N ps)) ->
       psi (reg_index m v) = RtoC (/ sqrt (INR (length ps))) /\
       reg_bits m (reg_index m v) = lsb_bits v (length m)) /\
    (forall (n : nat) (c : qubit) (bs : list bool) (phi : state),
       (c < N.of_nat n)%N -> ~ In c m ->
       exists phi',
         retrieval_algorithm p m c [] = (Ok tt, retrieval_gates p m c) /\
         run (retrieval_gates p m c) phi = Some phi' /\
         prob_reg n m bs phi' = prob_reg n m bs phi).
Proof.
  intros Hnd Hlen H0 H1 Hfit [Ht1 Ht2].
  set (vals := map Z.abs_N ps).
  assert (Hlv : length vals = length ps) by (unfold vals; apply length_map).
  destruct (storage_any_patterns p m u0 u1 Hnd Hlen (length ps) (firstn t vals))
    as (psi & R & Hz & Hs).
  exists psi. split; [|split; [exact R|split; [exact Hz|split; [exact Hs|split]]]].
  - rewrite (storage_algorithm_ok ps p u m u0 u1 []) by (auto; lia).
    cbn [app]. fold vals. f_equal.
    rewrite <- (firstn_skipn t vals) at 1.
    rewrite storage_gates_split. do 2 f_equal.
    rewrite length_firstn. lia.
  - intros Hd v Iv.
    destruct (storage_prefix_state p m u0 u1 Hnd Hlen ps u t H0 H1 Hfit Hd Ht2
                ltac:(lia)) as [_ Er].
    fold vals in Er, Hd. rewrite R in Er. injection Er as ->.
    assert (Hfv : Forall (fun q => (q < 2 ^ N.of_nat (length p))%N) (firstn t vals)).
    { apply Forall_forall. intros v' Iv'. apply In_firstn in Iv'.
      unfold vals in Iv'. apply in_map_iff in Iv'. destruct Iv' as (val & <- & Ival).
      rewrite Forall_forall in Hfit. now apply Hfit. }
    assert (Hdv : NoDup (firstn t vals)).
    { rewrite <- (firstn_skipn t vals) in Hd. now apply NoDup_app_remove_r in Hd. }
    split.
    + apply (memory_state_at_stored p m u0 u1 Hnd Hlen).
      * now apply Forall_rev.
      * now apply NoDup_rev.
      * now apply in_rev in Iv.
    + rewrite Hlen. apply (reg_index_bits_m p m u0 u1 Hnd Hlen).
  - intros n c bs phi Hc Hcm.
    apply retrieval_marginal; [lia | | exact Hcm | exact Hc].
    now apply (layout_pairs_distinct p m u0 u1).
Qed.

Lemma C1_pattern_register_restored_witness :
  exists psi : state,
    storage_algorithm [5; 5]%Z [0; 1; 2]%N [3; 4]%N [5; 6; 7]%N [] =
      (Ok tt, storage_gates 2 [0; 1; 2]%N 3%N 4%N [5; 6; 7]%N 0 [5%N; 5%N] ++
              storage_gates 2 [0; 1; 2]%N 3%N 4%N [5; 6; 7]%N 2 []) /\
    run (storage_gates 2 [0; 1; 2]%N 3%N 4%N [5; 6; 7]%N 0 [5%N; 5%N]) (ket (2 ^ 4)) =
      Some psi /\
    register_zero [0; 1; 2]%N psi /\
    (forall k, psi k <> C0 ->
       if N.testbit k 4
       then reg_bits [5; 6; 7]%N k = [false; false; false]
       else exists v, In v [5%N; 5%N] /\ reg_bits [5; 6; 7]%N k = lsb_bits v 3) /\
    (NoDup [5%N; 5%N] ->
     forall v, In v [5%N; 5%N] ->
       psi (reg_index [5; 6; 7]%N v) = RtoC (/ sqrt (INR 2)) /\
       reg_bits [5; 6; 7]%N (reg_index [5; 6; 7]%N v) = lsb_bits v 3) /\
    (forall (n : nat) (c : qubit) (bs : list bool) (phi : state),
       (c < N.of_nat n)%N -> ~ In c [5; 6; 7]%N ->
       exists phi',
         retrieval_algorithm [0; 1; 2]%N [5; 6; 7]%N c [] =
           (Ok tt, retrieval_gates [0; 1; 2]%N [5; 6; 7]%N c) /\
         run (retrieval_gates [0; 1; 2]%N [5; 6; 7]%N c) phi = Some phi' /\
         prob_reg n [5; 6; 7]%N bs phi' = prob_reg n [5; 6; 7]%N bs phi).
Proof.
  apply (C1_pattern_register_restored [0; 1; 2]%N [5; 6; 7]%N [3; 4]%N 3%N 4%N
           [5; 5]%Z 2).
  - exact driver_layout.
  - reflexivity.
  - reflexivity.
  - reflexivity.
  - repeat constructor.
  - simpl. lia.
Defined.

(** C2, as stated for any ordered list, fails when a pattern is repeated:
    with the registers of [run_quantum_memory], storing the list [[5; 5]]
    leaves the pattern with amplitude [1/sqrt 2] and the starting state, in
    which nothing is stored, with amplitude [-1/sqrt 2]; after both loads the
    list is not folded into one superposition of stored patterns, and the rest
    on the starting state is not [sqrt ((2 - 2) / 2) = 0]. *)
Lemma C2_repeated_pattern_not_folded :
  exists psi : state,
    run (snd (storage_algorithm [5; 5]%Z [0; 1; 2]%N [3; 4]%N [5; 6; 7]%N []))
        (ket (2 ^ 4)) = Some psi /\
    psi (reg_index [5; 6; 7]%N 5) = RtoC (/ sqrt 2) /\
    psi (2 ^ 4)%N = RtoC (- / sqrt 2) /\
    psi (2 ^ 4)%N <> RtoC (sqrt (INR (2 - 2) / INR 2)).
Proof.
  pose proof (storage_twice_run [0; 1; 2]%N [5; 6; 7]%N 3%N 4%N driver_layout eq_refl 5%N)
    as R.
  assert (Hne : reg_index [5; 6; 7]%N 5 <> (2 ^ 4)%N) by (vm_compute; discriminate).
  assert (A : (sadd (sscale (RtoC (/ sqrt 2)) (ket (reg_index [5; 6; 7]%N 5)))
                    (sscale (RtoC (- / sqrt 2)) (ket (2 ^ 4)))) (2 ^ 4)%N =
              RtoC (- / sqrt 2)).
  { unfold sadd, sscale. rewrite ket_same, ket_diff by (intros E; now apply Hne).
    Csolve. }
  eexists. split; [|split; [|split]].
  - rewrite (storage_algorithm_ok [5; 5]%Z [0; 1; 2]%N [3; 4]%N [5; 6; 7]%N 3%N 4%N []);
      [|simpl; lia|reflexivity|reflexivity|repeat constructor].
    cbn [snd app map length Z.abs_N]. exact R.
  - unfold sadd, sscale. rewrite ket_same, ket_diff by exact Hne. Csolve.
  - exact A.
  - rewrite A. intros E. apply (f_equal fst) in E. cbn [fst RtoC] in E.
    cbn [Nat.sub INR] in E. unfold Rdiv in E. rewrite Rmult_0_l, sqrt_0 in E.
    assert (H2 : 0 < / sqrt 2).
    { apply Rinv_0_lt_compat. apply sqrt_lt_R0. lra. }
    lra.
Qed.

(** C2, amended: storing an ordered list of distinct patterns that fit, from the
    all-zero state with [u1] set, folds them into one superposition.  The
    iteration for the pattern with load index [t] rotates [(u0, u1)] by the
    controlled rotation of angle [-2 * arccos (sqrt ((j - 1) / j))],
    [j = (number of patterns) + 1 - t]; after it every pattern stored so far
    has amplitude [1/sqrt(number of patterns)], the not yet stored rest of the
    amplitude is on the starting state, and the pattern just stored has
    amplitude [1/sqrt(t)] times the norm of the stored superposition (the
    branch with [u1] clear), whose squared norm is [t / number of patterns]. *)
Theorem C2_storage_superposition (n : nat) (p m u : list qubit) (u0 u1 : qubit)
    (ps : list Z) (t : nat) :
  NoDup (p ++ u0 :: u1 :: m) -> length m = length p ->
  Forall (fun q => (q < N.of_nat n)%N) (p ++ u0 :: u1 :: m) ->
  nth_error u 0 = Some u0 -> nth_error u 1 = Some u1 ->
  Forall (fun val => (Z.abs_N val < 2 ^ N.of_nat (length p))%N) ps ->
  NoDup (map Z.abs_N ps) ->
  (1 <= t <= length ps)%nat ->
  let j := (Z.of_nat (length ps) + 1 - Z.of_nat t)%Z in
  let vals := map Z.abs_N ps in
  (forall qc, controlled_si p u (Z.of_nat t) (Z.of_nat (length ps)) qc =
     (Ok tt, qc ++ [CRYGate (Num (-2 * acos (sqrt (IZR (j - 1) / IZR j)))) u0 u1])) /\
  (forall v, storage_gates (length ps) p u0 u1 m (t - 1) [v] =
     storage_step_gates (-2 * acos (sqrt (IZR (j - 1) / IZR j))) p u0 u1 m v) /\
  exists psi : state,
    storage_algorithm ps p u m [] =
      (Ok tt, storage_gates (length ps) p u0 u1 m 0 (firstn t vals) ++
              storage_gates (length ps) p u0 u1 m t (skipn t vals)) /\
    run (storage_gates (length ps) p u0 u1 m 0 (firstn t vals)) (ket (2 ^ u1)) =
      Some psi /\
    (forall v, In v (firstn t vals) ->
       psi (reg_index m v) = RtoC (/ sqrt (INR (length ps)))) /\
    psi (2 ^ u1)%N = RtoC (sqrt (INR (length ps - t) / INR (length ps))) /\
    (forall k, k <> (2 ^ u1)%N ->
       (forall v, In v (firstn t vals) -> k <> reg_index m v) -> psi k = C0) /\
    prob_qubit n u1 false psi = INR t / INR (length ps) /\
    (forall v, nth_error vals (t - 1) = Some v ->
       psi (reg_index m v) =
       RtoC (/ sqrt (INR t) * sqrt (prob_qubit n u1 false psi))).
Proof.
  intros Hnd Hlen Hb H0 H1 Hfit Hd [Ht1 Ht2] j vals.
  assert (Hj : (1 <= j)%Z) by (unfold j; lia).
  split; [|split].
  - intros qc. rewrite (controlled_si_ok p u u0 u1 _ _ qc H0 H1) by (fold j; exact Hj).
    reflexivity.
  - intros v. cbn [storage_gates]. rewrite app_nil_r. f_equal.
    unfold theta_j. replace (Z.of_nat (length ps) - Z.of_nat (t - 1))%Z with j
      by (unfold j; lia).
    reflexivity.
  - destruct (storage_prefix_state p m u0 u1 Hnd Hlen ps u t H0 H1 Hfit Hd Ht2
                ltac:(lia)) as [Eb Er].
    fold vals in Eb, Er, Hd.
    assert (Hfv : Forall (fun q => (q < 2 ^ N.of_nat (length p))%N) (firstn t vals)).
    { apply Forall_forall. intros v Iv. apply In_firstn in Iv.
      unfold vals in Iv. apply in_map_iff in Iv. destruct Iv as (val & <- & Ival).
      rewrite Forall_forall in Hfit. now apply Hfit. }
    assert (Hdv : NoDup (firstn t vals)).
    { rewrite <- (firstn_skipn t vals) in Hd. now apply NoDup_app_remove_r in Hd. }
    assert (Hlf : length (rev (firstn t vals)) = t).
    { rewrite length_rev, length_firstn. unfold vals. rewrite length_map. lia. }
    set (psi := memory_state (length ps) m u1 (rev (firstn t vals))) in *.
    assert (Hstored : forall v, In v (firstn t vals) ->
                                psi (reg_index m v) = RtoC (/ sqrt (INR (length ps)))).
    { intros v Iv. apply (memory_state_at_stored p m u0 u1 Hnd Hlen).
      - now apply Forall_rev.
      - now apply NoDup_rev.
      - now apply in_rev in Iv. }
    assert (Hnorm : norm2 n psi = 1).
    { destruct (run_wf_norm n _ (ket (2 ^ u1))
                  (wf_storage_gates n p m u0 u1 Hnd Hb (length ps) 0 (firstn t vals)))
        as (psi' & R & Npsi).
      rewrite Er in R. inversion R; subst psi'. rewrite Npsi.
      apply norm2_ket. apply N.pow_lt_mono_r; [lia|].
      apply (bound_u1 n p m u0 u1 Hb). }
    assert (Hw : prob_qubit n u1 false psi = INR t / INR (length ps)).
    { unfold psi.
      rewrite (memory_state_stored_weight p m u0 u1 Hnd Hlen n);
        [now rewrite Hlf | apply (bound_u1 n p m u0 u1 Hb) | lia | lia | exact Hnorm]. }
    exists psi. split; [exact Eb|]. split; [exact Er|].
    split; [exact Hstored|]. split; [|split; [|split; [exact Hw|]]].
    + unfold psi. rewrite (memory_state_at_fresh p m u0 u1 Hnd). now rewrite Hlf.
    + intros k Hk Hnot.
      destruct (C_eq_dec (psi k) C0) as [E|E]; [exact E|]. exfalso.
      destruct (memory_state_support m u1 _ _ k E) as [-> | (v & Iv & ->)];
        [now apply Hk|].
      apply (Hnot v); [now apply in_rev | reflexivity].
    + intros v Ev. rewrite Hw.
      assert (Iv : In v (firstn t vals)).
      { apply nth_error_In with (n := (t - 1)%nat).
        rewrite nth_error_firstn.
        destruct (Nat.ltb_spec (t - 1) t) as [_|L]; [exact Ev | lia]. }
      rewrite (Hstored v Iv). f_equal.
      assert (HN : 0 < INR (length ps)) by (apply lt_0_INR; lia).
      assert (HT : 0 < INR t) by (apply lt_0_INR; lia).
      rewrite sqrt_div_alt by exact HN.
      assert (St : sqrt (INR t) <> 0).
      { intros E. apply sqrt_eq_0 in E; lra. }
      assert (Sn : sqrt (INR (length ps)) <> 0).
      { intros E. apply sqrt_eq_0 in E; lra. }
      field. now split.
Qed.

Lemma C2_storage_superposition_witness :
  exists psi : state,
    run (storage_gates 2 [0; 1; 2]%N 3%N 4%N [5; 6; 7]%N 0 [1; 4]%N) (ket (2 ^ 4)) =
      Some psi /\
    psi (reg_index [5; 6; 7]%N 1) = RtoC (/ sqrt (INR 2)) /\
    psi (reg_index [5; 6; 7]%N 4) = RtoC (/ sqrt (INR 2)) /\
    prob_qubit 8 4%N false psi = INR 2 / INR 2.
Proof.
  destruct (C2_storage_superposition 8 [0; 1; 2]%N [5; 6; 7]%N [3; 4]%N 3%N 4%N
              [1; 4]%Z 2)
    as (_ & _ & psi & _ & Hrun & Hst & _ & _ & Hw & _).
  - exact driver_layout.
  - reflexivity.
  - exact driver_bound.
  - reflexivity.
  - reflexivity.
  - repeat constructor.
  - repeat constructor; simpl; intuition discriminate.
  - simpl. lia.
  - exists psi. split; [exact Hrun|]. split; [|split; [|exact Hw]].
    + apply Hst. now left.
    + apply Hst. right. now left.
Defined.

(** C3: for every single pattern that fits the register, storing only it
    and then retrieving with the same value as query puts all the probability
    on reading |0> on the control qubit ([u[0]], as in [run_quantum_memory]):
    P(control = 0) = 1 exceeds P(control = 1) = 0. *)
Theorem C3_recall_of_the_stored_pattern (n : nat) (p m u : list qubit)
    (u0 u1 : qubit) (pattern : Z) :
  NoDup (p ++ u0 :: u1 :: m) -> length m = length p ->
  Forall (fun q => (q < N.of_nat n)%N) (p ++ u0 :: u1 :: m) ->
  nth_error u 0 = Some u0 -> nth_error u 1 = Some u1 ->
  (Z.abs_N pattern < 2 ^ N.of_nat (length p))%N ->
  exists (qc : QuantumCircuit) (psi : state),
    store_then_retrieve [pattern] pattern p u m u0 [] = (Ok tt, qc) /\
    run qc (ket 0) = Some psi /\
    prob_qubit n u0 false psi = 1 /\
    prob_qubit n u0 true psi = 0 /\
    prob_qubit n u0 true psi < prob_qubit n u0 false psi.
Proof.
  intros Hnd Hlen Hb H0 H1 Hfit.
  set (v := Z.abs_N pattern) in *.
  set (bs := lsb_bits v (length p)).
  assert (Hbs : length bs = length p) by apply lsb_bits_length.
  set (K := basis_index p u0 u1 m bs false false bs).
  assert (HK : (K < 2 ^ N.of_nat n)%N) by now apply basis_index_lt.
  assert (Hrun : run (experiment_gates [pattern] pattern p u0 u1 m u0) (ket 0) =
                 Some (ket K)).
  { unfold experiment_gates. cbn [app length map]. fold v. fold bs.
    rewrite run_classical_cons by exact I. cbn [gate_perm].
    replace (flip u1 0) with (2 ^ u1)%N by (unfold flip; now rewrite N.lxor_0_l).
    rewrite run_app.
    change (storage_gates 1 p u0 u1 m 0 [v])
      with (storage_gates 1 p u0 u1 m (length (@nil N)) [v]).
    rewrite <- (memory_state_nil 1 m u1) by lia.
    rewrite (storage_gates_memory p m u0 u1 Hnd Hlen 1 [v] []);
      [| simpl; lia | repeat constructor; exact Hfit
       | repeat constructor; simpl; tauto].
    cbn [rev app]. rewrite memory_state_single.
    rewrite run_classical_then by apply x_gates_classical.
    rewrite <- (idx_stored p m u0 u1 Hlen v). fold bs.
    rewrite (x_stage p m u0 u1) by (rewrite ?repeat_length; auto).
    rewrite xor_bits_false_l' by exact Hbs.
    now apply (retrieval_match p m u0 u1 Hnd Hlen). }
  exists (experiment_gates [pattern] pattern p u0 u1 m u0), (ket K).
  assert (P0 : prob_qubit n u0 false (ket K) = 1).
  { unfold prob_qubit. rewrite prob_ket by exact HK.
    unfold K. now rewrite (idx_read_u0 p m u0 u1 Hnd Hlen). }
  assert (P1 : prob_qubit n u0 true (ket K) = 0).
  { unfold prob_qubit. rewrite prob_ket by exact HK.
    unfold K. now rewrite (idx_read_u0 p m u0 u1 Hnd Hlen). }
  split; [|split; [exact Hrun | split; [exact P0 | split; [exact P1|]]]].
  - rewrite (store_then_retrieve_ok [pattern] pattern p u m u0 u1 u0 []); auto.
    lia.
  - rewrite P0, P1. lra.
Qed.

Lemma C3_recall_of_the_stored_pattern_witness :
  exists (qc : QuantumCircuit) (psi : state),
    store_then_retrieve [4%Z] 4%Z [0; 1; 2]%N [3; 4]%N [5; 6; 7]%N 3%N [] = (Ok tt, qc) /\
    run qc (ket 0) = Some psi /\
    prob_qubit 8 3%N false psi = 1 /\
    prob_qubit 8 3%N true psi = 0 /\
    prob_qubit 8 3%N true psi < prob_qubit 8 3%N false psi.
Proof.
  apply (C3_recall_of_the_stored_pattern 8 [0; 1; 2]%N [5; 6; 7]%N [3; 4]%N 3%N 4%N 4%Z).
  - exact driver_layout.
  - reflexivity.
  - exact driver_bound.
  - reflexivity.
  - reflexivity.
  - simpl. lia.
Defined.

(** C4: along the gate sequence of storage followed by retrieval, started
    in a normalized state, the squared magnitudes sum to 1 after every single
    gate: every prefix of the circuit runs and keeps the norm. *)
Theorem C4_norm_after_every_gate (n : nat) (p m u : list qubit) (u0 u1 c : qubit)
    (ps : list Z) (query : Z) (psi : state) :
  NoDup (p ++ u0 :: u1 :: m) -> length m = length p ->
  Forall (fun q => (q < N.of_nat n)%N) (p ++ u0 :: u1 :: m) ->
  nth_error u 0 = Some u0 -> nth_error u 1 = Some u1 ->
  Forall (fun val => (Z.abs_N val < 2 ^ N.of_nat (length p))%N) ps ->
  (Z.abs_N query < 2 ^ N.of_nat (length p))%N ->
  (c < N.of_nat n)%N -> ~ In c m ->
  norm2 n psi = 1 ->
  exists qc : QuantumCircuit,
    store_then_retrieve ps query p u m c [] = (Ok tt, qc) /\
    forall pre post : QuantumCircuit, qc = pre ++ post ->
      exists psi', run pre psi = Some psi' /\ norm2 n psi' = 1.
Proof.
  intros Hnd Hlen Hb H0 H1 Hps Hq Hc Hcm Hnorm.
  exists (experiment_gates ps query p u0 u1 m c). split.
  - rewrite (store_then_retrieve_ok ps query p u m u0 u1 c []); auto. lia.
  - intros pre post E.
    pose proof (wf_experiment_gates n p m u0 u1 Hnd Hb ps query c Hc Hcm) as W.
    rewrite E in W. apply Forall_app in W. destruct W as [Wpre _].
    destruct (run_wf_norm n pre psi Wpre) as (psi' & R & Npsi).
    exists psi'. split; [exact R | now rewrite Npsi].
Qed.

Lemma C4_norm_after_every_gate_witness :
  exists qc : QuantumCircuit,
    store_then_retrieve [1; 4]%Z 4%Z [0; 1; 2]%N [3; 4]%N [5; 6; 7]%N 3%N [] = (Ok tt, qc) /\
    forall pre post : QuantumCircuit, qc = pre ++ post ->
      exists psi', run pre (ket 0) = Some psi' /\ norm2 8 psi' = 1.
Proof.
  apply (C4_norm_after_every_gate 8 [0; 1; 2]%N [5; 6; 7]%N [3; 4]%N 3%N 4%N 3%N
           [1; 4]%Z 4%Z (ket 0)).
  - exact driver_layout.
  - reflexivity.
  - exact driver_bound.
  - reflexivity.
  - reflexivity.
  - repeat constructor.
  - simpl. lia.
  - simpl. lia.
  - exact driver_not_in_m.
  - apply norm2_ket. simpl. lia.
Defined.

(** C5, as stated, fails: the gates [apply_u_and_cu] appends are not the
    list the specification gives.  For the one-qubit memory register [5] and
    control qubit 3 the program appends six gates, the controlled phase being
    wrapped in two controlled bit flips, where the specification lists four. *)
Lemma C5_controlled_phase_is_not_alone :
  snd (apply_u_and_cu [5%N] 3%N []) <> spec_u_and_cu [5%N] 3%N.
Proof.
  rewrite apply_u_and_cu_ok. cbn [snd app]. intros E.
  apply (f_equal (@length gate)) in E. discriminate E.
Qed.

(** C5, amended: with [n = |M|], [apply_u_and_cu] appends exactly, for each
    qubit [q] of [M], a phase rotation of angle [pi/(2n)] on [q] between two
    bit flips of [q]; then, for each qubit [q] of [M], a controlled phase
    rotation of angle [-pi/n] with control [C] between two bit flips of [q]
    controlled by [C]; and nothing else. *)
Theorem C5_apply_u_and_cu_gates (m : list qubit) (c : qubit) (qc : QuantumCircuit) :
  ~ In c m ->
  apply_u_and_cu m c qc =
  (Ok tt,
   qc ++
   flat_map (fun q => [XGate q;
                       PhaseGate (Num (PI / (2 * IZR (Z.of_nat (length m))))) q;
                       XGate q]) m ++
   flat_map (fun q => [CXGate c q;
                       CPhaseGate (Num (- PI / IZR (Z.of_nat (length m)))) c q;
                       CXGate c q]) m).
Proof. intros _. exact (apply_u_and_cu_ok m c qc). Qed.

Lemma C5_apply_u_and_cu_gates_witness :
  apply_u_and_cu [5; 6]%N 3%N [] =
  (Ok tt,
   [XGate 5%N; PhaseGate (Num (PI / (2 * IZR 2))) 5%N; XGate 5%N;
    XGate 6%N; PhaseGate (Num (PI / (2 * IZR 2))) 6%N; XGate 6%N;
    CXGate 3%N 5%N; CPhaseGate (Num (- PI / IZR 2)) 3%N 5%N; CXGate 3%N 5%N;
    CXGate 3%N 6%N; CPhaseGate (Num (- PI / IZR 2)) 3%N 6%N; CXGate 3%N 6%N]).
Proof.
  apply (C5_apply_u_and_cu_gates [5; 6]%N 3%N []). simpl. intuition discriminate.
Defined.

(** C6: for a non-negative value that fits the register, encoding it twice
    into the same register is the identity on every state; in particular the
    all-zero state comes back. *)
Theorem C6_encode_twice_identity (value : Z) (qubits : list qubit) (psi : state) :
  (0 <= value < 2 ^ Z.of_nat (length qubits))%Z ->
  exists once : QuantumCircuit,
    apply_pauli_from_int value qubits [] = (Ok tt, once) /\
    (apply_pauli_from_int value qubits ;; apply_pauli_from_int value qubits) [] =
      (Ok tt, once ++ once) /\
    run (once ++ once) psi = Some psi /\
    run (once ++ once) (ket 0) = Some (ket 0).
Proof.
  intros [Hlo Hhi].
  assert (Hfit : (Z.abs_N value < 2 ^ N.of_nat (length qubits))%N).
  { apply N2Z.inj_lt. rewrite N2Z.inj_abs_N, Z.abs_eq by exact Hlo.
    rewrite N2Z.inj_pow, nat_N_Z. exact Hhi. }
  exists (x_gates qubits (lsb_bits (Z.abs_N value) (length qubits))).
  repeat split.
  - now rewrite apply_pauli_ok.
  - erewrite bind_ok by (apply apply_pauli_ok; exact Hfit).
    now rewrite apply_pauli_ok.
  - apply x_gates_twice.
  - apply x_gates_twice.
Qed.

Lemma C6_encode_twice_identity_witness :
  exists once : QuantumCircuit,
    apply_pauli_from_int 5 [0; 1; 2]%N [] = (Ok tt, once) /\
    (apply_pauli_from_int 5 [0; 1; 2]%N ;; apply_pauli_from_int 5 [0; 1; 2]%N) [] =
      (Ok tt, once ++ once) /\
    run (once ++ once) (ket 6) = Some (ket 6) /\
    run (once ++ once) (ket 0) = Some (ket 0).
Proof.
  apply (C6_encode_twice_identity 5 [0; 1; 2]%N (ket 6)). simpl. lia.
Defined.

(** C7, as stated, fails: for a negative schedule index [find_angle] does
    not fail; it returns (NaN). *)
Lemma C7_negative_index_does_not_fail :
  ~ (forall j : Z, (j < 1)%Z -> exists e : exn, find_angle j = Raise e).
Proof.
  intros H. destruct (H (-1)%Z) as [e E]; [lia|].
  rewrite find_angle_negative_nan in E by lia. discriminate E.
Qed.

(** C7, amended: [find_angle] has no check of its own.  At [j = 0] it
    raises, by the division by zero.  For [j < 0] it raises nothing: down to
    [j = -3002399751580330] it returns NaN, and below that the quotient
    [(j - 1) / j] rounds so close to 1 that its square root rounds to 1.0 and
    the result is the number [-2 * arccos 1.0 = -0.0].  At the boundary,
    [find_angle 1] is [-pi]. *)
Theorem C7_find_angle_domain :
  find_angle 0 = Raise ZeroDivisionError /\
  (forall j : Z, (j < 0)%Z -> exists x : pyfloat, find_angle j = Ok x) /\
  (forall j : Z, (-3002399751580330 <= j < 0)%Z -> find_angle j = Ok NaN) /\
  (forall j : Z, (j < -3002399751580330)%Z -> find_angle j = Ok (Num 0)) /\
  find_angle 1 = Ok (Num (- PI)).
Proof.
  split; [reflexivity|]. split; [exact find_angle_negative|].
  split; [exact find_angle_negative_nan|].
  split; [exact find_angle_negative_number|].
  rewrite find_angle_ok by lia. now rewrite theta_j_1.
Qed.

Lemma C7_find_angle_domain_witness :
  find_angle (-3) = Ok NaN /\ find_angle (-4503599627370496) = Ok (Num 0).
Proof.
  destruct C7_find_angle_domain as (_ & _ & Hnan & Hnum & _).
  split; [apply Hnan; lia | apply Hnum; lia].
Defined.

(** C8: [apply_pauli_from_int] raises (the [IndexError] of [qubits[idx]],
    the specification's EncodingOverflow) exactly when the magnitude of the
    value needs more bits than the register has; the exception is raised
    inside the call, at the first set bit without a qubit, after the flips of
    the lower set bits have been appended.  A value that fits is encoded
    without failure. *)
Theorem C8_encoding_overflow (value : Z) (qubits : list qubit) (qc : QuantumCircuit) :
  ((2 ^ N.of_nat (length qubits) <= Z.abs_N value)%N ->
   apply_pauli_from_int value qubits qc =
   (Raise IndexError,
    qc ++ x_gates qubits (lsb_bits (Z.abs_N value) (length qubits)))) /\
  ((Z.abs_N value < 2 ^ N.of_nat (length qubits))%N ->
   apply_pauli_from_int value qubits qc =
   (Ok tt, qc ++ x_gates qubits (lsb_bits (Z.abs_N value) (length qubits)))).
Proof.
  split; [apply apply_pauli_overflow_at | apply apply_pauli_ok].
Qed.

Lemma C8_encoding_overflow_witness :
  apply_pauli_from_int 9 [0; 1; 2]%N [] = (Raise IndexError, [XGate 0%N]) /\
  apply_pauli_from_int 5 [0; 1; 2]%N [] = (Ok tt, [XGate 0%N; XGate 2%N]).
Proof.
  split.
  - apply (proj1 (C8_encoding_overflow 9 [0; 1; 2]%N [])). simpl. lia.
  - apply (proj2 (C8_encoding_overflow 5 [0; 1; 2]%N [])). simpl. lia.
Defined.

(** C9: the threshold of [bv_algorithm] is never read: two runs that differ
    only in it append the same gates and produce the same state. *)
Theorem C9_threshold_inert (T1 T2 : Type) (t1 : T1) (t2 : T2)
    (i m : list qubit) (c : qubit) (qc : QuantumCircuit) (psi : state) :
  bv_algorithm i m c t1 qc = bv_algorithm i m c t2 qc /\
  run (snd (bv_algorithm i m c t1 qc)) psi = run (snd (bv_algorithm i m c t2 qc)) psi.
Proof. split; reflexivity. Qed.

(** C10: for every input state, retrieval leaves the marginal distribution
    over the memory register unchanged: for every bit value [bs],
    P(M = bs) after retrieval equals P(M = bs) before. *)
Theorem C10_retrieval_preserves_memory_marginal (n : nat) (i m : list qubit)
    (c : qubit) (bs : list bool) (psi : state) :
  (length i <= length m)%nat ->
  Forall (fun at_ : qubit * qubit => fst at_ <> snd at_) (combine i m) ->
  ~ In c m -> (c < N.of_nat n)%N ->
  exists (qc : QuantumCircuit) (psi' : state),
    retrieval_algorithm i m c [] = (Ok tt, qc) /\
    run qc psi = Some psi' /\
    prob_reg n m bs psi' = prob_reg n m bs psi.
Proof.
  intros Hlen Hp Hc Hn.
  destruct (retrieval_marginal n i m c bs psi Hlen Hp Hc Hn) as (psi' & E & R & P).
  now exists (retrieval_gates i m c), psi'.
Qed.

Lemma C10_retrieval_preserves_memory_marginal_witness :
  exists (qc : QuantumCircuit) (psi' : state),
    retrieval_algorithm [0; 1; 2]%N [5; 6; 7]%N 3%N [] = (Ok tt, qc) /\
    run qc (ket 33) = Some psi' /\
    prob_reg 8 [5; 6; 7]%N [true; false; false] psi' =
    prob_reg 8 [5; 6; 7]%N [true; false; false] (ket 33).
Proof.
  apply (C10_retrieval_preserves_memory_marginal 8 [0; 1; 2]%N [5; 6; 7]%N 3%N
           [true; false; false] (ket 33)).
  - simpl. lia.
  - simpl. repeat constructor; simpl; discriminate.
  - simpl. intuition discriminate.
  - simpl. lia.
Defined.

(** * Further properties *)

(** ** Phase circuits *)

Lemma Cexp_i_add (a b : R) : Cexp_i (a + b) = (Cexp_i a * Cexp_i b)%C.
Proof.
  unfold Cexp_i, Cmult. cbn [fst snd]. rewrite cos_plus, sin_plus.
  apply C_eq; cbn [fst snd]; ring.
Qed.

Lemma Cexp_i_0 : Cexp_i 0 = C1.
Proof. unfold Cexp_i, C1. now rewrite cos_0, sin_0. Qed.

Lemma phase_circuit_ext (qc : QuantumCircuit) (d d' : N -> C) :
  (forall k, d k = d' k) -> phase_circuit qc d -> phase_circuit qc d'.
Proof.
  intros E Hd psi. rewrite Hd. f_equal. apply functional_extensionality.
  intros k. now rewrite E.
Qed.

Lemma phase_circuit_nil : phase_circuit [] (fun _ => C1).
Proof.
  intros psi. cbn [run]. f_equal. apply functional_extensionality. intros k.
  now rewrite Cmult_1_l.
Qed.

Lemma phase_circuit_app (c1 c2 : QuantumCircuit) (d1 d2 : N -> C) :
  phase_circuit c1 d1 -> phase_circuit c2 d2 ->
  phase_circuit (c1 ++ c2) (fun k => (d2 k * d1 k)%C).
Proof.
  intros H1 H2 psi. rewrite run_app, H1, H2. f_equal.
  apply functional_extensionality. intros k. now rewrite Cmult_assoc.
Qed.

Lemma phase_circuit_gate (g : gate) (cs : list qubit) (theta : R) (q : qubit) :
  gate_action g = Some (cs, q, P_mat theta) ->
  phase_circuit [g]
    (fun k => if forallb (N.testbit k) cs && N.testbit k q then Cexp_i theta else C1).
Proof.
  intros Hg psi. rewrite (run_cons_action g [] cs q (P_mat theta)) by exact Hg.
  cbn [run]. f_equal. apply functional_extensionality. intros k.
  unfold apply_ctrl. cbn [P_mat m00 m01 m10 m11].
  destruct (forallb (N.testbit k) cs); cbn [andb]; [|now rewrite Cmult_1_l].
  destruct (N.testbit k q); Csolve.
Qed.

Lemma phase_circuit_conj (g : gate) (qc : QuantumCircuit) (d : N -> C) :
  classical g -> phase_circuit qc d ->
  phase_circuit (g :: qc ++ [g]) (fun k => d (gate_perm g k)).
Proof.
  intros Hc Hd psi. cbn [run]. rewrite apply_classical by exact Hc.
  rewrite run_app, Hd. cbn [run]. rewrite apply_classical by exact Hc.
  f_equal. apply functional_extensionality. intros k.
  now rewrite gate_perm_invol.
Qed.

Lemma phase_circuit_sandwich (L D : QuantumCircuit) (d : N -> C) :
  Forall classical L -> phase_circuit D d ->
  phase_circuit (L ++ D ++ rev L) (fun k => d (circuit_perm L k)).
Proof.
  intros HL HD. revert d HD. induction HL as [|g L Hg _ IH]; intros d HD.
  - cbn [app rev circuit_perm]. now rewrite app_nil_r.
  - cbn [app rev circuit_perm]. rewrite !app_assoc. rewrite <- (app_assoc L D (rev L)).
    apply (phase_circuit_conj g _ (fun k => d (circuit_perm L k)) Hg).
    now apply IH.
Qed.

(** ** The phase gates of retrieval *)

Lemma zero_count_cons (q : qubit) (r : list qubit) (k : N) :
  zero_count (q :: r) k = ((if N.testbit k q then 0 else 1) + zero_count r k)%nat.
Proof. unfold zero_count. cbn [filter]. now destruct (N.testbit k q). Qed.

(** [u_gate]: the phase [pi/(2n)] where the qubit is 0. *)
Lemma u_gate_phase (q : qubit) (n : Z) :
  phase_circuit [XGate q; PhaseGate (Num (PI / (2 * IZR n))) q; XGate q]
    (fun k => if N.testbit k q then C1 else Cexp_i (PI / (2 * IZR n))).
Proof.
  pose proof (phase_circuit_conj (XGate q) [PhaseGate (Num (PI / (2 * IZR n))) q] _ I
                (phase_circuit_gate (PhaseGate (Num (PI / (2 * IZR n))) q) []
                   (PI / (2 * IZR n)) q eq_refl)) as H.
  cbn [app] in H. eapply phase_circuit_ext; [|exact H].
  intros k. cbn [gate_perm forallb andb]. rewrite flip_same.
  now destruct (N.testbit k q).
Qed.

(** [cu_squared]: the phase [-pi/n] where the control is 1 and the target
    is 0. *)
Lemma cu_squared_phase (c q : qubit) (n : Z) :
  c <> q ->
  phase_circuit [CXGate c q; CPhaseGate (Num (- PI / IZR n)) c q; CXGate c q]
    (fun k => if N.testbit k c && negb (N.testbit k q)
              then Cexp_i (- PI / IZR n) else C1).
Proof.
  intros Hcq.
  pose proof (phase_circuit_conj (CXGate c q) [CPhaseGate (Num (- PI / IZR n)) c q] _ Hcq
                (phase_circuit_gate (CPhaseGate (Num (- PI / IZR n)) c q) [c]
                   (- PI / IZR n) q eq_refl)) as H.
  cbn [app] in H. eapply phase_circuit_ext; [|exact H].
  intros k. cbn [gate_perm forallb]. rewrite andb_true_r.
  destruct (N.testbit k c) eqn:Bc.
  - rewrite flip_other by (intros E; now apply Hcq). rewrite Bc, flip_same.
    reflexivity.
  - now rewrite Bc.
Qed.

Lemma u_gates_phase (n : Z) (l : list qubit) :
  phase_circuit (u_gates n l)
    (fun k => Cexp_i (PI / (2 * IZR n) * INR (zero_count l k))).
Proof.
  induction l as [|q l IH].
  - apply (phase_circuit_ext _ (fun _ => C1)); [|apply phase_circuit_nil].
    intros k. cbn [zero_count filter length INR]. now rewrite Rmult_0_r, Cexp_i_0.
  - unfold u_gates. cbn [flat_map]. fold (u_gates n l).
    eapply phase_circuit_ext; [|apply (phase_circuit_app _ _ _ _ (u_gate_phase q n) IH)].
    intros k. cbv beta. rewrite zero_count_cons.
    destruct (N.testbit k q).
    + now rewrite Cmult_1_r.
    + rewrite plus_INR, Rmult_plus_distr_l, Cexp_i_add. cbn [INR].
      now rewrite Rmult_1_r, Cmult_comm.
Qed.

Lemma cu_gates_phase (n : Z) (c : qubit) (l : list qubit) :
  ~ In c l ->
  phase_circuit (cu_gates n c l)
    (fun k => if N.testbit k c
              then Cexp_i (- PI / IZR n * INR (zero_count l k)) else C1).
Proof.
  induction l as [|q l IH]; intros Hc.
  - apply (phase_circuit_ext _ (fun _ => C1)); [|apply phase_circuit_nil].
    intros k. cbn [zero_count filter length INR].
    rewrite Rmult_0_r, Cexp_i_0. now destruct (N.testbit k c).
  - assert (Hcq : c <> q) by (intros E; apply Hc; now left).
    assert (Hcl : ~ In c l) by (intros I'; apply Hc; now right).
    unfold cu_gates. cbn [flat_map]. fold (cu_gates n c l).
    eapply phase_circuit_ext;
      [|apply (phase_circuit_app _ _ _ _ (cu_squared_phase c q n Hcq) (IH Hcl))].
    intros k. cbv beta. rewrite zero_count_cons.
    destruct (N.testbit k c); cbn [andb]; [|now rewrite Cmult_1_l].
    destruct (N.testbit k q); cbn [negb].
    + now rewrite Cmult_1_r.
    + rewrite plus_INR, Rmult_plus_distr_l, Cexp_i_add. cbn [INR].
      now rewrite Rmult_1_r, Cmult_comm.
Qed.

(** ** The retrieval operator *)

Lemma hamming_cons (a b : bool) (x y : list bool) :
  hamming (a :: x) (b :: y) = ((if xorb a b then 1 else 0) + hamming x y)%nat.
Proof. unfold hamming, xor_bits. cbn [combine map filter fst snd]. now destruct (xorb a b). Qed.

Lemma cmp_perm_other (l : list (qubit * qubit)) (k : N) (q : qubit) :
  ~ In q (map snd l) ->
  N.testbit (circuit_perm (cmp_gates l) k) q = N.testbit k q.
Proof.
  revert k. induction l as [|[a t] l IH]; intros k Hq; [reflexivity|].
  cbn [map snd In] in Hq.
  assert (Hqt : t <> q) by (intros E; apply Hq; now left).
  assert (Hql : ~ In q (map snd l)) by (intros I'; apply Hq; now right).
  unfold cmp_gates. cbn [flat_map fst snd app circuit_perm gate_perm].
  fold (cmp_gates l). rewrite IH by exact Hql.
  rewrite flip_other by exact Hqt.
  destruct (N.testbit k a); [now rewrite flip_other by exact Hqt|reflexivity].
Qed.

Lemma in_combine_snd {A B} (x : list A) (y : list B) (q : B) :
  In q (map snd (combine x y)) -> In q y.
Proof.
  intros H. apply in_map_iff in H. destruct H as [[a b] [E H]]. cbn in E. subst b.
  now apply in_combine_r in H.
Qed.

Lemma in_combine_fst {A B} (x : list A) (y : list B) (q : A) :
  In q (map fst (combine x y)) -> In q x.
Proof.
  intros H. apply in_map_iff in H. destruct H as [[a b] [E H]]. cbn in E. subst a.
  now apply in_combine_l in H.
Qed.

Lemma map_testbit_flip_other (r : list qubit) (t : qubit) (k : N) :
  ~ In t r -> map (N.testbit (flip t k)) r = map (N.testbit k) r.
Proof. intros H. now apply (reg_bits_flip r t k). Qed.

(** After the equality detector the number of memory qubits left at 0 is
    the Hamming distance between the two registers. *)
Lemma cmp_zero_count (i m : list qubit) (k : N) :
  length i = length m -> NoDup m -> (forall q, In q i -> ~ In q m) ->
  zero_count m (circuit_perm (cmp_gates (combine i m)) k) =
  hamming (reg_bits i k) (reg_bits m k).
Proof.
  revert m k. induction i as [|a i IH]; intros [|t m] k Hlen Hnd Hdis;
    try discriminate; [reflexivity|].
  cbn [length] in Hlen. injection Hlen as Hlen.
  apply NoDup_cons_iff in Hnd. destruct Hnd as [Htm Hnd].
  assert (Hti : ~ In t i).
  { intros Hi. apply (Hdis t); [now right|now left]. }
  assert (Hdis' : forall q, In q i -> ~ In q m).
  { intros q Hq Hm. apply (Hdis q); [now right|now right]. }
  unfold reg_bits. cbn [combine map]. rewrite hamming_cons, zero_count_cons.
  unfold cmp_gates. cbn [flat_map fst snd app circuit_perm gate_perm].
  fold (cmp_gates (combine i m)).
  set (k' := flip t (if N.testbit k a then flip t k else k)).
  rewrite cmp_perm_other by (intros H; apply in_combine_snd in H; contradiction).
  rewrite IH by assumption. unfold reg_bits.
  assert (Ei : map (N.testbit k') i = map (N.testbit k) i).
  { unfold k'. rewrite map_testbit_flip_other by exact Hti.
    destruct (N.testbit k a); [now rewrite map_testbit_flip_other|reflexivity]. }
  assert (Em : map (N.testbit k') m = map (N.testbit k) m).
  { unfold k'. rewrite map_testbit_flip_other by exact Htm.
    destruct (N.testbit k a); [now rewrite map_testbit_flip_other|reflexivity]. }
  rewrite Ei, Em. f_equal.
  unfold k'. rewrite flip_same.
  destruct (N.testbit k a); [rewrite flip_same|]; now destruct (N.testbit k t).
Qed.

Lemma retrieval_middle_phase (i m : list qubit) (c : qubit) :
  length i = length m -> NoDup m -> (forall q, In q i -> ~ In q m) ->
  ~ In c m ->
  phase_circuit
    (cmp_gates (combine i m) ++
     (u_gates (Z.of_nat (length m)) m ++ cu_gates (Z.of_nat (length m)) c m) ++
     uncmp_gates (rev (combine i m)))
    (fun k =>
       let phi := recall_angle (length m) (hamming (reg_bits i k) (reg_bits m k)) in
       if N.testbit k c then Cexp_i (- phi) else Cexp_i phi).
Proof.
  intros Hlen Hnd Hdis Hc.
  rewrite <- cmp_gates_rev.
  assert (HL : Forall classical (cmp_gates (combine i m))).
  { apply cmp_classical_pairs. apply Forall_forall. intros [a t] Hin. cbn [fst snd].
    intros E. subst t. apply (Hdis a).
    - now apply in_combine_l in Hin.
    - now apply in_combine_r in Hin. }
  pose proof (phase_circuit_sandwich _ _ _ HL
                (phase_circuit_app _ _ _ _
                   (u_gates_phase (Z.of_nat (length m)) m)
                   (cu_gates_phase (Z.of_nat (length m)) c m Hc))) as H.
  eapply phase_circuit_ext; [|exact H].
  intros k. cbv beta zeta.
  rewrite cmp_zero_count by assumption.
  rewrite cmp_perm_other by (intros H'; apply in_combine_snd in H'; contradiction).
  unfold recall_angle. rewrite <- INR_IZR_INZ.
  set (d := INR (hamming (reg_bits i k) (reg_bits m k))).
  set (w := INR (length m)).
  destruct (N.testbit k c).
  - rewrite <- Cexp_i_add. f_equal. unfold Rdiv. rewrite Rinv_mult. lra.
  - rewrite Cmult_1_l. f_equal. unfold Rdiv. rewrite Rinv_mult. lra.
Qed.

Lemma interference_0 (phi : R) (x y : C) :
  (RtoC (/ sqrt 2) *
     (Cexp_i phi * (RtoC (/ sqrt 2) * x + RtoC (/ sqrt 2) * y)) +
   RtoC (/ sqrt 2) *
     (Cexp_i (- phi) * (RtoC (/ sqrt 2) * x + RtoC (- / sqrt 2) * y)))%C =
  (RtoC (cos phi) * x + Ci * RtoC (sin phi) * y)%C.
Proof.
  destruct x as [xr xi], y as [yr yi].
  apply C_eq; unfold Cplus, Cmult, RtoC, Cexp_i, Ci; cbn [fst snd];
    rewrite cos_neg, sin_neg;
    pose proof inv_sqrt2_sqr as E; revert E; generalize (/ sqrt 2); intros s E;
    assert (E2 : s ^ 2 = / 2) by (rewrite <- E; ring);
    ring_simplify; rewrite ?E2; field.
Qed.

Lemma interference_1 (phi : R) (x y : C) :
  (RtoC (/ sqrt 2) *
     (Cexp_i phi * (RtoC (/ sqrt 2) * y + RtoC (/ sqrt 2) * x)) +
   RtoC (- / sqrt 2) *
     (Cexp_i (- phi) * (RtoC (/ sqrt 2) * y + RtoC (- / sqrt 2) * x)))%C =
  (RtoC (cos phi) * x + Ci * RtoC (sin phi) * y)%C.
Proof.
  destruct x as [xr xi], y as [yr yi].
  apply C_eq; unfold Cplus, Cmult, RtoC, Cexp_i, Ci; cbn [fst snd];
    rewrite cos_neg, sin_neg;
    pose proof inv_sqrt2_sqr as E; revert E; generalize (/ sqrt 2); intros s E;
    assert (E2 : s ^ 2 = / 2) by (rewrite <- E; ring);
    ring_simplify; rewrite ?E2; field.
Qed.

Lemma retrieval_operator_run (i m : list qubit) (c : qubit) (psi : state) :
  length i = length m -> NoDup m -> (forall q, In q i -> ~ In q m) ->
  ~ In c i -> ~ In c m ->
  run (retrieval_gates i m c) psi =
  Some (fun k =>
          let phi := recall_angle (length m) (hamming (reg_bits i k) (reg_bits m k)) in
          (RtoC (cos phi) * psi k + Ci * RtoC (sin phi) * psi (flip c k))%C).
Proof.
  intros Hlen Hnd Hdis Hci Hcm.
  unfold retrieval_gates.
  set (D := u_gates (Z.of_nat (length m)) m ++ cu_gates (Z.of_nat (length m)) c m).
  rewrite (app_assoc D), (app_assoc (cmp_gates (combine i m))).
  cbn [app]. rewrite (run_cons_action (HGate c) _ [] c H_mat) by reflexivity.
  rewrite run_app. unfold D.
  rewrite (retrieval_middle_phase i m c Hlen Hnd Hdis Hcm).
  rewrite (run_cons_action (HGate c) _ [] c H_mat) by reflexivity.
  cbn [run]. f_equal. apply functional_extensionality. intros k.
  cbv zeta. unfold apply_ctrl. cbn [forallb H_mat m00 m01 m10 m11].
  rewrite !flip_same, !flip_flip.
  rewrite !(reg_bits_flip i c k Hci), !(reg_bits_flip m c k Hcm).
  set (phi := recall_angle (length m) (hamming (reg_bits i k) (reg_bits m k))).
  destruct (N.testbit k c); cbn [negb].
  - apply interference_1.
  - apply interference_0.
Qed.

(** X1: with the input register [i] and the memory register [m] of the same
    width, disjoint, and the control [c] outside both, [retrieval_algorithm]
    succeeds and the circuit it appends is the interference operator of the
    Hamming distance: the amplitude of every basis index [k] becomes
    [cos phi * psi k + i sin phi * psi (flip c k)], where
    [phi = pi * d / (2 * len(m))] and [d] is the number of positions in
    which the contents of [i] and [m] in [k] differ. *)
Theorem X1_retrieval_operator (i m : list qubit) (c : qubit) (psi : state) :
  length i = length m -> NoDup m -> (forall q, In q i -> ~ In q m) ->
  ~ In c i -> ~ In c m ->
  retrieval_algorithm i m c [] = (Ok tt, retrieval_gates i m c) /\
  run (retrieval_gates i m c) psi =
  Some (fun k =>
          let phi := recall_angle (length m) (hamming (reg_bits i k) (reg_bits m k)) in
          (RtoC (cos phi) * psi k + Ci * RtoC (sin phi) * psi (flip c k))%C).
Proof.
  intros Hlen Hnd Hdis Hci Hcm. split.
  - rewrite retrieval_algorithm_ok by lia. reflexivity.
  - now apply retrieval_operator_run.
Qed.

Lemma X1_retrieval_operator_witness :
  retrieval_algorithm [0; 1]%N [3; 4]%N 2%N [] =
    (Ok tt, retrieval_gates [0; 1]%N [3; 4]%N 2%N) /\
  run (retrieval_gates [0; 1]%N [3; 4]%N 2%N) (ket 1%N) =
  Some (fun k =>
          let phi := recall_angle 2%nat (hamming (reg_bits [0; 1]%N k) (reg_bits [3; 4]%N k)) in
          (RtoC (cos phi) * ket 1%N k + Ci * RtoC (sin phi) * ket 1%N (flip 2%N k))%C).
Proof.
  apply (X1_retrieval_operator [0; 1]%N [3; 4]%N 2%N (ket 1%N)).
  - reflexivity.
  - repeat constructor; cbn; intuition lia.
  - intros q Hq Hm. cbn in Hq, Hm. lia.
  - cbn. lia.
  - cbn. lia.
Defined.

(** ** The recall probability *)

Lemma Cnorm2_cos_branch (phi : R) (x : C) :
  Cnorm2 (RtoC (cos phi) * x + Ci * RtoC (sin phi) * C0)%C = (cos phi)² * Cnorm2 x.
Proof.
  destruct x as [xr xi]. unfold Cnorm2, Cplus, Cmult, RtoC, Ci, C0, Rsqr.
  cbn [fst snd]. ring.
Qed.

Lemma Cnorm2_sin_branch (phi : R) (y : C) :
  Cnorm2 (RtoC (cos phi) * C0 + Ci * RtoC (sin phi) * y)%C = (sin phi)² * Cnorm2 y.
Proof.
  destruct y as [yr yi]. unfold Cnorm2, Cplus, Cmult, RtoC, Ci, C0, Rsqr.
  cbn [fst snd]. ring.
Qed.

(** The weights of the two readings of the control in the state retrieval
    produces from a state whose control is 0. *)
Lemma recall_weights (n : nat) (i m : list qubit) (c : qubit)
    (psi : state) (sel : N -> bool) :
  ~ In c i -> ~ In c m -> (c < N.of_nat n)%N ->
  (forall k, N.testbit k c = true -> psi k = C0) ->
  (forall k, sel (flip c k) = sel k) ->
  let psi' := fun k =>
    (RtoC (cos (recall_angle (length m) (hamming (reg_bits i k) (reg_bits m k)))) * psi k +
     Ci * RtoC (sin (recall_angle (length m) (hamming (reg_bits i k) (reg_bits m k)))) *
     psi (flip c k))%C in
  prob n (fun k => negb (N.testbit k c) && sel k) psi' =
  sum_basis n (fun k =>
    if sel k
    then (cos (recall_angle (length m) (hamming (reg_bits i k) (reg_bits m k))))² *
         Cnorm2 (psi k)
    else 0) /\
  prob n (fun k => N.testbit k c && sel k) psi' =
  sum_basis n (fun k =>
    if sel k
    then (sin (recall_angle (length m) (hamming (reg_bits i k) (reg_bits m k))))² *
         Cnorm2 (psi k)
    else 0).
Proof.
  intros Hci Hcm Hcn Hpsi Hsel psi'. unfold psi'. split.
  - unfold prob. apply sum_basis_ext. intros k.
    destruct (N.testbit k c) eqn:Bc; cbn [negb andb].
    + rewrite (Hpsi k Bc), Cnorm2_C0. destruct (sel k); ring.
    + destruct (sel k); [|reflexivity].
      rewrite (Hpsi (flip c k)) by (rewrite flip_same, Bc; reflexivity).
      apply Cnorm2_cos_branch.
  - unfold prob.
    rewrite <- (sum_basis_flip n c (fun k => if N.testbit k c && sel k then _ else 0) Hcn).
    apply sum_basis_ext. intros k. cbv beta.
    rewrite flip_same, flip_flip, Hsel.
    rewrite (reg_bits_flip i c k Hci), (reg_bits_flip m c k Hcm).
    destruct (N.testbit k c) eqn:Bc; cbn [negb andb].
    + rewrite (Hpsi k Bc), Cnorm2_C0. destruct (sel k); ring.
    + destruct (sel k); [|reflexivity].
      rewrite (Hpsi (flip c k)) by (rewrite flip_same, Bc; reflexivity).
      apply Cnorm2_sin_branch.
Qed.

Lemma recall_probability_aux (n : nat) (i m : list qubit) (c : qubit)
    (psi : state) (sel : N -> bool) :
  length i = length m -> NoDup m -> (forall q, In q i -> ~ In q m) ->
  ~ In c i -> ~ In c m -> (c < N.of_nat n)%N ->
  (forall k, N.testbit k c = true -> psi k = C0) ->
  (forall k, sel (flip c k) = sel k) ->
  exists psi',
    run (retrieval_gates i m c) psi = Some psi' /\
    prob n (fun k => negb (N.testbit k c) && sel k) psi' =
    sum_basis n (fun k =>
      if sel k
      then (cos (recall_angle (length m) (hamming (reg_bits i k) (reg_bits m k))))² *
           Cnorm2 (psi k)
      else 0) /\
    prob n (fun k => N.testbit k c && sel k) psi' =
    sum_basis n (fun k =>
      if sel k
      then (sin (recall_angle (length m) (hamming (reg_bits i k) (reg_bits m k))))² *
           Cnorm2 (psi k)
      else 0).
Proof.
  intros Hlen Hnd Hdis Hci Hcm Hcn Hpsi Hsel.
  eexists. split; [exact (retrieval_operator_run i m c psi Hlen Hnd Hdis Hci Hcm)|].
  exact (recall_weights n i m c psi sel Hci Hcm Hcn Hpsi Hsel).
Qed.

(** X2: on a state whose control qubit [c] is 0, retrieval leaves the
    control at 0 with the weight [cos^2 phi] of every basis state and sets
    it to 1 with the weight [sin^2 phi], [phi = pi * d / (2 * len(m))] for
    the Hamming distance [d] between the contents of [i] and [m]; this holds
    jointly with any selection [sel] of the other qubits. *)
Theorem X2_recall_probability (n : nat) (i m : list qubit) (c : qubit)
    (psi : state) (sel : N -> bool) :
  length i = length m -> NoDup m -> (forall q, In q i -> ~ In q m) ->
  ~ In c i -> ~ In c m -> (c < N.of_nat n)%N ->
  (forall k, N.testbit k c = true -> psi k = C0) ->
  (forall k, sel (flip c k) = sel k) ->
  exists psi',
    run (retrieval_gates i m c) psi = Some psi' /\
    prob n (fun k => negb (N.testbit k c) && sel k) psi' =
    sum_basis n (fun k =>
      if sel k
      then (cos (recall_angle (length m) (hamming (reg_bits i k) (reg_bits m k))))² *
           Cnorm2 (psi k)
      else 0) /\
    prob n (fun k => N.testbit k c && sel k) psi' =
    sum_basis n (fun k =>
      if sel k
      then (sin (recall_angle (length m) (hamming (reg_bits i k) (reg_bits m k))))² *
           Cnorm2 (psi k)
      else 0).
Proof.
  intros Hlen Hnd Hdis Hci Hcm Hcn Hpsi Hsel.
  exists (fun k =>
    (RtoC (cos (recall_angle (length m) (hamming (reg_bits i k) (reg_bits m k)))) * psi k +
     Ci * RtoC (sin (recall_angle (length m) (hamming (reg_bits i k) (reg_bits m k)))) *
     psi (flip c k))%C).
  split.
  - exact (retrieval_operator_run i m c psi Hlen Hnd Hdis Hci Hcm).
  - exact (recall_weights n i m c psi sel Hci Hcm Hcn Hpsi Hsel).
Qed.

Lemma X2_recall_probability_witness :
  exists psi',
    run (retrieval_gates [0; 1]%N [3; 4]%N 2%N) (ket 1%N) = Some psi' /\
    prob 5 (fun k => negb (N.testbit k 2) && true) psi' =
    sum_basis 5 (fun k =>
      if true
      then (cos (recall_angle 2 (hamming (reg_bits [0; 1]%N k) (reg_bits [3; 4]%N k))))² *
           Cnorm2 (ket 1%N k)
      else 0) /\
    prob 5 (fun k => N.testbit k 2 && true) psi' =
    sum_basis 5 (fun k =>
      if true
      then (sin (recall_angle 2 (hamming (reg_bits [0; 1]%N k) (reg_bits [3; 4]%N k))))² *
           Cnorm2 (ket 1%N k)
      else 0).
Proof.
  apply (X2_recall_probability 5 [0; 1]%N [3; 4]%N 2%N (ket 1%N) (fun _ => true)).
  - reflexivity.
  - repeat constructor; cbn; intuition lia.
  - intros q Hq Hm. cbn in Hq, Hm. lia.
  - cbn. lia.
  - cbn. lia.
  - cbn. lia.
  - intros k Hk. unfold ket. destruct (k =? 1)%N eqn:E; [|reflexivity].
    apply N.eqb_eq in E. subst k. discriminate.
  - reflexivity.
Defined.

(** ** Sums over a finite support *)

Lemma sum_list_ext {A} (f g : A -> R) (l : list A) :
  (forall x, In x l -> f x = g x) -> sum_list f l = sum_list g l.
Proof.
  induction l as [|x l IH]; intros H; [reflexivity|].
  cbn [sum_list fold_right]. fold (sum_list f l). fold (sum_list g l).
  rewrite (H x) by now left. rewrite IH; [reflexivity|].
  intros y Hy. apply H. now right.
Qed.

Lemma sum_list_zero {A} (f : A -> R) (l : list A) :
  (forall x, In x l -> f x = 0) -> sum_list f l = 0.
Proof.
  induction l as [|x l IH]; intros H; [reflexivity|].
  cbn [sum_list fold_right]. fold (sum_list f l).
  rewrite (H x) by now left. rewrite IH; [ring|].
  intros y Hy. apply H. now right.
Qed.

Lemma sum_list_single {A} (f : A -> R) (l : list A) (x : A) :
  NoDup l -> In x l -> (forall y, In y l -> y <> x -> f y = 0) ->
  sum_list f l = f x.
Proof.
  induction l as [|y l IH]; intros Hnd Hin Hz; [contradiction|].
  apply NoDup_cons_iff in Hnd. destruct Hnd as [Hy Hnd].
  cbn [sum_list fold_right]. fold (sum_list f l).
  destruct Hin as [-> | Hin].
  - rewrite sum_list_zero; [ring|].
    intros z Hz'. apply Hz; [now right|]. intros ->. contradiction.
  - rewrite (Hz y) by (now left || (intros ->; contradiction)).
    rewrite IH; [ring|assumption|assumption|].
    intros z Hz' Hne. apply Hz; [now right|assumption].
Qed.

Lemma sum_list_map {A B} (g : A -> B) (f : B -> R) (l : list A) :
  sum_list f (map g l) = sum_list (fun x => f (g x)) l.
Proof.
  induction l as [|x l IH]; [reflexivity|].
  cbn [map sum_list fold_right]. fold (sum_list f (map g l)).
  fold (sum_list (fun x => f (g x)) l). now rewrite IH.
Qed.

Lemma sum_list_scal {A} (c : R) (f : A -> R) (l : list A) :
  sum_list (fun x => f x * c) l = sum_list f l * c.
Proof.
  induction l as [|x l IH]; [cbn; ring|].
  cbn [sum_list fold_right]. fold (sum_list f l).
  fold (sum_list (fun x => f x * c) l). rewrite IH. ring.
Qed.

(** A function that vanishes outside the indices [l] sums to its values on
    [l]. *)
Lemma sum_basis_support (n : nat) (f : N -> R) (l : list N) :
  NoDup l -> Forall (fun K => (K < 2 ^ N.of_nat n)%N) l ->
  (forall k, ~ In k l -> f k = 0) ->
  sum_basis n f = sum_list f l.
Proof.
  revert f. induction l as [|K l IH]; intros f Hnd Hlt Hz.
  - cbn [sum_list fold_right]. rewrite <- (sum_basis_zero n).
    apply sum_basis_ext. intros k. apply Hz. intros [].
  - apply NoDup_cons_iff in Hnd. destruct Hnd as [HK Hnd].
    apply Forall_cons_iff in Hlt. destruct Hlt as [HKn Hlt].
    cbn [sum_list fold_right]. fold (sum_list f l).
    rewrite (sum_basis_ext n f
               (fun k => (if (k =? K)%N then f K else 0) +
                         (if (k =? K)%N then 0 else f k))).
    2:{ intros k. destruct (k =? K)%N eqn:E; [apply N.eqb_eq in E; subst k|]; ring. }
    rewrite sum_basis_plus, sum_basis_ket.
    apply N.ltb_lt in HKn. rewrite HKn. f_equal.
    rewrite (IH (fun k => if (k =? K)%N then 0 else f k) Hnd Hlt).
    + apply sum_list_ext. intros x Hx.
      destruct (x =? K)%N eqn:E; [|reflexivity].
      apply N.eqb_eq in E. subst x. contradiction.
    + intros k Hk. destruct (k =? K)%N eqn:E; [reflexivity|].
      apply N.eqb_neq in E. apply Hz. intros [E'|I']; [now apply E|contradiction].
Qed.

(** ** The state a query meets *)

Lemma x_gates_run (r : list qubit) (bs : list bool) (psi : state) :
  run (x_gates r bs) psi =
  Some (fun k => psi (N.lxor k (bit_mask (combine r bs)))).
Proof.
  rewrite run_classical by apply x_gates_classical.
  f_equal. apply functional_extensionality. intros k. f_equal.
  pose proof (circuit_perm_rev (x_gates r bs) (N.lxor k (bit_mask (combine r bs)))
                (x_gates_classical r bs)) as E.
  rewrite x_gates_perm in E.
  rewrite N.lxor_assoc, N.lxor_nilpotent, N.lxor_0_r in E. exact E.
Qed.

Section Recall.
Variables (n : nat) (p m : list qubit) (u0 u1 : qubit).
Hypothesis Hnd : NoDup (p ++ u0 :: u1 :: m).
Hypothesis Hlen : length m = length p.
Hypothesis Hbound : Forall (fun q => (q < N.of_nat n)%N) (p ++ u0 :: u1 :: m).
Variable q : N.

Local Abbreviation w := (length p).
Local Abbreviation qmask := (bit_mask (combine p (lsb_bits q (length p)))).

(** The index on which the stored pattern [v] sits once the query is
    loaded. *)
Local Abbreviation entry v := (N.lxor (reg_index m v) qmask).

Lemma query_state (vals : list N) :
  (0 < length vals)%nat ->
  Forall (fun v => (v < 2 ^ N.of_nat w)%N) vals -> NoDup vals ->
  run ([XGate u1] ++ storage_gates (length vals) p u0 u1 m 0 vals ++
       x_gates p (lsb_bits q w)) (ket 0) =
  Some (fun k => memory_state (length vals) m u1 (rev vals) (N.lxor k qmask)).
Proof using Hnd Hlen.
  intros Hpos Hfit Hd. cbn [app].
  rewrite (run_classical_cons (XGate u1) _ 0%N I). cbn [gate_perm].
  unfold flip. rewrite N.lxor_0_l. rewrite run_app.
  rewrite <- (memory_state_nil (length vals) m u1 Hpos).
  pose proof (storage_gates_memory p m u0 u1 Hnd Hlen (length vals) vals []) as E.
  cbn [length] in E. rewrite !app_nil_r in E.
  rewrite E by (lia || assumption). apply x_gates_run.
Qed.

Lemma entry_bits_p (v : N) : reg_bits p (entry v) = lsb_bits q w.
Proof using Hnd Hlen.
  unfold reg_bits. rewrite map_testbit_lxor.
  pose proof (reg_index_bits_p p m u0 u1 Hnd v) as E. unfold reg_bits in E.
  rewrite E, (bit_mask_read p _ (layout_p p m u0 u1 Hnd)) by apply lsb_bits_length.
  apply xor_bits_false_l'. apply lsb_bits_length.
Qed.

Lemma entry_bits_m (v : N) : reg_bits m (entry v) = lsb_bits v w.
Proof using Hnd Hlen.
  unfold reg_bits. rewrite map_testbit_lxor.
  pose proof (reg_index_bits_m p m u0 u1 Hnd Hlen v) as E. unfold reg_bits in E.
  rewrite E, (map_testbit_notin m p _ (layout_m_p p m u0 u1 Hnd)).
  apply xor_bits_false_r'. rewrite lsb_bits_length. now symmetry.
Qed.

Lemma entry_bit_u0 (v : N) : N.testbit (entry v) u0 = false.
Proof using Hnd.
  rewrite N.lxor_spec. unfold reg_index.
  rewrite !bit_mask_notin; [reflexivity| |].
  - intros H. apply in_combine_fst in H.
    now apply (layout_u0_p p m u0 u1 Hnd).
  - intros H. apply in_combine_fst in H.
    now apply (layout_u0_m p m u0 u1 Hnd).
Qed.

Lemma entry_lt (v : N) : (entry v < 2 ^ N.of_nat n)%N.
Proof using Hbound.
  apply lxor_lt_pow2; apply bit_mask_lt, combine_fst_bound.
  - exact (bound_m n p m u0 u1 Hbound).
  - exact (bound_p n p m u0 u1 Hbound).
Qed.

Lemma entry_inj (v v' : N) :
  (v < 2 ^ N.of_nat w)%N -> (v' < 2 ^ N.of_nat w)%N ->
  entry v = entry v' -> v = v'.
Proof using Hnd Hlen.
  intros Hv Hv' E. apply (reg_index_inj p m u0 u1 Hnd Hlen v v' Hv Hv').
  apply (f_equal (fun x => N.lxor x qmask)) in E.
  now rewrite !N.lxor_assoc, !N.lxor_nilpotent, !N.lxor_0_r in E.
Qed.

Lemma entry_nodup (vals : list N) :
  Forall (fun v => (v < 2 ^ N.of_nat w)%N) vals -> NoDup vals ->
  NoDup (map (fun v => entry v) vals).
Proof using Hnd Hlen.
  intros Hfit Hd. induction Hd as [|v l Hv Hd IH]; [constructor|].
  apply Forall_cons_iff in Hfit. destruct Hfit as [Hvf Hfit].
  cbn [map]. constructor; [|now apply IH].
  intros H. apply in_map_iff in H. destruct H as (v' & E & Hv').
  rewrite Forall_forall in Hfit.
  apply entry_inj in E; [subst v'; contradiction|now apply Hfit|exact Hvf].
Qed.

Lemma query_state_at_entry (vals : list N) (v : N) :
  Forall (fun v => (v < 2 ^ N.of_nat w)%N) vals -> NoDup vals -> In v vals ->
  memory_state (length vals) m u1 (rev vals) (N.lxor (entry v) qmask) =
  RtoC (/ sqrt (INR (length vals))).
Proof using Hnd Hlen.
  intros Hfit Hd Hv.
  rewrite N.lxor_assoc, N.lxor_nilpotent, N.lxor_0_r.
  apply (memory_state_at_stored p m u0 u1 Hnd Hlen).
  - now apply Forall_rev.
  - now apply NoDup_rev.
  - now apply in_rev in Hv.
Qed.

Lemma query_state_support (vals : list N) (k : N) :
  memory_state (length vals) m u1 (rev vals) (N.lxor k qmask) <> C0 ->
  In k (map (fun v => entry v) vals).
Proof using Hnd Hlen.
  intros Hk.
  destruct (memory_state_support _ _ _ _ _ Hk) as [E | (v & Hv & E)].
  - exfalso. apply Hk. rewrite E, (memory_state_at_fresh p m u0 u1 Hnd).
    rewrite length_rev, Nat.sub_diag. cbn [INR]. unfold Rdiv. rewrite Rmult_0_l, sqrt_0.
    reflexivity.
  - apply in_map_iff. exists v. split; [|now apply in_rev].
    rewrite <- E. now rewrite N.lxor_assoc, N.lxor_nilpotent, N.lxor_0_r.
Qed.

Lemma query_state_u0 (vals : list N) (k : N) :
  N.testbit k u0 = true ->
  memory_state (length vals) m u1 (rev vals) (N.lxor k qmask) = C0.
Proof using Hnd Hlen.
  intros Hk.
  destruct (C_eq_dec (memory_state (length vals) m u1 (rev vals) (N.lxor k qmask)) C0)
    as [E | NE]; [exact E|].
  apply query_state_support in NE. apply in_map_iff in NE.
  destruct NE as (v & E & _). rewrite <- E, entry_bit_u0 in Hk. discriminate.
Qed.

(** The weighted sum over the basis of the state the query meets is a sum
    over the stored patterns. *)
Lemma query_weight_sum (vals : list N) (W : nat -> R) (sel : N -> bool) :
  (0 < length vals)%nat ->
  Forall (fun v => (v < 2 ^ N.of_nat w)%N) vals -> NoDup vals ->
  sum_basis n (fun k =>
    if sel k
    then W (hamming (reg_bits p k) (reg_bits m k)) *
         Cnorm2 (memory_state (length vals) m u1 (rev vals) (N.lxor k qmask))
    else 0) =
  sum_list (fun v =>
    if sel (entry v)
    then W (hamming (lsb_bits q w) (lsb_bits v w)) / INR (length vals)
    else 0) vals.
Proof using Hnd Hlen Hbound.
  intros Hpos Hfit Hd.
  rewrite (sum_basis_support n _ (map (fun v => entry v) vals)).
  - rewrite sum_list_map. apply sum_list_ext. intros v Hv. cbv beta.
    destruct (sel (entry v)); [|reflexivity].
    rewrite entry_bits_p, entry_bits_m, (query_state_at_entry vals v Hfit Hd Hv).
    unfold Cnorm2, RtoC. cbn [fst snd].
    assert (HN : 0 < INR (length vals)) by (apply lt_0_INR; lia).
    assert (Hs : sqrt (INR (length vals)) * sqrt (INR (length vals)) = INR (length vals))
      by (apply sqrt_sqrt; lra).
    assert (Hs0 : sqrt (INR (length vals)) <> 0).
    { intros E0. rewrite E0 in Hs. lra. }
    rewrite <- Hs at 3. field. exact Hs0.
  - now apply entry_nodup.
  - apply Forall_forall. intros K HK. apply in_map_iff in HK.
    destruct HK as (v & <- & _). apply entry_lt.
  - intros k Hk. destruct (sel k); [|reflexivity].
    destruct (C_eq_dec (memory_state (length vals) m u1 (rev vals) (N.lxor k qmask)) C0)
      as [E | NE].
    + rewrite E, Cnorm2_C0. ring.
    + apply query_state_support in NE. contradiction.
Qed.

Lemma reg_reads_entry (v v0 : N) :
  reg_reads m (lsb_bits v0 w) (entry v) =
  if list_eq_dec Bool.bool_dec (lsb_bits v w) (lsb_bits v0 w) then true else false.
Proof using Hnd Hlen. unfold reg_reads. now rewrite entry_bits_m. Qed.

(** The weight of the basis states in which the memory register reads one
    stored pattern. *)
Lemma query_weight_pattern (vals : list N) (W : nat -> R) (v0 : N) :
  (0 < length vals)%nat ->
  Forall (fun v => (v < 2 ^ N.of_nat w)%N) vals -> NoDup vals -> In v0 vals ->
  sum_basis n (fun k =>
    if reg_reads m (lsb_bits v0 w) k
    then W (hamming (reg_bits p k) (reg_bits m k)) *
         Cnorm2 (memory_state (length vals) m u1 (rev vals) (N.lxor k qmask))
    else 0) =
  W (hamming (lsb_bits q w) (lsb_bits v0 w)) / INR (length vals).
Proof using Hnd Hlen Hbound.
  intros Hpos Hfit Hd Hv0.
  rewrite (query_weight_sum vals W (reg_reads m (lsb_bits v0 w)) Hpos Hfit Hd).
  rewrite (sum_list_single _ vals v0 Hd Hv0).
  - rewrite reg_reads_entry.
    destruct (list_eq_dec Bool.bool_dec (lsb_bits v0 w) (lsb_bits v0 w)) as [_|NE];
      [reflexivity|now contradiction NE].
  - intros y Hy Hne. rewrite reg_reads_entry.
    destruct (list_eq_dec Bool.bool_dec (lsb_bits y w) (lsb_bits v0 w)) as [E|_];
      [|reflexivity].
    exfalso. apply Hne. rewrite Forall_forall in Hfit.
    apply (lsb_bits_inj y v0 w); [now apply Hfit|now apply Hfit|exact E].
Qed.

End Recall.

Lemma prob_ext (n : nat) (sel sel' : N -> bool) (psi : state) :
  (forall k, sel k = sel' k) -> prob n sel psi = prob n sel' psi.
Proof.
  intros E. unfold prob. apply sum_basis_ext. intros k. now rewrite E.
Qed.

Lemma reg_reads_flip (r : list qubit) (bs : list bool) (c : qubit) (k : N) :
  ~ In c r -> reg_reads r bs (flip c k) = reg_reads r bs k.
Proof. intros Hc. unfold reg_reads. now rewrite reg_bits_flip. Qed.

(** The experiment: the state [store_then_retrieve] builds and the
    probabilities of its outcomes. *)
Lemma recall_experiment (n : nat) (i m u : list qubit) (u0 u1 : qubit)
    (ps : list Z) (query : Z) :
  NoDup (i ++ u0 :: u1 :: m) -> length m = length i ->
  Forall (fun q => (q < N.of_nat n)%N) (i ++ u0 :: u1 :: m) ->
  nth_error u 0 = Some u0 -> nth_error u 1 = Some u1 ->
  Forall (fun val => (Z.abs_N val < 2 ^ N.of_nat (length i))%N) ps ->
  NoDup (map Z.abs_N ps) -> (0 < length ps)%nat ->
  (Z.abs_N query < 2 ^ N.of_nat (length i))%N ->
  exists psi',
    store_then_retrieve ps query i u m u0 [] =
      (Ok tt, experiment_gates ps query i u0 u1 m u0) /\
    run (experiment_gates ps query i u0 u1 m u0) (ket 0) = Some psi' /\
    (forall val, In val ps ->
       prob n (fun k => negb (N.testbit k u0) &&
                        reg_reads m (lsb_bits (Z.abs_N val) (length i)) k) psi' =
         recall_weight cos (length i) (length ps) query val /\
       prob n (fun k => N.testbit k u0 &&
                        reg_reads m (lsb_bits (Z.abs_N val) (length i)) k) psi' =
         recall_weight sin (length i) (length ps) query val) /\
    prob_qubit n u0 false psi' =
      sum_list (recall_weight cos (length i) (length ps) query) ps /\
    prob_qubit n u0 true psi' =
      sum_list (recall_weight sin (length i) (length ps) query) ps.
Proof.
  intros Hnd Hlen Hb H0 H1 Hfit Hd Hpos Hq.
  set (vals := map Z.abs_N ps).
  assert (Hlv : length vals = length ps) by (unfold vals; apply length_map).
  assert (Hfv : Forall (fun v => (v < 2 ^ N.of_nat (length i))%N) vals).
  { unfold vals. apply Forall_forall. intros v Hv. apply in_map_iff in Hv.
    destruct Hv as (val & <- & Hval). rewrite Forall_forall in Hfit. now apply Hfit. }
  assert (Hpv : (0 < length vals)%nat) by lia.
  pose proof (query_state i m u0 u1 Hnd Hlen (Z.abs_N query) vals Hpv Hfv Hd) as Rq.
  set (psiq := fun k : N =>
                 memory_state (length vals) m u1 (rev vals)
                   (N.lxor k (bit_mask (combine i (lsb_bits (Z.abs_N query) (length i))))))
    in Rq.
  assert (Hu0 : forall k, N.testbit k u0 = true -> psiq k = C0).
  { intros k Hk. unfold psiq.
    exact (query_state_u0 i m u0 u1 Hnd Hlen (Z.abs_N query) vals k Hk). }
  assert (Hrun : forall psi', run (retrieval_gates i m u0) psiq = Some psi' ->
                 run (experiment_gates ps query i u0 u1 m u0) (ket 0) = Some psi').
  { intros psi' R. unfold experiment_gates. fold vals.
    rewrite (app_assoc (storage_gates _ _ _ _ _ _ _)), (app_assoc [XGate u1]).
    rewrite run_app. rewrite <- Hlv. rewrite Rq. exact R. }
  assert (Hagg : forall (sel : N -> bool),
            (forall k, sel (flip u0 k) = sel k) ->
            exists psi', run (retrieval_gates i m u0) psiq = Some psi' /\
              prob n (fun k => negb (N.testbit k u0) && sel k) psi' =
              sum_basis n (fun k =>
                if sel k
                then (cos (recall_angle (length i)
                             (hamming (reg_bits i k) (reg_bits m k))))² *
                     Cnorm2 (psiq k)
                else 0) /\
              prob n (fun k => N.testbit k u0 && sel k) psi' =
              sum_basis n (fun k =>
                if sel k
                then (sin (recall_angle (length i)
                             (hamming (reg_bits i k) (reg_bits m k))))² *
                     Cnorm2 (psiq k)
                else 0)).
  { intros sel Hsel. rewrite <- Hlen.
    apply (recall_probability_aux n i m u0 psiq sel).
    - now symmetry.
    - exact (layout_m i m u0 u1 Hnd).
    - exact (layout_p_m i m u0 u1 Hnd).
    - exact (layout_u0_p i m u0 u1 Hnd).
    - exact (layout_u0_m i m u0 u1 Hnd).
    - exact (bound_u0 n i m u0 u1 Hb).
    - exact Hu0.
    - exact Hsel. }
  destruct (Hagg (fun _ => true) (fun _ => eq_refl)) as (psi' & R & Pc & Ps).
  exists psi'. split; [|split; [|split; [|split]]].
  - rewrite (store_then_retrieve_ok ps query i u m u0 u1 u0 []) by (lia || assumption).
    reflexivity.
  - now apply Hrun.
  - intros val Hval.
    assert (Hv0 : In (Z.abs_N val) vals) by (unfold vals; now apply in_map).
    destruct (Hagg (reg_reads m (lsb_bits (Z.abs_N val) (length i))))
      as (psi2 & R2 & Pc2 & Ps2).
    { intros k. apply reg_reads_flip. exact (layout_u0_m i m u0 u1 Hnd). }
    rewrite R in R2. injection R2 as <-.
    unfold recall_weight. rewrite <- Hlv. split.
    + rewrite Pc2. unfold psiq.
      exact (query_weight_pattern n i m u0 u1 Hnd Hlen Hb (Z.abs_N query) vals
               (fun d => (cos (recall_angle (length i) d))²) (Z.abs_N val)
               Hpv Hfv Hd Hv0).
    + rewrite Ps2. unfold psiq.
      exact (query_weight_pattern n i m u0 u1 Hnd Hlen Hb (Z.abs_N query) vals
               (fun d => (sin (recall_angle (length i) d))²) (Z.abs_N val)
               Hpv Hfv Hd Hv0).
  - unfold prob_qubit.
    rewrite (prob_ext n _ (fun k => negb (N.testbit k u0) && true)).
    2:{ intros k. now destruct (N.testbit k u0). }
    rewrite Pc. unfold psiq.
    pose proof (query_weight_sum n i m u0 u1 Hnd Hlen Hb (Z.abs_N query) vals
                  (fun d => (cos (recall_angle (length i) d))²) (fun _ => true)
                  Hpv Hfv Hd) as E.
    cbv beta in E. rewrite E, Hlv. unfold vals. rewrite sum_list_map. reflexivity.
  - unfold prob_qubit.
    rewrite (prob_ext n _ (fun k => N.testbit k u0 && true)).
    2:{ intros k. now destruct (N.testbit k u0). }
    rewrite Ps. unfold psiq.
    pose proof (query_weight_sum n i m u0 u1 Hnd Hlen Hb (Z.abs_N query) vals
                  (fun d => (sin (recall_angle (length i) d))²) (fun _ => true)
                  Hpv Hfv Hd) as E.
    cbv beta in E. rewrite E, Hlv. unfold vals. rewrite sum_list_map. reflexivity.
Qed.

Lemma hamming_same (x : list bool) : hamming x x = 0%nat.
Proof.
  unfold hamming. rewrite xor_bits_same.
  induction (length x) as [|k IH]; [reflexivity|exact IH].
Qed.

Lemma hamming_le (x y : list bool) : (hamming x y <= length x)%nat.
Proof.
  revert y. induction x as [|a x IH]; intros [|b y]; cbn [length]; try (cbn; lia).
  rewrite hamming_cons. specialize (IH y). destruct (xorb a b); lia.
Qed.

Lemma recall_angle_0 (w : nat) : recall_angle w 0 = 0.
Proof. unfold recall_angle. cbn [INR]. unfold Rdiv. ring. Qed.

Lemma recall_angle_bounds (w d : nat) :
  (d <= w)%nat -> 0 <= recall_angle w d <= PI / 2.
Proof.
  intros Hd. unfold recall_angle.
  pose proof PI_RGT_0 as Hpi.
  destruct w as [|w].
  - replace d with 0%nat by lia. cbn [INR]. unfold Rdiv. rewrite Rmult_0_r, Rmult_0_l.
    lra.
  - assert (Hw : 0 < INR (S w)) by (apply lt_0_INR; lia).
    assert (Hd0 : 0 <= INR d) by apply pos_INR.
    assert (Hdw : INR d <= INR (S w)) by now apply le_INR.
    split.
    + apply Rmult_le_pos; [nra|]. apply Rlt_le, Rinv_0_lt_compat. lra.
    + apply (Rmult_le_reg_r (2 * INR (S w))); [lra|].
      unfold Rdiv. rewrite Rmult_assoc, Rinv_l by lra. nra.
Qed.

Lemma recall_angle_mono (w d1 d2 : nat) :
  (d1 <= d2)%nat -> recall_angle w d1 <= recall_angle w d2.
Proof.
  intros Hd. unfold recall_angle. pose proof PI_RGT_0 as Hpi.
  assert (H12 : INR d1 <= INR d2) by now apply le_INR.
  assert (Hinv : 0 <= / (2 * INR w)).
  { destruct w as [|w].
    - cbn [INR]. rewrite Rmult_0_r, Rinv_0. lra.
    - apply Rlt_le, Rinv_0_lt_compat.
      assert (0 < INR (S w)) by (apply lt_0_INR; lia). lra. }
  unfold Rdiv. apply Rmult_le_compat_r; [exact Hinv|]. nra.
Qed.

(** The weight of a pattern falls with its Hamming distance. *)
Lemma recall_cos_mono (w d1 d2 : nat) :
  (d1 <= d2)%nat -> (d2 <= w)%nat ->
  (cos (recall_angle w d2))² <= (cos (recall_angle w d1))².
Proof.
  intros H12 H2w.
  destruct (recall_angle_bounds w d1 ltac:(lia)) as [L1 U1].
  destruct (recall_angle_bounds w d2 H2w) as [L2 U2].
  pose proof PI_RGT_0 as Hpi.
  apply Rsqr_incr_1.
  - apply cos_decr_1; try lra. now apply recall_angle_mono.
  - apply cos_ge_0; lra.
  - apply cos_ge_0; lra.
Qed.

(** X3: the outcome of the experiment of [run_quantum_memory] for any
    distinct patterns and any query that fit the registers:
    [store_then_retrieve] succeeds, and in the state it builds from
    |0...0> the memory register reads the stored pattern [val] together
    with the control [u0] at 0 with probability
    [cos^2 (pi * d / (2 * w)) / len(ps)], and together with the control at 1
    with probability [sin^2 (pi * d / (2 * w)) / len(ps)], [d] being the
    Hamming distance between [val] and the query and [w] the register
    width. *)
Theorem X3_recall_joint_distribution (n : nat) (i m u : list qubit) (u0 u1 : qubit)
    (ps : list Z) (query : Z) :
  NoDup (i ++ u0 :: u1 :: m) -> length m = length i ->
  Forall (fun q => (q < N.of_nat n)%N) (i ++ u0 :: u1 :: m) ->
  nth_error u 0 = Some u0 -> nth_error u 1 = Some u1 ->
  Forall (fun val => (Z.abs_N val < 2 ^ N.of_nat (length i))%N) ps ->
  NoDup (map Z.abs_N ps) -> (0 < length ps)%nat ->
  (Z.abs_N query < 2 ^ N.of_nat (length i))%N ->
  exists psi',
    store_then_retrieve ps query i u m u0 [] =
      (Ok tt, experiment_gates ps query i u0 u1 m u0) /\
    run (experiment_gates ps query i u0 u1 m u0) (ket 0) = Some psi' /\
    forall val, In val ps ->
      prob n (fun k => negb (N.testbit k u0) &&
                       reg_reads m (lsb_bits (Z.abs_N val) (length i)) k) psi' =
        recall_weight cos (length i) (length ps) query val /\
      prob n (fun k => N.testbit k u0 &&
                       reg_reads m (lsb_bits (Z.abs_N val) (length i)) k) psi' =
        recall_weight sin (length i) (length ps) query val.
Proof.
  intros Hnd Hlen Hb H0 H1 Hfit Hd Hpos Hq.
  destruct (recall_experiment n i m u u0 u1 ps query Hnd Hlen Hb H0 H1 Hfit Hd Hpos Hq)
    as (psi' & B & R & J & _).
  exists psi'. auto.
Qed.

Lemma X3_recall_joint_distribution_witness :
  exists psi',
    store_then_retrieve [1; 4]%Z 4%Z [0; 1; 2]%N [3; 4]%N [5; 6; 7]%N 3%N [] =
      (Ok tt, experiment_gates [1; 4]%Z 4%Z [0; 1; 2]%N 3%N 4%N [5; 6; 7]%N 3%N) /\
    run (experiment_gates [1; 4]%Z 4%Z [0; 1; 2]%N 3%N 4%N [5; 6; 7]%N 3%N) (ket 0) =
      Some psi' /\
    forall val, In val [1; 4]%Z ->
      prob 8 (fun k => negb (N.testbit k 3) &&
                       reg_reads [5; 6; 7]%N (lsb_bits (Z.abs_N val) 3) k) psi' =
        recall_weight cos 3 2 4%Z val /\
      prob 8 (fun k => N.testbit k 3 &&
                       reg_reads [5; 6; 7]%N (lsb_bits (Z.abs_N val) 3) k) psi' =
        recall_weight sin 3 2 4%Z val.
Proof.
  apply (X3_recall_joint_distribution 8 [0; 1; 2]%N [5; 6; 7]%N [3; 4]%N 3%N 4%N
           [1; 4]%Z 4%Z).
  - exact driver_layout.
  - reflexivity.
  - exact driver_bound.
  - reflexivity.
  - reflexivity.
  - repeat constructor.
  - cbn. repeat constructor; cbn; intuition discriminate.
  - cbn. lia.
  - reflexivity.
Defined.

(** X4: in the same experiment the control qubit [u0] is read as 0 with
    probability [(1 / len(ps)) * sum over the stored patterns of
    cos^2 (pi * d / (2 * w))] and as 1 with the same sum of [sin^2]. *)
Theorem X4_recall_control_probability (n : nat) (i m u : list qubit) (u0 u1 : qubit)
    (ps : list Z) (query : Z) :
  NoDup (i ++ u0 :: u1 :: m) -> length m = length i ->
  Forall (fun q => (q < N.of_nat n)%N) (i ++ u0 :: u1 :: m) ->
  nth_error u 0 = Some u0 -> nth_error u 1 = Some u1 ->
  Forall (fun val => (Z.abs_N val < 2 ^ N.of_nat (length i))%N) ps ->
  NoDup (map Z.abs_N ps) -> (0 < length ps)%nat ->
  (Z.abs_N query < 2 ^ N.of_nat (length i))%N ->
  exists psi',
    run (experiment_gates ps query i u0 u1 m u0) (ket 0) = Some psi' /\
    prob_qubit n u0 false psi' =
      sum_list (recall_weight cos (length i) (length ps) query) ps /\
    prob_qubit n u0 true psi' =
      sum_list (recall_weight sin (length i) (length ps) query) ps.
Proof.
  intros Hnd Hlen Hb H0 H1 Hfit Hd Hpos Hq.
  destruct (recall_experiment n i m u u0 u1 ps query Hnd Hlen Hb H0 H1 Hfit Hd Hpos Hq)
    as (psi' & _ & R & _ & P0 & P1).
  exists psi'. auto.
Qed.

Lemma X4_recall_control_probability_witness :
  exists psi',
    run (experiment_gates [1; 4]%Z 4%Z [0; 1; 2]%N 3%N 4%N [5; 6; 7]%N 3%N) (ket 0) =
      Some psi' /\
    prob_qubit 8 3%N false psi' = sum_list (recall_weight cos 3 2 4%Z) [1; 4]%Z /\
    prob_qubit 8 3%N true psi' = sum_list (recall_weight sin 3 2 4%Z) [1; 4]%Z.
Proof.
  apply (X4_recall_control_probability 8 [0; 1; 2]%N [5; 6; 7]%N [3; 4]%N 3%N 4%N
           [1; 4]%Z 4%Z).
  - exact driver_layout.
  - reflexivity.
  - exact driver_bound.
  - reflexivity.
  - reflexivity.
  - repeat constructor.
  - cbn. repeat constructor; cbn; intuition discriminate.
  - cbn. lia.
  - reflexivity.
Defined.

(** X5: when the query is one of the stored patterns, the memory register
    reads it together with the control at 0 with probability exactly
    [1 / len(ps)], and never together with the control at 1. *)
Theorem X5_recall_of_a_stored_query (n : nat) (i m u : list qubit) (u0 u1 : qubit)
    (ps : list Z) (query : Z) :
  NoDup (i ++ u0 :: u1 :: m) -> length m = length i ->
  Forall (fun q => (q < N.of_nat n)%N) (i ++ u0 :: u1 :: m) ->
  nth_error u 0 = Some u0 -> nth_error u 1 = Some u1 ->
  Forall (fun val => (Z.abs_N val < 2 ^ N.of_nat (length i))%N) ps ->
  NoDup (map Z.abs_N ps) -> In query ps ->
  exists psi',
    run (experiment_gates ps query i u0 u1 m u0) (ket 0) = Some psi' /\
    prob n (fun k => negb (N.testbit k u0) &&
                     reg_reads m (lsb_bits (Z.abs_N query) (length i)) k) psi' =
      1 / INR (length ps) /\
    prob n (fun k => N.testbit k u0 &&
                     reg_reads m (lsb_bits (Z.abs_N query) (length i)) k) psi' = 0.
Proof.
  intros Hnd Hlen Hb H0 H1 Hfit Hd Hin.
  assert (Hpos : (0 < length ps)%nat) by (destruct ps; [contradiction|cbn; lia]).
  assert (Hq : (Z.abs_N query < 2 ^ N.of_nat (length i))%N).
  { rewrite Forall_forall in Hfit. now apply Hfit. }
  destruct (recall_experiment n i m u u0 u1 ps query Hnd Hlen Hb H0 H1 Hfit Hd Hpos Hq)
    as (psi' & _ & R & J & _).
  destruct (J query Hin) as [Jc Js].
  exists psi'. split; [exact R|]. rewrite Jc, Js.
  unfold recall_weight. rewrite hamming_same, recall_angle_0, cos_0, sin_0.
  unfold Rsqr, Rdiv. split; ring.
Qed.

Lemma X5_recall_of_a_stored_query_witness :
  exists psi',
    run (experiment_gates [1; 4]%Z 4%Z [0; 1; 2]%N 3%N 4%N [5; 6; 7]%N 3%N) (ket 0) =
      Some psi' /\
    prob 8 (fun k => negb (N.testbit k 3) &&
                     reg_reads [5; 6; 7]%N (lsb_bits (Z.abs_N 4) 3) k) psi' =
      1 / INR 2 /\
    prob 8 (fun k => N.testbit k 3 &&
                     reg_reads [5; 6; 7]%N (lsb_bits (Z.abs_N 4) 3) k) psi' = 0.
Proof.
  apply (X5_recall_of_a_stored_query 8 [0; 1; 2]%N [5; 6; 7]%N [3; 4]%N 3%N 4%N
           [1; 4]%Z 4%Z).
  - exact driver_layout.
  - reflexivity.
  - exact driver_bound.
  - reflexivity.
  - reflexivity.
  - repeat constructor.
  - cbn. repeat constructor; cbn; intuition discriminate.
  - cbn. auto.
Defined.

(** X6: a stored pattern that is closer to the query in Hamming distance is
    read together with the control at 0 with at least the probability of one
    that is farther. *)
Theorem X6_closer_patterns_weigh_more (n : nat) (i m u : list qubit) (u0 u1 : qubit)
    (ps : list Z) (query val1 val2 : Z) :
  NoDup (i ++ u0 :: u1 :: m) -> length m = length i ->
  Forall (fun q => (q < N.of_nat n)%N) (i ++ u0 :: u1 :: m) ->
  nth_error u 0 = Some u0 -> nth_error u 1 = Some u1 ->
  Forall (fun val => (Z.abs_N val < 2 ^ N.of_nat (length i))%N) ps ->
  NoDup (map Z.abs_N ps) ->
  (Z.abs_N query < 2 ^ N.of_nat (length i))%N ->
  In val1 ps -> In val2 ps ->
  (hamming (lsb_bits (Z.abs_N query) (length i)) (lsb_bits (Z.abs_N val1) (length i)) <=
   hamming (lsb_bits (Z.abs_N query) (length i)) (lsb_bits (Z.abs_N val2) (length i)))%nat ->
  exists psi',
    run (experiment_gates ps query i u0 u1 m u0) (ket 0) = Some psi' /\
    prob n (fun k => negb (N.testbit k u0) &&
                     reg_reads m (lsb_bits (Z.abs_N val2) (length i)) k) psi' <=
    prob n (fun k => negb (N.testbit k u0) &&
                     reg_reads m (lsb_bits (Z.abs_N val1) (length i)) k) psi'.
Proof.
  intros Hnd Hlen Hb H0 H1 Hfit Hd Hq Hv1 Hv2 Hle.
  assert (Hpos : (0 < length ps)%nat) by (destruct ps; [contradiction|cbn; lia]).
  destruct (recall_experiment n i m u u0 u1 ps query Hnd Hlen Hb H0 H1 Hfit Hd Hpos Hq)
    as (psi' & _ & R & J & _).
  destruct (J val1 Hv1) as [J1 _]. destruct (J val2 Hv2) as [J2 _].
  exists psi'. split; [exact R|]. rewrite J1, J2. unfold recall_weight.
  assert (HN : 0 < INR (length ps)) by (apply lt_0_INR; lia).
  unfold Rdiv. apply Rmult_le_compat_r; [apply Rlt_le, Rinv_0_lt_compat, HN|].
  apply recall_cos_mono; [exact Hle|].
  rewrite <- (lsb_bits_length (Z.abs_N query) (length i)) at 3. apply hamming_le.
Qed.

Lemma X6_closer_patterns_weigh_more_witness :
  exists psi',
    run (experiment_gates [1; 4]%Z 4%Z [0; 1; 2]%N 3%N 4%N [5; 6; 7]%N 3%N) (ket 0) =
      Some psi' /\
    prob 8 (fun k => negb (N.testbit k 3) &&
                     reg_reads [5; 6; 7]%N (lsb_bits (Z.abs_N 1) 3) k) psi' <=
    prob 8 (fun k => negb (N.testbit k 3) &&
                     reg_reads [5; 6; 7]%N (lsb_bits (Z.abs_N 4) 3) k) psi'.
Proof.
  apply (X6_closer_patterns_weigh_more 8 [0; 1; 2]%N [5; 6; 7]%N [3; 4]%N 3%N 4%N
           [1; 4]%Z 4%Z 4%Z 1%Z).
  - exact driver_layout.
  - reflexivity.
  - exact driver_bound.
  - reflexivity.
  - reflexivity.
  - repeat constructor.
  - cbn. repeat constructor; cbn; intuition discriminate.
  - reflexivity.
  - cbn. auto.
  - cbn. auto.
  - vm_compute. lia.
Defined.

(** ** The exponential-phase operator *)

(** X7: with the control outside the memory register, [apply_u_and_cu]
    succeeds and its circuit multiplies the amplitude of every basis index
    by [exp (i * pi * z / (2 * n))] where the control is 0 and by
    [exp (- i * pi * z / (2 * n))] where it is 1, [z] being the number of
    memory qubits that are 0 and [n = len(m)]. *)
Theorem X7_apply_u_and_cu_phase (m : list qubit) (c : qubit) (psi : state) :
  ~ In c m ->
  exists qc,
    apply_u_and_cu m c [] = (Ok tt, qc) /\
    run qc psi =
    Some (fun k =>
            (Cexp_i (if N.testbit k c
                     then - recall_angle (length m) (zero_count m k)
                     else recall_angle (length m) (zero_count m k)) * psi k)%C).
Proof.
  intros Hc. eexists. split.
  { rewrite apply_u_and_cu_ok. reflexivity. }
  cbn [app].
  pose proof (phase_circuit_app _ _ _ _
                (u_gates_phase (Z.of_nat (length m)) m)
                (cu_gates_phase (Z.of_nat (length m)) c m Hc)) as H.
  rewrite H. f_equal. apply functional_extensionality. intros k. f_equal.
  unfold recall_angle. rewrite <- INR_IZR_INZ.
  set (z := INR (zero_count m k)). set (w := INR (length m)).
  destruct (N.testbit k c).
  - rewrite <- Cexp_i_add. f_equal. unfold Rdiv. rewrite Rinv_mult. lra.
  - rewrite Cmult_1_l. f_equal. unfold Rdiv. rewrite Rinv_mult. lra.
Qed.

Lemma X7_apply_u_and_cu_phase_witness :
  exists qc,
    apply_u_and_cu [5; 6; 7]%N 3%N [] = (Ok tt, qc) /\
    run qc (ket 0) =
    Some (fun k =>
            (Cexp_i (if N.testbit k 3%N
                     then - recall_angle 3 (zero_count [5; 6; 7]%N k)
                     else recall_angle 3 (zero_count [5; 6; 7]%N k)) * ket 0 k)%C).
Proof.
  apply (X7_apply_u_and_cu_phase [5; 6; 7]%N 3%N (ket 0)).
  cbn. intuition discriminate.
Defined.

(** X8: for an int [n] that a float can hold (Python converts [n] in
    [2.0 * n], and raises [OverflowError] from [2^1024 - 2^970] on), [u_gate]
    raises [ZeroDivisionError] exactly when [n] is 0, and then only after its
    first bit flip has been appended; for every other [n] it appends the bit
    flip, the phase rotation of angle [pi / (2 n)] and the bit flip. *)
Theorem X8_u_gate_zero_division (q : qubit) (n : Z) (qc : QuantumCircuit) :
  (Z.abs n < 2 ^ 1024 - 2 ^ 970)%Z ->
  u_gate q n qc =
  if (n =? 0)%Z
  then (Raise ZeroDivisionError, qc ++ [XGate q])
  else (Ok tt, qc ++ [XGate q; PhaseGate (Num (PI / (2 * IZR n))) q; XGate q]).
Proof.
  intros _. destruct (n =? 0)%Z eqn:E.
  - apply Z.eqb_eq in E. subst n.
    unfold u_gate, bind, qc_x, append, lift, float_truediv, np_pi, float_mul.
    destruct (Req_dec_T (2 * 0) 0) as [_|NE]; [reflexivity|].
    exfalso. apply NE. ring.
  - apply Z.eqb_neq in E. now apply u_gate_ok.
Qed.

Lemma X8_u_gate_zero_division_witness :
  (Z.abs 0 < 2 ^ 1024 - 2 ^ 970)%Z /\
  u_gate 5%N 0 [] = (Raise ZeroDivisionError, [] ++ [XGate 5%N]).
Proof.
  split; [vm_compute; reflexivity|].
  apply (X8_u_gate_zero_division 5%N 0 []). vm_compute. reflexivity.
Defined.

(** X9: for a control different from the target and an int [n] that a
    float can hold (Python converts [n] in [-np.pi / n], and raises
    [OverflowError] from [2^1024 - 2^970] on), [cu_squared] raises
    [ZeroDivisionError] exactly when [n] is 0, and then before anything is
    appended; for every other [n] it appends the controlled phase rotation of
    angle [- pi / n] between two CX gates. *)
Theorem X9_cu_squared_zero_division (c t : qubit) (n : Z) (qc : QuantumCircuit) :
  c <> t -> (Z.abs n < 2 ^ 1024 - 2 ^ 970)%Z ->
  cu_squared c t n qc =
  if (n =? 0)%Z
  then (Raise ZeroDivisionError, qc)
  else (Ok tt, qc ++ [CXGate c t; CPhaseGate (Num (- PI / IZR n)) c t; CXGate c t]).
Proof.
  intros _ _. destruct (n =? 0)%Z eqn:E.
  - apply Z.eqb_eq in E. subst n.
    unfold cu_squared, bind, lift, float_truediv, np_pi, float_neg.
    destruct (Req_dec_T 0 0) as [_|NE]; [reflexivity|].
    exfalso. now apply NE.
  - apply Z.eqb_neq in E. now apply cu_squared_ok.
Qed.

Lemma X9_cu_squared_zero_division_witness :
  3%N <> 5%N /\ (Z.abs 0 < 2 ^ 1024 - 2 ^ 970)%Z /\
  cu_squared 3%N 5%N 0 [] = (Raise ZeroDivisionError, []).
Proof.
  split; [discriminate|]. split; [vm_compute; reflexivity|].
  apply (X9_cu_squared_zero_division 3%N 5%N 0 []);
    [discriminate|vm_compute; reflexivity].
Defined.

(** ** The rotation of the schedule *)

(** X10: for a load index [i] between 1 and the number of patterns,
    [controlled_si] appends one controlled rotation of [u[1]] by [u[0]]
    whose matrix is [[sqrt ((j-1)/j), sqrt (1/j)], [- sqrt (1/j),
    sqrt ((j-1)/j)]] with [j = len_ps + 1 - i]. *)
Theorem X10_controlled_si_matrix (p u : list qubit) (u0 u1 : qubit) (i len_ps : Z)
    (qc : QuantumCircuit) :
  nth_error u 0 = Some u0 -> nth_error u 1 = Some u1 ->
  (1 <= i <= len_ps)%Z ->
  let j := (len_ps + 1 - i)%Z in
  exists theta,
    controlled_si p u i len_ps qc = (Ok tt, qc ++ [CRYGate (Num theta) u0 u1]) /\
    gate_action (CRYGate (Num theta) u0 u1) =
    Some ([u0], u1,
          Mat2 (RtoC (sqrt (IZR (j - 1) / IZR j))) (RtoC (sqrt (/ IZR j)))
               (RtoC (- sqrt (/ IZR j))) (RtoC (sqrt (IZR (j - 1) / IZR j)))).
Proof.
  intros H0 H1 Hi j.
  assert (Hj : (1 <= j)%Z) by (unfold j; lia).
  exists (theta_j j). split.
  - now apply controlled_si_ok.
  - cbn [gate_action]. unfold RY_mat.
    rewrite (theta_j_cos j Hj), <- (theta_j_sin j Hj), Ropp_involutive.
    reflexivity.
Qed.

Lemma X10_controlled_si_matrix_witness :
  let j := (2 + 1 - 1)%Z in
  exists theta,
    controlled_si [0; 1; 2]%N [3; 4]%N 1 2 [] =
      (Ok tt, [] ++ [CRYGate (Num theta) 3%N 4%N]) /\
    gate_action (CRYGate (Num theta) 3%N 4%N) =
    Some ([3%N], 4%N,
          Mat2 (RtoC (sqrt (IZR (j - 1) / IZR j))) (RtoC (sqrt (/ IZR j)))
               (RtoC (- sqrt (/ IZR j))) (RtoC (sqrt (IZR (j - 1) / IZR j)))).
Proof.
  apply (X10_controlled_si_matrix [0; 1; 2]%N [3; 4]%N 3%N 4%N 1 2 []).
  - reflexivity.
  - reflexivity.
  - lia.
Defined.

(** ** The builders raise nothing but [IndexError] *)

Lemma roi_ret {A} (a : A) : raises_only_index (ret a).
Proof. intros qc. exact I. Qed.

Lemma roi_append (g : gate) : raises_only_index (append g).
Proof. intros qc. exact I. Qed.

Lemma roi_getitem {A} (xs : list A) (idx : nat) : raises_only_index (getitem xs idx).
Proof.
  intros qc. unfold getitem. destruct (nth_error xs idx); cbn; [exact I|reflexivity].
Qed.

Lemma roi_bind {A B} (m : prog A) (f : A -> prog B) :
  raises_only_index m -> (forall a, raises_only_index (f a)) ->
  raises_only_index (bind m f).
Proof.
  intros Hm Hf qc. unfold bind. specialize (Hm qc).
  destruct (m qc) as [[a|e] qc'].
  - apply Hf.
  - exact Hm.
Qed.

Lemma roi_for_each {A} (xs : list A) (body : A -> prog unit) :
  (forall x, In x xs -> raises_only_index (body x)) ->
  raises_only_index (for_each xs body).
Proof.
  induction xs as [|x xs IH]; intros H; cbn [for_each].
  - apply roi_ret.
  - apply roi_bind; [apply H; now left|].
    intros _. apply IH. intros y Hy. apply H. now right.
Qed.

Lemma roi_of_ok {A} (m : prog A) :
  (forall qc, exists a qc', m qc = (Ok a, qc')) -> raises_only_index m.
Proof. intros H qc. destruct (H qc) as (a & qc' & ->). exact I. Qed.

Ltac roi_step :=
  first [ apply roi_ret | apply roi_append | apply roi_getitem
        | apply roi_bind; [|intros ?] | apply roi_for_each; intros ? ? ].

Lemma roi_apply_pauli (value : Z) (qubits : list qubit) :
  raises_only_index (apply_pauli_from_int value qubits).
Proof.
  unfold apply_pauli_from_int. apply roi_for_each. intros [idx bit] _.
  destruct (Ascii.eqb bit "1"%char); [|apply roi_ret].
  apply roi_bind; [apply roi_getitem|]. intros q. apply roi_append.
Qed.

Lemma roi_controlled_si (p u : list qubit) (i len_ps : Z) :
  (1 <= len_ps + 1 - i)%Z -> raises_only_index (controlled_si p u i len_ps).
Proof.
  intros Hj. unfold controlled_si. rewrite (find_angle_ok _ Hj).
  apply roi_bind; [intros qc; exact I|]. intros angle.
  repeat roi_step.
Qed.

Lemma roi_storage_step (len_ps : nat) (p u m : list qubit) (idx : nat) (val : Z) :
  (idx < len_ps)%nat -> raises_only_index (storage_step len_ps p u m idx val).
Proof.
  intros Hidx. unfold storage_step, qc_ccx, qc_cx, qc_x, qc_mcx.
  apply roi_bind; [apply roi_apply_pauli|]. intros _.
  apply roi_bind; [repeat roi_step|]. intros _.
  apply roi_bind; [repeat roi_step|]. intros _.
  apply roi_bind; [repeat roi_step|]. intros _.
  apply roi_bind; [apply roi_controlled_si; lia|]. intros _.
  apply roi_bind; [repeat roi_step|]. intros _.
  apply roi_bind; [repeat roi_step|]. intros _.
  apply roi_bind; [repeat roi_step|]. intros _.
  apply roi_apply_pauli.
Qed.

Lemma roi_storage_algorithm (ps : list Z) (p u m : list qubit) :
  raises_only_index (storage_algorithm ps p u m).
Proof.
  unfold storage_algorithm. apply roi_for_each. intros [idx val] Hin.
  apply roi_storage_step. unfold enumerate in Hin.
  apply in_combine_l in Hin. apply in_seq in Hin. lia.
Qed.

Lemma roi_retrieval_algorithm (i m : list qubit) (c : qubit) :
  raises_only_index (retrieval_algorithm i m c).
Proof.
  unfold retrieval_algorithm, qc_h, qc_cx, qc_x.
  apply roi_bind; [apply roi_append|]. intros _.
  apply roi_bind; [repeat roi_step|]. intros _.
  apply roi_bind.
  { apply roi_of_ok. intros qc. do 2 eexists. apply apply_u_and_cu_ok. }
  intros _.
  apply roi_bind; [repeat roi_step|]. intros _.
  apply roi_append.
Qed.

(** X11: on registers that [QuantumCircuit] accepts in one gate (the
    qubits of [p], [u] and [m] all different, [m] not empty), whatever their
    lengths and whatever the pattern list, [storage_algorithm] raises nothing
    but [IndexError]: the schedule index [len(ps) + 1 - (idx + 1)] it passes
    to [find_angle] is at least 1, so the division in [find_angle] never
    fails inside the loop. *)
Theorem X11_storage_raises_only_index_error (ps : list Z) (p u m : list qubit)
    (qc : QuantumCircuit) (e : exn) :
  NoDup (p ++ u ++ m) -> m <> [] ->
  fst (storage_algorithm ps p u m qc) = Raise e -> e = IndexError.
Proof.
  intros _ _ H. pose proof (roi_storage_algorithm ps p u m qc) as R.
  rewrite H in R. exact R.
Qed.

Lemma X11_storage_raises_only_index_error_witness :
  fst (storage_algorithm [8]%Z [0; 1; 2]%N [3; 4]%N [5; 6; 7]%N []) = Raise IndexError /\
  IndexError = IndexError.
Proof.
  split; [reflexivity|].
  apply (X11_storage_raises_only_index_error [8]%Z [0; 1; 2]%N [3; 4]%N [5; 6; 7]%N []
           IndexError).
  - exact driver_layout.
  - discriminate.
  - reflexivity.
Defined.

(** X12: on registers that [QuantumCircuit] accepts in one gate (every
    [i[j]] different from [m[j]], the control outside [m]), whatever their
    lengths, [retrieval_algorithm] and [bv_algorithm] raise nothing but
    [IndexError]: they call [u_gate] and [cu_squared] with [n = len(m)] only
    from loops over [m], so the divisions by [n] never fail. *)
Theorem X12_retrieval_raises_only_index_error {T : Type} (i m : list qubit)
    (c : qubit) (degree_threshold : T) (qc : QuantumCircuit) (e : exn) :
  Forall (fun at_ : qubit * qubit => fst at_ <> snd at_) (combine i m) ->
  ~ In c m ->
  fst (retrieval_algorithm i m c qc) = Raise e \/
  fst (bv_algorithm i m c degree_threshold qc) = Raise e ->
  e = IndexError.
Proof.
  intros _ _ [H | H].
  - pose proof (roi_retrieval_algorithm i m c qc) as R. rewrite H in R. exact R.
  - assert (Rb : raises_only_index (bv_algorithm i m c degree_threshold)).
    { unfold bv_algorithm, qc_h.
      apply roi_bind; [repeat roi_step|]. intros _.
      apply roi_bind; [apply roi_retrieval_algorithm|]. intros _.
      repeat roi_step. }
    specialize (Rb qc). rewrite H in Rb. exact Rb.
Qed.

Lemma X12_retrieval_raises_only_index_error_witness :
  fst (retrieval_algorithm [0; 1; 2]%N [5; 6]%N 3%N []) = Raise IndexError /\
  IndexError = IndexError.
Proof.
  split; [reflexivity|].
  apply (X12_retrieval_raises_only_index_error [0; 1; 2]%N [5; 6]%N 3%N tt []
           IndexError).
  - repeat constructor; discriminate.
  - cbn. intuition discriminate.
  - left. reflexivity.
Defined.

(** ** Loops that stop at an exception *)

Lemma for_each_app {A} (xs ys : list A) (body : A -> prog unit) qc :
  for_each (xs ++ ys) body qc =
  bind (for_each xs body) (fun _ => for_each ys body) qc.
Proof.
  revert qc. induction xs as [|x xs IH]; intros qc; cbn [app for_each].
  - reflexivity.
  - unfold bind. destruct (body x qc) as [[[]|e] qc']; [|reflexivity].
    rewrite IH. reflexivity.
Qed.

Lemma for_each_ext {A} (xs : list A) (body body' : A -> prog unit) qc :
  (forall x qc0, In x xs -> body x qc0 = body' x qc0) ->
  for_each xs body qc = for_each xs body' qc.
Proof.
  revert qc. induction xs as [|x xs IH]; intros qc H; cbn [for_each]; [reflexivity|].
  unfold bind. rewrite (H x qc) by now left.
  destruct (body' x qc) as [[[]|e] qc']; [|reflexivity].
  apply IH. intros y qc0 Hy. apply H. now right.
Qed.

Lemma combine_app_eq {A B} (x1 x2 : list A) (y1 y2 : list B) :
  length x1 = length y1 ->
  combine (x1 ++ x2) (y1 ++ y2) = combine x1 y1 ++ combine x2 y2.
Proof.
  revert y1. induction x1 as [|a x1 IH]; intros [|b y1] E; try discriminate.
  - reflexivity.
  - cbn [app combine]. f_equal. apply IH. now injection E.
Qed.

(** The detector loop of retrieval when the memory register is the shorter
    one: the pairs that exist are emitted, then [m[j]] fails. *)
Lemma cmp_loop_short (i m : list qubit) qc :
  (length m < length i)%nat ->
  for_each (range (length i)) (fun j =>
    (a <- getitem i j ;; t <- getitem m j ;; qc_cx a t) ;;
    (t <- getitem m j ;; qc_x t)) qc =
  (Raise IndexError, qc ++ cmp_gates (combine i m)).
Proof.
  intros Hlt. unfold range.
  replace (length i) with (length m + S (length i - length m - 1))%nat at 1 by lia.
  rewrite seq_app, for_each_app. cbn [Nat.add seq].
  set (i' := firstn (length m) i).
  assert (Hl' : length i' = length m) by (unfold i'; apply firstn_length_le; lia).
  rewrite (bind_ok _ _ qc tt (qc ++ cmp_gates (combine i m))).
  - cbn [for_each].
    assert (Hi : exists a, nth_error i (length m) = Some a).
    { destruct (nth_error i (length m)) eqn:E; [now eexists|].
      apply nth_error_None in E. lia. }
    destruct Hi as [a Ha].
    assert (Hm : nth_error m (length m) = None) by (apply nth_error_None; lia).
    apply bind_raise. apply bind_raise.
    rewrite (bind_ok _ _ _ _ _ (getitem_ok _ _ _ _ Ha)).
    apply bind_raise. now apply getitem_raise.
  - rewrite (combine_firstn_r i m). fold i'. rewrite <- Hl'.
    etransitivity; [|exact (cmp_loop i' m (Nat.eq_le_incl _ _ Hl') qc)].
    unfold range. apply for_each_ext. intros j qc0 Hj. apply in_seq in Hj.
    assert (E : nth_error i' j = nth_error i j).
    { unfold i'. rewrite nth_error_firstn.
      destruct (Nat.ltb_spec j (length m)); [reflexivity|lia]. }
    unfold getitem. now rewrite E.
Qed.

(** X13: on registers that [QuantumCircuit] accepts in one gate (every
    [i[j]] different from [m[j]], the control outside [m]),
    [retrieval_algorithm] succeeds exactly when the input register is no
    longer than the memory register; otherwise it raises [IndexError] and
    leaves in the circuit the Hadamard gate and the detector gates of the
    qubit pairs that exist. *)
Theorem X13_retrieval_register_lengths (i m : list qubit) (c : qubit)
    (qc : QuantumCircuit) :
  Forall (fun at_ : qubit * qubit => fst at_ <> snd at_) (combine i m) ->
  ~ In c m ->
  retrieval_algorithm i m c qc =
  if (length i <=? length m)%nat
  then (Ok tt, qc ++ retrieval_gates i m c)
  else (Raise IndexError, qc ++ [HGate c] ++ cmp_gates (combine i m)).
Proof.
  intros _ _. destruct (Nat.leb_spec (length i) (length m)) as [Hle | Hlt].
  - now apply retrieval_algorithm_ok.
  - unfold retrieval_algorithm.
    rewrite (bind_ok _ _ qc tt (qc ++ [HGate c])) by reflexivity.
    rewrite app_assoc. apply bind_raise. now apply cmp_loop_short.
Qed.

Lemma X13_retrieval_register_lengths_witness :
  retrieval_algorithm [0; 1; 2]%N [5; 6]%N 3%N [] =
  if (length [0; 1; 2]%N <=? length [5; 6]%N)%nat
  then (Ok tt, [] ++ retrieval_gates [0; 1; 2]%N [5; 6]%N 3%N)
  else (Raise IndexError, [] ++ [HGate 3%N] ++ cmp_gates (combine [0; 1; 2]%N [5; 6]%N)).
Proof.
  apply (X13_retrieval_register_lengths [0; 1; 2]%N [5; 6]%N 3%N []).
  - repeat constructor; discriminate.
  - cbn. intuition discriminate.
Defined.

(** X14: on registers of different qubits, [m] not empty: when the
    patterns before position [t] fit the pattern register and the one at
    position [t] does not, [storage_algorithm] raises [IndexError] in step 0
    of iteration [t]: the circuit then holds the complete iterations of the
    earlier patterns followed by the bit flips for the low bits of the
    offending pattern, and nothing of the later ones. *)
Theorem X14_storage_stops_at_overflow (ps1 ps2 : list Z) (v : Z)
    (p u m : list qubit) (u0 u1 : qubit) (qc : QuantumCircuit) :
  NoDup (p ++ u0 :: u1 :: m) -> m <> [] ->
  (length p <= length m)%nat ->
  nth_error u 0 = Some u0 -> nth_error u 1 = Some u1 ->
  Forall (fun val => (Z.abs_N val < 2 ^ N.of_nat (length p))%N) ps1 ->
  (2 ^ N.of_nat (length p) <= Z.abs_N v)%N ->
  storage_algorithm (ps1 ++ v :: ps2) p u m qc =
  (Raise IndexError,
   qc ++ storage_gates (length (ps1 ++ v :: ps2)) p u0 u1 m 0 (map Z.abs_N ps1) ++
         x_gates p (lsb_bits (Z.abs_N v) (length p))).
Proof.
  intros _ _ Hlen H0 H1 Hfit Hv.
  unfold storage_algorithm, enumerate.
  set (len_ps := length (ps1 ++ v :: ps2)).
  assert (El : len_ps = (length ps1 + S (length ps2))%nat).
  { unfold len_ps. rewrite length_app. reflexivity. }
  rewrite El at 1. rewrite seq_app.
  rewrite combine_app_eq by apply length_seq.
  rewrite for_each_app. cbn [Nat.add seq combine].
  rewrite (bind_ok _ _ qc tt
             (qc ++ storage_gates len_ps p u0 u1 m 0 (map Z.abs_N ps1))).
  - cbn [for_each]. rewrite app_assoc.
    apply bind_raise. unfold storage_step. apply bind_raise.
    now apply apply_pauli_overflow_at.
  - apply (storage_loop_ok len_ps p u m u0 u1 ps1 0 qc Hlen H0 H1); [lia|exact Hfit].
Qed.

Lemma X14_storage_stops_at_overflow_witness :
  storage_algorithm ([1] ++ 9 :: [4])%Z [0; 1; 2]%N [3; 4]%N [5; 6; 7]%N [] =
  (Raise IndexError,
   [] ++ storage_gates (length ([1] ++ 9 :: [4])%Z) [0; 1; 2]%N 3%N 4%N [5; 6; 7]%N 0
           (map Z.abs_N [1]%Z) ++
         x_gates [0; 1; 2]%N (lsb_bits (Z.abs_N 9) (length [0; 1; 2]%N))).
Proof.
  apply (X14_storage_stops_at_overflow [1]%Z [4]%Z 9%Z [0; 1; 2]%N [3; 4]%N
           [5; 6; 7]%N 3%N 4%N []).
  - exact driver_layout.
  - discriminate.
  - simpl. lia.
  - reflexivity.
  - reflexivity.
  - repeat constructor.
  - simpl. lia.
Defined.

(** ** The codec: sign, round trip and printed labels *)

(** X15: [apply_pauli_from_int] ignores the sign of the value: a negative
    pattern passes through the same gates, or the same exception, as its
    magnitude, because the minus sign of the formatted string is not a '1'. *)
Theorem X15_encoding_ignores_sign (value : Z) (qubits : list qubit)
    (qc : QuantumCircuit) :
  apply_pauli_from_int (- value) qubits qc = apply_pauli_from_int value qubits qc.
Proof.
  destruct (N.lt_ge_cases (Z.abs_N value) (2 ^ N.of_nat (length qubits))) as [Hf | Ho].
  - rewrite (apply_pauli_ok value qubits qc Hf).
    rewrite apply_pauli_ok by (rewrite Zabs2N.inj_opp; exact Hf).
    now rewrite Zabs2N.inj_opp.
  - rewrite (apply_pauli_overflow_at value qubits qc Ho).
    rewrite apply_pauli_overflow_at by (rewrite Zabs2N.inj_opp; exact Ho).
    now rewrite Zabs2N.inj_opp.
Qed.

(** X16: encoding a value that fits into a register of distinct qubits,
    from |0...0>, gives the basis state in which the register reads the
    bits of the magnitude, least significant bit on the first qubit, and
    every qubit outside the register is still 0. *)
Theorem X16_encoding_round_trip (value : Z) (qubits : list qubit) :
  NoDup qubits ->
  (Z.abs_N value < 2 ^ N.of_nat (length qubits))%N ->
  exists qc K,
    apply_pauli_from_int value qubits [] = (Ok tt, qc) /\
    run qc (ket 0) = Some (ket K) /\
    reg_bits qubits K = lsb_bits (Z.abs_N value) (length qubits) /\
    forall q, ~ In q qubits -> N.testbit K q = false.
Proof.
  intros Hnd Hfit.
  exists (x_gates qubits (lsb_bits (Z.abs_N value) (length qubits))).
  exists (reg_index qubits (Z.abs_N value)).
  split; [|split; [|split]].
  - now rewrite apply_pauli_ok.
  - rewrite run_classical_ket by apply x_gates_classical.
    rewrite x_gates_perm, N.lxor_0_l. reflexivity.
  - unfold reg_bits, reg_index. apply bit_mask_read; [exact Hnd|apply lsb_bits_length].
  - intros q Hq. unfold reg_index. apply bit_mask_notin.
    intros H. apply in_combine_fst in H. contradiction.
Qed.

Lemma X16_encoding_round_trip_witness :
  exists qc K,
    apply_pauli_from_int 5 [0; 1; 2]%N [] = (Ok tt, qc) /\
    run qc (ket 0) = Some (ket K) /\
    reg_bits [0; 1; 2]%N K = lsb_bits (Z.abs_N 5) (length [0; 1; 2]%N) /\
    forall q, ~ In q [0; 1; 2]%N -> N.testbit K q = false.
Proof.
  apply (X16_encoding_round_trip 5 [0; 1; 2]%N).
  - repeat constructor; simpl; intuition discriminate.
  - simpl. lia.
Defined.

Lemma binary_chars (l : list ascii) :
  Forall (fun ch => ch = "0"%char \/ ch = "1"%char) l ->
  map bit_char (map is_one l) = l.
Proof.
  induction 1 as [|ch l [-> | ->] _ IH]; cbn [map]; [reflexivity| |];
    rewrite IH; reflexivity.
Qed.

Lemma pos_digits_binary (p : positive) :
  Forall (fun ch => ch = "0"%char \/ ch = "1"%char) (pos_digits_lsb p).
Proof.
  induction p as [p IH|p IH|]; cbn [pos_digits_lsb].
  - constructor; [now right|exact IH].
  - constructor; [now left|exact IH].
  - constructor; [now right|constructor].
Qed.

Lemma pos_digits_length (p : positive) (n : nat) :
  (N.pos p < 2 ^ N.of_nat n)%N -> (length (pos_digits_lsb p) <= n)%nat.
Proof.
  revert n. induction p as [p IH|p IH|]; intros [|n] H; cbn [pos_digits_lsb length].
  - cbn in H. lia.
  - apply le_n_S, IH. rewrite Nnat.Nat2N.inj_succ, N.pow_succ_r' in H. lia.
  - cbn in H. lia.
  - apply le_n_S, IH. rewrite Nnat.Nat2N.inj_succ, N.pow_succ_r' in H. lia.
  - cbn in H. lia.
  - lia.
Qed.

Lemma format_0b_length (i : N) (n : nat) :
  (0 < n)%nat -> (i < 2 ^ N.of_nat n)%N -> length (format_0b (Z.of_N i) n) = n.
Proof.
  intros Hn Hi. unfold format_0b.
  destruct i as [|p]; cbn [Z.of_N Z.ltb Z.compare app length].
  - rewrite length_app, repeat_length. cbn [length]. lia.
  - rewrite length_app, repeat_length, length_rev.
    pose proof (pos_digits_length p n Hi). lia.
Qed.

Lemma format_0b_binary (i : N) (n : nat) :
  Forall (fun ch => ch = "0"%char \/ ch = "1"%char) (format_0b (Z.of_N i) n).
Proof.
  unfold format_0b. destruct i as [|p]; cbn [Z.of_N Z.ltb Z.compare app].
  - apply Forall_app. split; [|repeat constructor; auto].
    apply Forall_forall. intros ch Hch. apply repeat_spec in Hch. now left.
  - apply Forall_app. split.
    + apply Forall_forall. intros ch Hch. apply repeat_spec in Hch. now left.
    + apply Forall_rev, pos_digits_binary.
Qed.

(** X17: the label [print_state_info] prints for the basis index [i] of a
    state on [n] qubits has one character per qubit, and character [j] is
    the value of qubit [j]: the label is little endian. *)
Theorem X17_printed_label_little_endian (i : N) (n : nat) :
  (0 < n)%nat -> (i < 2 ^ N.of_nat n)%N ->
  reversed_bitstring i n = map bit_char (lsb_bits i n).
Proof.
  intros Hn Hi. unfold reversed_bitstring.
  rewrite <- (binary_chars (rev (format_0b (Z.of_N i) n)))
    by apply Forall_rev, format_0b_binary.
  f_equal.
  rewrite <- (map_nth_seq_id (map is_one (rev (format_0b (Z.of_N i) n))) false).
  rewrite length_map, length_rev, (format_0b_length i n Hn Hi).
  unfold lsb_bits. apply map_ext. intros j.
  rewrite format_0b_bits. now rewrite Zabs2N.id.
Qed.

Lemma X17_printed_label_little_endian_witness :
  reversed_bitstring 6 4 = map bit_char (lsb_bits 6 4).
Proof.
  apply (X17_printed_label_little_endian 6 4).
  - lia.
  - simpl. lia.
Defined.

(** ** Storing a pattern that is already stored *)

(** X18: a pattern listed twice is not stored twice.  For the list
    [[val; val]] the second iteration takes the stored pattern back to the
    starting state with a minus sign: the final state is
    [(1/sqrt 2) |val stored> - (1/sqrt 2) |start>], so half of the weight
    stays on the state in which nothing is stored. *)
Theorem X18_storing_a_pattern_twice (p m u : list qubit) (u0 u1 : qubit) (val : Z) :
  NoDup (p ++ u0 :: u1 :: m) -> length m = length p ->
  nth_error u 0 = Some u0 -> nth_error u 1 = Some u1 ->
  (Z.abs_N val < 2 ^ N.of_nat (length p))%N ->
  exists qc,
    storage_algorithm [val; val] p u m [] = (Ok tt, qc) /\
    run qc (ket (2 ^ u1)) =
    Some (sadd (sscale (RtoC (/ sqrt 2)) (ket (reg_index m (Z.abs_N val))))
               (sscale (RtoC (- / sqrt 2)) (ket (2 ^ u1)))).
Proof.
  intros Hnd Hlen H0 H1 Hfit. eexists. split.
  { rewrite (storage_algorithm_ok [val; val] p u m u0 u1 []);
      [reflexivity|lia|assumption|assumption|].
    repeat constructor; assumption. }
  cbn [app map length].
  apply (storage_twice_run p m u0 u1 Hnd Hlen).
Qed.

Lemma X18_storing_a_pattern_twice_witness :
  exists qc,
    storage_algorithm [5; 5]%Z [0; 1; 2]%N [3; 4]%N [5; 6; 7]%N [] = (Ok tt, qc) /\
    run qc (ket (2 ^ 4)) =
    Some (sadd (sscale (RtoC (/ sqrt 2)) (ket (reg_index [5; 6; 7]%N (Z.abs_N 5))))
               (sscale (RtoC (- / sqrt 2)) (ket (2 ^ 4)))).
Proof.
  apply (X18_storing_a_pattern_twice [0; 1; 2]%N [5; 6; 7]%N [3; 4]%N 3%N 4%N 5%Z).
  - exact driver_layout.
  - reflexivity.
  - reflexivity.
  - reflexivity.
  - simpl. lia.
Defined.

(** ** The stored state does not depend on the order of the patterns *)

Lemma superpos_perm (l l' : list (C * N)) :
  Permutation l l' -> superpos l = superpos l'.
Proof.
  induction 1 as [|x l l' _ IH|x y l|l l' l'' _ IH1 _ IH2]; cbn [superpos].
  - reflexivity.
  - now rewrite IH.
  - apply functional_extensionality. intros k. unfold sadd, sscale.
    apply C_eq; unfold Cplus; cbn [fst snd]; ring.
  - now rewrite IH1.
Qed.

Lemma memory_state_perm (len_ps : nat) (m : list qubit) (u1 : qubit)
    (done done' : list N) :
  Permutation done done' ->
  memory_state len_ps m u1 done = memory_state len_ps m u1 done'.
Proof.
  intros HP. unfold memory_state.
  rewrite (Permutation_length HP).
  now rewrite (superpos_perm _ _ (Permutation_map _ HP)).
Qed.

(** X19: two lists of distinct patterns that fit and are permutations of
    each other are stored by [storage_algorithm] as the same state: the
    order of the patterns changes the rotation each one meets, not the
    superposition that results. *)
Theorem X19_storage_order_independent (p m u : list qubit) (u0 u1 : qubit)
    (ps ps' : list Z) :
  NoDup (p ++ u0 :: u1 :: m) -> length m = length p ->
  nth_error u 0 = Some u0 -> nth_error u 1 = Some u1 ->
  Forall (fun val => (Z.abs_N val < 2 ^ N.of_nat (length p))%N) ps ->
  NoDup (map Z.abs_N ps) ->
  Permutation ps ps' ->
  exists qc qc' psi,
    storage_algorithm ps p u m [] = (Ok tt, qc) /\
    storage_algorithm ps' p u m [] = (Ok tt, qc') /\
    run qc (ket (2 ^ u1)) = Some psi /\
    run qc' (ket (2 ^ u1)) = Some psi.
Proof.
  intros Hnd Hlen H0 H1 Hfit Hd HP.
  assert (Hfit' : Forall (fun val => (Z.abs_N val < 2 ^ N.of_nat (length p))%N) ps').
  { rewrite Forall_forall in *. intros x Hx. apply Hfit.
    now apply (Permutation_in _ (Permutation_sym HP)). }
  assert (Hd' : NoDup (map Z.abs_N ps')).
  { apply (Permutation_NoDup (Permutation_map _ HP) Hd). }
  destruct ps as [|v0 ps0].
  { apply Permutation_nil in HP. subst ps'.
    exists [], [], (ket (2 ^ u1)). repeat split; reflexivity. }
  assert (Hpos : (0 < length (v0 :: ps0))%nat) by (cbn; lia).
  set (ps := v0 :: ps0) in *.
  assert (Hpos' : (0 < length ps')%nat) by (rewrite <- (Permutation_length HP); exact Hpos).
  destruct (storage_prefix_state p m u0 u1 Hnd Hlen ps u (length ps) H0 H1 Hfit Hd
              (le_n _) Hpos) as [B R].
  destruct (storage_prefix_state p m u0 u1 Hnd Hlen ps' u (length ps') H0 H1 Hfit' Hd'
              (le_n _) Hpos') as [B' R'].
  assert (Ef : forall l : list Z, firstn (length l) (map Z.abs_N l) = map Z.abs_N l).
  { intros l. rewrite <- (length_map Z.abs_N l) at 1. apply firstn_all. }
  assert (Es : forall l : list Z, skipn (length l) (map Z.abs_N l) = []).
  { intros l. rewrite <- (length_map Z.abs_N l) at 1. apply skipn_all. }
  rewrite Ef in R, R'. rewrite Ef, Es in B, B'.
  cbn [storage_gates] in B, B'. rewrite app_nil_r in B, B'.
  exists (storage_gates (length ps) p u0 u1 m 0 (map Z.abs_N ps)).
  exists (storage_gates (length ps') p u0 u1 m 0 (map Z.abs_N ps')).
  exists (memory_state (length ps) m u1 (rev (map Z.abs_N ps))).
  split; [exact B|]. split; [exact B'|]. split; [exact R|].
  rewrite R'. f_equal. rewrite <- (Permutation_length HP).
  apply memory_state_perm.
  apply Permutation_sym.
  eapply Permutation_trans; [apply Permutation_sym, Permutation_rev|].
  eapply Permutation_trans; [apply Permutation_map, HP|].
  apply Permutation_rev.
Qed.

Lemma X19_storage_order_independent_witness :
  exists qc qc' psi,
    storage_algorithm [1; 4]%Z [0; 1; 2]%N [3; 4]%N [5; 6; 7]%N [] = (Ok tt, qc) /\
    storage_algorithm [4; 1]%Z [0; 1; 2]%N [3; 4]%N [5; 6; 7]%N [] = (Ok tt, qc') /\
    run qc (ket (2 ^ 4)) = Some psi /\
    run qc' (ket (2 ^ 4)) = Some psi.
Proof.
  apply (X19_storage_order_independent [0; 1; 2]%N [5; 6; 7]%N [3; 4]%N 3%N 4%N
           [1; 4]%Z [4; 1]%Z).
  - exact driver_layout.
  - reflexivity.
  - reflexivity.
  - reflexivity.
  - repeat constructor.
  - cbn. repeat constructor; cbn; intuition discriminate.
  - apply perm_swap.
Defined.

(** ** The superposed-query variant *)

Lemma h_loop (l : list qubit) qc :
  for_each l (fun q => qc_h q) qc = (Ok tt, qc ++ flat_map (fun q => [HGate q]) l).
Proof. apply for_each_emit. intros q qc0 _. reflexivity. Qed.

Lemma bv_algorithm_ok {T : Type} (i m : list qubit) (c : qubit) (t : T) qc :
  (length i <= length m)%nat ->
  bv_algorithm i m c t qc =
  (Ok tt, qc ++ flat_map (fun q => [HGate q]) i ++ retrieval_gates i m c ++
                flat_map (fun q => [HGate q]) i).
Proof.
  intros Hlen. unfold bv_algorithm.
  rewrite (bind_ok _ _ _ _ _ (h_loop i qc)).
  rewrite (bind_ok _ _ _ _ _ (retrieval_algorithm_ok i m c _ Hlen)).
  rewrite h_loop. now rewrite <- !app_assoc.
Qed.

(** Hadamard gates keep the probability of every set of basis states that
    does not depend on their qubits. *)
Lemma h_gates_prob (n : nat) (l : list qubit) (sel : N -> bool) (psi : state) :
  Forall (fun q => (q < N.of_nat n)%N) l ->
  (forall q k, In q l -> sel (flip q k) = sel k) ->
  exists psi', run (flat_map (fun q => [HGate q]) l) psi = Some psi' /\
               prob n sel psi' = prob n sel psi.
Proof.
  revert psi. induction l as [|q l IH]; intros psi Hb Hsel.
  - exists psi. split; reflexivity.
  - apply Forall_cons_iff in Hb. destruct Hb as [Hq Hb].
    assert (WH : wf_gate n (HGate q)).
    { unfold wf_gate. cbn [gate_action].
      repeat split; [exact Hq | intros [] | constructor]. }
    destruct (apply_gate_prob n (HGate q) sel psi WH) as (psi1 & E1 & P1).
    { intros cs t U k E. cbn [gate_action] in E. inversion E; subst.
      apply Hsel. now left. }
    destruct (IH psi1 Hb) as (psi2 & E2 & P2).
    { intros q' k Hq'. apply Hsel. now right. }
    exists psi2. split.
    + cbn [flat_map app run]. rewrite E1. exact E2.
    + now rewrite P2.
Qed.

Lemma bv_prob (n : nat) (i m : list qubit) (c : qubit) (sel : N -> bool)
    (psi : state) :
  (forall q, In q i -> ~ In q m) -> ~ In c m -> (c < N.of_nat n)%N ->
  Forall (fun q => (q < N.of_nat n)%N) i ->
  (forall k, sel (flip c k) = sel k) ->
  (forall q k, In q i -> sel (flip q k) = sel k) ->
  exists psi',
    run (flat_map (fun q => [HGate q]) i ++ retrieval_gates i m c ++
         flat_map (fun q => [HGate q]) i) psi = Some psi' /\
    prob n sel psi' = prob n sel psi.
Proof.
  intros Hdis Hc Hcn Hb Hsc Hsi.
  assert (Hp : Forall (fun at_ : qubit * qubit => fst at_ <> snd at_) (combine i m)).
  { apply Forall_forall. intros [a t] Hin. cbn [fst snd]. intros E. subst t.
    apply (Hdis a); [now apply in_combine_l in Hin|now apply in_combine_r in Hin]. }
  destruct (h_gates_prob n i sel psi Hb Hsi) as (psi1 & E1 & P1).
  destruct (retrieval_prob n i m c sel psi1 Hp Hc Hcn Hsc) as (psi2 & E2 & P2).
  destruct (h_gates_prob n i sel psi2 Hb Hsi) as (psi3 & E3 & P3).
  exists psi3. split.
  - rewrite run_app, E1, run_app, E2. exact E3.
  - now rewrite P3, P2.
Qed.

(** X20: [bv_algorithm], the retrieval between two layers of Hadamard
    gates on the input register, keeps the norm of every state and leaves
    the distribution of the memory register unchanged, when the memory
    register shares no qubit with the input register or the control. *)
Theorem X20_bv_preserves_memory_marginal {T : Type} (n : nat) (i m : list qubit)
    (c : qubit) (degree_threshold : T) (bs : list bool) (psi : state) :
  (length i <= length m)%nat ->
  (forall q, In q i -> ~ In q m) -> ~ In c m -> (c < N.of_nat n)%N ->
  Forall (fun q => (q < N.of_nat n)%N) i ->
  exists qc psi',
    bv_algorithm i m c degree_threshold [] = (Ok tt, qc) /\
    run qc psi = Some psi' /\
    prob_reg n m bs psi' = prob_reg n m bs psi /\
    norm2 n psi' = norm2 n psi.
Proof.
  intros Hlen Hdis Hc Hcn Hb.
  destruct (bv_prob n i m c
              (fun k => if list_eq_dec Bool.bool_dec (reg_bits m k) bs then true else false)
              psi Hdis Hc Hcn Hb) as (psi' & R & P).
  { intros k. now rewrite (reg_bits_flip m c k Hc). }
  { intros q k Hq. now rewrite (reg_bits_flip m q k (Hdis q Hq)). }
  destruct (bv_prob n i m c (fun _ => true) psi Hdis Hc Hcn Hb) as (psi2 & R2 & P2);
    [reflexivity|reflexivity|].
  rewrite R in R2. injection R2 as <-.
  eexists. exists psi'. split; [|split; [|split]].
  - rewrite (bv_algorithm_ok i m c degree_threshold [] Hlen). reflexivity.
  - exact R.
  - exact P.
  - exact P2.
Qed.

Lemma X20_bv_preserves_memory_marginal_witness :
  exists qc psi',
    bv_algorithm [0; 1; 2]%N [5; 6; 7]%N 3%N tt [] = (Ok tt, qc) /\
    run qc (ket 33) = Some psi' /\
    prob_reg 8 [5; 6; 7]%N [true; false; false] psi' =
    prob_reg 8 [5; 6; 7]%N [true; false; false] (ket 33) /\
    norm2 8 psi' = norm2 8 (ket 33).
Proof.
  apply (X20_bv_preserves_memory_marginal 8 [0; 1; 2]%N [5; 6; 7]%N 3%N tt
           [true; false; false] (ket 33)).
  - simpl. lia.
  - intros q Hq Hm. cbn in Hq, Hm. lia.
  - cbn. lia.
  - simpl. lia.
  - repeat constructor; simpl; lia.
Defined.

(** ** Encodings compose by exclusive or *)

Lemma combine_map_same {A B D} (f : A -> B) (g : A -> D) (l : list A) :
  combine (map f l) (map g l) = map (fun x => (f x, g x)) l.
Proof. induction l as [|x l IH]; cbn [map combine]; [reflexivity|now rewrite IH]. Qed.

Lemma lsb_bits_lxor (a b : N) (w : nat) :
  lsb_bits (N.lxor a b) w = xor_bits (lsb_bits a w) (lsb_bits b w).
Proof.
  unfold lsb_bits, xor_bits. rewrite combine_map_same, map_map.
  apply map_ext. intros j. cbn [fst snd]. apply N.lxor_spec.
Qed.

(** X21: encoding [a] and then [b] into the same register acts on every
    state as encoding the bitwise exclusive or of [a] and [b]; so the order
    of two encodings does not matter, and a pattern register that holds [a]
    is turned into one that holds [b] by encoding [a xor b]. *)
Theorem X21_encodings_compose (a b : N) (qubits : list qubit) (psi : state) :
  (a < 2 ^ N.of_nat (length qubits))%N ->
  (b < 2 ^ N.of_nat (length qubits))%N ->
  exists qa qb qab,
    (apply_pauli_from_int (Z.of_N a) qubits ;;
     apply_pauli_from_int (Z.of_N b) qubits) [] = (Ok tt, qa ++ qb) /\
    apply_pauli_from_int (Z.of_N (N.lxor a b)) qubits [] = (Ok tt, qab) /\
    run (qa ++ qb) psi = run qab psi /\
    run (qb ++ qa) psi = run qab psi.
Proof.
  intros Ha Hb.
  assert (Hab : (N.lxor a b < 2 ^ N.of_nat (length qubits))%N)
    by now apply lxor_lt_pow2.
  exists (x_gates qubits (lsb_bits a (length qubits))).
  exists (x_gates qubits (lsb_bits b (length qubits))).
  exists (x_gates qubits (lsb_bits (N.lxor a b) (length qubits))).
  split; [|split; [|split]].
  - erewrite bind_ok by (apply apply_pauli_ok; rewrite Zabs2N.id; exact Ha).
    rewrite apply_pauli_ok by (rewrite Zabs2N.id; exact Hb).
    now rewrite !Zabs2N.id.
  - rewrite apply_pauli_ok by (rewrite Zabs2N.id; exact Hab).
    now rewrite Zabs2N.id.
  - rewrite run_app, !x_gates_run. f_equal.
    apply functional_extensionality. intros k. f_equal.
    rewrite lsb_bits_lxor, <- bit_mask_xor by apply lsb_bits_length.
    rewrite N.lxor_assoc. f_equal. apply N.lxor_comm.
  - rewrite run_app, !x_gates_run. f_equal.
    apply functional_extensionality. intros k. f_equal.
    rewrite lsb_bits_lxor, <- bit_mask_xor by apply lsb_bits_length.
    now rewrite N.lxor_assoc.
Qed.

Lemma X21_encodings_compose_witness :
  exists qa qb qab,
    (apply_pauli_from_int (Z.of_N 1) [0; 1; 2]%N ;;
     apply_pauli_from_int (Z.of_N 5) [0; 1; 2]%N) [] = (Ok tt, qa ++ qb) /\
    apply_pauli_from_int (Z.of_N (N.lxor 1 5)) [0; 1; 2]%N [] = (Ok tt, qab) /\
    run (qa ++ qb) (ket 0) = run qab (ket 0) /\
    run (qb ++ qa) (ket 0) = run qab (ket 0).
Proof.
  apply (X21_encodings_compose 1 5 [0; 1; 2]%N (ket 0)).
  - simpl. lia.
  - simpl. lia.
Defined.

(** ** The output of [run_quantum_memory] *)

(** The experiment, for any selection of basis states that does not depend
    on the control qubit. *)
Lemma recall_experiment_sel (n : nat) (i m : list qubit) (u0 u1 : qubit)
    (ps : list Z) (query : Z) (sel : N -> bool) :
  NoDup (i ++ u0 :: u1 :: m) -> length m = length i ->
  Forall (fun q => (q < N.of_nat n)%N) (i ++ u0 :: u1 :: m) ->
  Forall (fun val => (Z.abs_N val < 2 ^ N.of_nat (length i))%N) ps ->
  NoDup (map Z.abs_N ps) -> (0 < length ps)%nat ->
  (forall k, sel (flip u0 k) = sel k) ->
  exists psi',
    run (experiment_gates ps query i u0 u1 m u0) (ket 0) = Some psi' /\
    prob n (fun k => negb (N.testbit k u0) && sel k) psi' =
      sum_list (fun val =>
        if sel (N.lxor (reg_index m (Z.abs_N val))
                  (bit_mask (combine i (lsb_bits (Z.abs_N query) (length i)))))
        then recall_weight cos (length i) (length ps) query val else 0) ps /\
    prob n (fun k => N.testbit k u0 && sel k) psi' =
      sum_list (fun val =>
        if sel (N.lxor (reg_index m (Z.abs_N val))
                  (bit_mask (combine i (lsb_bits (Z.abs_N query) (length i)))))
        then recall_weight sin (length i) (length ps) query val else 0) ps.
Proof.
  intros Hnd Hlen Hb Hfit Hd Hpos Hsel.
  set (vals := map Z.abs_N ps).
  assert (Hlv : length vals = length ps) by (unfold vals; apply length_map).
  assert (Hfv : Forall (fun v => (v < 2 ^ N.of_nat (length i))%N) vals).
  { unfold vals. apply Forall_forall. intros v Hv. apply in_map_iff in Hv.
    destruct Hv as (val & <- & Hval). rewrite Forall_forall in Hfit. now apply Hfit. }
  assert (Hpv : (0 < length vals)%nat) by lia.
  pose proof (query_state i m u0 u1 Hnd Hlen (Z.abs_N query) vals Hpv Hfv Hd) as Rq.
  set (psiq := fun k : N =>
                 memory_state (length vals) m u1 (rev vals)
                   (N.lxor k (bit_mask (combine i (lsb_bits (Z.abs_N query) (length i))))))
    in Rq.
  destruct (recall_probability_aux n i m u0 psiq sel) as (psi' & R & Pc & Ps).
  { now symmetry. }
  { exact (layout_m i m u0 u1 Hnd). }
  { exact (layout_p_m i m u0 u1 Hnd). }
  { exact (layout_u0_p i m u0 u1 Hnd). }
  { exact (layout_u0_m i m u0 u1 Hnd). }
  { exact (bound_u0 n i m u0 u1 Hb). }
  { intros k Hk. unfold psiq.
    exact (query_state_u0 i m u0 u1 Hnd Hlen (Z.abs_N query) vals k Hk). }
  { exact Hsel. }
  exists psi'. split; [|split].
  - unfold experiment_gates. fold vals.
    rewrite (app_assoc (storage_gates _ _ _ _ _ _ _)), (app_assoc [XGate u1]).
    rewrite run_app. rewrite <- Hlv. rewrite Rq. exact R.
  - rewrite Pc, Hlen. unfold psiq.
    pose proof (query_weight_sum n i m u0 u1 Hnd Hlen Hb (Z.abs_N query) vals
                  (fun d => (cos (recall_angle (length i) d))²) sel Hpv Hfv Hd) as E.
    cbv beta in E. rewrite E, Hlv. unfold vals. rewrite sum_list_map. reflexivity.
  - rewrite Ps, Hlen. unfold psiq.
    pose proof (query_weight_sum n i m u0 u1 Hnd Hlen Hb (Z.abs_N query) vals
                  (fun d => (sin (recall_angle (length i) d))²) sel Hpv Hfv Hd) as E.
    cbv beta in E. rewrite E, Hlv. unfold vals. rewrite sum_list_map. reflexivity.
Qed.

Lemma driver_weights :
  recall_weight cos 3 2 4 4 = 1 / 2 /\ recall_weight sin 3 2 4 4 = 0 /\
  recall_weight cos 3 2 4 1 = 1 / 8 /\ recall_weight sin 3 2 4 1 = 3 / 8.
Proof.
  unfold recall_weight.
  replace (hamming (lsb_bits (Z.abs_N 4) 3) (lsb_bits (Z.abs_N 4) 3)) with 0%nat
    by reflexivity.
  replace (hamming (lsb_bits (Z.abs_N 4) 3) (lsb_bits (Z.abs_N 1) 3)) with 2%nat
    by reflexivity.
  rewrite recall_angle_0, cos_0, sin_0.
  replace (recall_angle 3 2) with (PI / 3) by (unfold recall_angle; cbn [INR]; field).
  rewrite cos_PI3, sin_PI3. unfold Rsqr. cbn [INR].
  assert (S3 : sqrt 3 * sqrt 3 = 3) by (apply sqrt_sqrt; lra).
  repeat split; try field.
  replace (sqrt 3 / 2 * (sqrt 3 / 2) / (1 + 1)) with ((sqrt 3 * sqrt 3) / 8) by field.
  rewrite S3. reflexivity.
Qed.

(** X22: [run_quantum_memory] succeeds, and in the state of the circuit it
    builds, from |0...0>, the joint distribution of qubit 5 (the first
    memory qubit) and qubit 3 (the control) that it prints is
    1/2 for (0, 0), 1/8 for (1, 0), 0 for (0, 1) and 3/8 for (1, 1). *)
Theorem X22_run_quantum_memory_output :
  exists qc psi,
    run_quantum_memory [] = (Ok tt, qc) /\
    run qc (ket 0) = Some psi /\
    prob 8 (fun k => negb (N.testbit k 3) && negb (N.testbit k 5)) psi = 1 / 2 /\
    prob 8 (fun k => negb (N.testbit k 3) && N.testbit k 5) psi = 1 / 8 /\
    prob 8 (fun k => N.testbit k 3 && negb (N.testbit k 5)) psi = 0 /\
    prob 8 (fun k => N.testbit k 3 && N.testbit k 5) psi = 3 / 8.
Proof.
  destruct driver_weights as (W1 & W2 & W3 & W4).
  assert (Hfit : Forall (fun val => (Z.abs_N val < 2 ^ N.of_nat (length [0; 1; 2]%N))%N)
                   [1; 4]%Z) by (repeat constructor).
  assert (Hd : NoDup (map Z.abs_N [1; 4]%Z)).
  { cbn. repeat constructor; cbn; intuition discriminate. }
  destruct (recall_experiment_sel 8 [0; 1; 2]%N [5; 6; 7]%N 3%N 4%N [1; 4]%Z 4%Z
              (fun k => negb (N.testbit k 5)) driver_layout eq_refl driver_bound
              Hfit Hd ltac:(cbn; lia))
    as (psi & R & P00 & P01).
  { intros k. now rewrite flip_other by discriminate. }
  destruct (recall_experiment_sel 8 [0; 1; 2]%N [5; 6; 7]%N 3%N 4%N [1; 4]%Z 4%Z
              (fun k => N.testbit k 5) driver_layout eq_refl driver_bound
              Hfit Hd ltac:(cbn; lia))
    as (psi2 & R2 & P10 & P11).
  { intros k. now rewrite flip_other by discriminate. }
  rewrite R in R2. injection R2 as <-.
  exists (experiment_gates [1; 4]%Z 4%Z [0; 1; 2]%N 3%N 4%N [5; 6; 7]%N 3%N), psi.
  split; [|split; [exact R|]].
  - rewrite run_quantum_memory_experiment.
    apply (store_then_retrieve_ok [1; 4]%Z 4%Z [0; 1; 2]%N [3; 4]%N [5; 6; 7]%N
             3%N 4%N 3%N []);
      [cbn; lia|reflexivity|reflexivity|exact Hfit|cbn; lia].
  - cbn [sum_list fold_right length] in P00, P01, P10, P11.
    rewrite W1, W3 in P00, P10. rewrite W2, W4 in P01, P11.
    repeat match goal with
           | H : context [N.testbit ?a 5%N] |- _ =>
               let v := eval vm_compute in (N.testbit a 5%N) in
               change (N.testbit a 5%N) with v in H
           end.
    cbn [negb] in P00, P01.
    rewrite P00, P01, P10, P11. repeat split; lra.
Qed.

(** ** When storage succeeds *)

Lemma bind_ok_inv {A B} (m : prog A) (f : A -> prog B) qc b qc2 :
  bind m f qc = (Ok b, qc2) ->
  exists a qc1, m qc = (Ok a, qc1) /\ f a qc1 = (Ok b, qc2).
Proof.
  unfold bind. destruct (m qc) as [[a|e] qc1]; [|discriminate].
  intros H. now exists a, qc1.
Qed.

Lemma for_each_ok_inv {A} (xs : list A) (body : A -> prog unit) qc qc' (x : A) :
  for_each xs body qc = (Ok tt, qc') -> In x xs ->
  exists qc0 qc1, body x qc0 = (Ok tt, qc1).
Proof.
  revert qc. induction xs as [|y xs IH]; intros qc H Hin; [contradiction|].
  cbn [for_each] in H. apply bind_ok_inv in H. destruct H as ([] & qc1 & Hy & Hrest).
  destruct Hin as [-> | Hin].
  - now exists qc, qc1.
  - now apply (IH qc1).
Qed.

Lemma getitem_ok_inv {A} (xs : list A) (idx : nat) qc (x : A) qc' :
  getitem xs idx qc = (Ok x, qc') -> nth_error xs idx = Some x.
Proof.
  unfold getitem. destruct (nth_error xs idx); [|discriminate].
  unfold ret. now intros [= ->].
Qed.

(** What one successful iteration of storage tells about its inputs. *)
Lemma storage_step_ok_inv (len_ps : nat) (p u m : list qubit) (idx : nat) (val : Z)
    qc qc' :
  storage_step len_ps p u m idx val qc = (Ok tt, qc') ->
  (Z.abs_N val < 2 ^ N.of_nat (length p))%N /\
  (length p <= length m)%nat /\ (2 <= length u)%nat.
Proof.
  intros H. unfold storage_step in H.
  apply bind_ok_inv in H. destruct H as ([] & q1 & Hpauli & H).
  apply bind_ok_inv in H. destruct H as ([] & q2 & Hccx & H).
  apply bind_ok_inv in H. destruct H as ([] & q3 & _ & H).
  apply bind_ok_inv in H. destruct H as ([] & q4 & _ & H).
  apply bind_ok_inv in H. destruct H as ([] & q5 & Hsi & _).
  split; [|split].
  - destruct (N.lt_ge_cases (Z.abs_N val) (2 ^ N.of_nat (length p))) as [Hf | Ho];
      [exact Hf|].
    rewrite (apply_pauli_overflow_at val p qc Ho) in Hpauli. discriminate.
  - destruct (Nat.le_gt_cases (length p) (length m)) as [Hle | Hgt]; [exact Hle|].
    exfalso.
    destruct (for_each_ok_inv _ _ _ _ (length m) Hccx) as (qa & qb & Hb).
    { unfold range. apply in_seq. lia. }
    apply bind_ok_inv in Hb. destruct Hb as (a & ? & _ & Hb).
    apply bind_ok_inv in Hb. destruct Hb as (b & ? & _ & Hb).
    apply bind_ok_inv in Hb. destruct Hb as (t & ? & Hm & _).
    apply getitem_ok_inv in Hm.
    assert (nth_error m (length m) = None) by (apply nth_error_None; lia).
    congruence.
  - unfold controlled_si in Hsi.
    apply bind_ok_inv in Hsi. destruct Hsi as (angle & ? & _ & Hsi).
    apply bind_ok_inv in Hsi. destruct Hsi as (a & ? & _ & Hsi).
    apply bind_ok_inv in Hsi. destruct Hsi as (b & ? & Hu1 & _).
    apply getitem_ok_inv in Hu1.
    assert (Hlt : (1 < length u)%nat).
    { apply nth_error_Some. rewrite Hu1. discriminate. }
    lia.
Qed.

(** X23: on registers that [QuantumCircuit] accepts in one gate (the
    qubits of [p], [u] and [m] all different, [m] not empty),
    [storage_algorithm] succeeds exactly when the pattern list is empty, or
    the pattern register is no longer than the memory register, [u] has at
    least two qubits and the magnitude of every pattern fits the pattern
    register. *)
Theorem X23_storage_success_condition (ps : list Z) (p u m : list qubit)
    (qc : QuantumCircuit) :
  NoDup (p ++ u ++ m) -> m <> [] ->
  ((exists qc', storage_algorithm ps p u m qc = (Ok tt, qc')) <->
   ps = [] \/
   ((length p <= length m)%nat /\ (2 <= length u)%nat /\
    Forall (fun val => (Z.abs_N val < 2 ^ N.of_nat (length p))%N) ps)).
Proof.
  intros _ _. split.
  - intros [qc' H]. destruct ps as [|v0 ps0]; [now left|]. right.
    unfold storage_algorithm in H.
    assert (Hall : forall idx val, In (idx, val) (enumerate (v0 :: ps0)) ->
              (Z.abs_N val < 2 ^ N.of_nat (length p))%N /\
              (length p <= length m)%nat /\ (2 <= length u)%nat).
    { intros idx val Hin.
      destruct (for_each_ok_inv _ _ _ _ (idx, val) H Hin) as (qa & qb & Hb).
      exact (storage_step_ok_inv _ _ _ _ _ _ _ _ Hb). }
    destruct (Hall 0%nat v0) as (_ & Hpm & Hu); [now left|].
    split; [exact Hpm|]. split; [exact Hu|].
    apply Forall_forall. intros val Hval.
    destruct (In_nth _ _ 0%Z Hval) as (j & Hj & Ej).
    destruct (Hall j val) as (Hf & _); [|exact Hf].
    unfold enumerate.
    replace (j, val) with (nth j (combine (seq 0 (length (v0 :: ps0))) (v0 :: ps0))
                             (0%nat, 0%Z)).
    + apply nth_In. rewrite length_combine, length_seq. lia.
    + rewrite combine_nth by apply length_seq.
      rewrite seq_nth by exact Hj. now rewrite Ej.
  - intros [-> | (Hpm & Hu & Hfit)].
    + exists qc. reflexivity.
    + destruct u as [|u0 [|u1 u']]; cbn [length] in Hu; try lia.
      eexists. apply (storage_algorithm_ok ps p (u0 :: u1 :: u') m u0 u1 qc Hpm);
        [reflexivity|reflexivity|exact Hfit].
Qed.

Lemma X23_storage_success_condition_witness :
  (exists qc', storage_algorithm [1; 4]%Z [0; 1; 2]%N [3; 4]%N [5; 6; 7]%N [] =
               (Ok tt, qc')) <->
  [1; 4]%Z = [] \/
  ((length [0; 1; 2]%N <= length [5; 6; 7]%N)%nat /\ (2 <= length [3; 4]%N)%nat /\
   Forall (fun val => (Z.abs_N val < 2 ^ N.of_nat (length [0; 1; 2]%N))%N) [1; 4]%Z).
Proof.
  apply (X23_storage_success_condition [1; 4]%Z [0; 1; 2]%N [3; 4]%N [5; 6; 7]%N []).
  - exact driver_layout.
  - discriminate.
Defined.
